(** * pvc.data.GroupingSpec: grouping and ordering specifications

    A shallow embedding of [src/pvc/data/GroupingSpec.js]: dimension
    order specifications, grouping levels, grouping specifications with
    their lazily cached derived variants, and the textual grammar. *)

From Stdlib Require Import ZArith Ascii String List Lia.
From stdpp Require Import base option list gmap strings pretty.

Local Open Scope string_scope.
Local Open Scope list_scope.
Local Open Scope Z_scope.

(** ** Errors and results *)

(** Modelled from the spec: the [def.fail.argumentRequired] and
    [def.fail.argumentInvalid] helpers of the [def] library raise the
    two error kinds of the taxonomy; [TypeError] is the JavaScript
    error of a property access on [undefined]; [Thrown] stands for
    whatever an external collaborator throws. *)
Inductive error : Type :=
| ArgumentRequired (arg : string)
| ArgumentInvalid (arg : string) (msg : string) (args : list string)
| TypeError (msg : string)
| Thrown (msg : string).

Inductive result (A : Type) : Type :=
| Ok (a : A)
| Err (e : error).

Arguments Ok {A} a.
Arguments Err {A} e.

#[global] Instance result_ret : MRet result := fun _ a => Ok a.
#[global] Instance result_bind : MBind result := fun _ _ f m =>
  match m with
  | Ok a => f a
  | Err e => Err e
  end.
#[global] Instance result_fmap : FMap result := fun _ _ f m =>
  match m with
  | Ok a => Ok (f a)
  | Err e => Err e
  end.

(** [Array.prototype.join] on an array of strings. *)
Definition join (sep : string) (xs : list string) : string :=
  String.concat sep xs.

(** ** Strings and regular expressions

    JavaScript strings are modelled as sequences of code units below
    256; [text] is the list view used by the matcher. *)

Definition text : Type := list ascii.

Definition code (c : ascii) : nat := nat_of_ascii c.

(** The class [\s] restricted to code units below 256: TAB, LF, VT, FF,
    CR, SP and NBSP. *)
Definition is_space (c : ascii) : bool :=
  let n := code c in
  ((9 <=? n) && (n <=? 13) || (n =? 32) || (n =? 160))%nat.

(** The class [.]: anything but a line terminator. *)
Definition is_dot (c : ascii) : bool :=
  let n := code c in
  negb ((n =? 10) || (n =? 13))%nat.

(** [String.prototype.toLowerCase] on one code unit of the ASCII range. *)
Definition lower (c : ascii) : ascii :=
  let n := code c in
  if ((65 <=? n) && (n <=? 90))%nat then ascii_of_nat (n + 32) else c.

Definition toLowerCase (s : string) : string :=
  string_of_list_ascii (map lower (list_ascii_of_string s)).

(** A literal character; under the [i] flag two characters match when
    they agree up to ASCII case. *)
Definition is_char (ignoreCase : bool) (x c : ascii) : bool :=
  if ignoreCase then Ascii.eqb (lower x) (lower c) else Ascii.eqb x c.

(** The fragment of the regular-expression syntax used by this file:
    a quantifier applies to a character class only. *)
Inductive regex : Type :=
| Chr (p : ascii -> bool)
| Rep (greedy : bool) (p : ascii -> bool)
| Seq (r1 r2 : regex)
| Alt (r1 r2 : regex)
| Empty
| Cap (n : nat) (r : regex)
| Bol
| Eol.

(** Capture groups that took part in the match, most recent first. *)
Definition captures : Type := list (nat * text).

Definition capture (cs : captures) (n : nat) : option text :=
  snd <$> find (fun c => (fst c =? n)%nat) cs.

(** [p*]: the longest run first, then shorter ones. *)
Fixpoint rep_greedy {R : Type} (p : ascii -> bool) (pos : nat) (s : text)
    (k : nat -> text -> option R) : option R :=
  match s with
  | c :: s' =>
    if p c then
      match rep_greedy p (S pos) s' k with
      | Some r => Some r
      | None => k pos s
      end
    else k pos s
  | [] => k pos s
  end.

(** [p*?]: the shortest run first, then longer ones. *)
Fixpoint rep_lazy {R : Type} (p : ascii -> bool) (pos : nat) (s : text)
    (k : nat -> text -> option R) : option R :=
  match k pos s with
  | Some r => Some r
  | None =>
    match s with
    | c :: s' => if p c then rep_lazy p (S pos) s' k else None
    | [] => None
    end
  end.

(** The backtracking matcher, in continuation-passing style: [pos] is
    the index of [s] in the input and [k] matches what follows. *)
Fixpoint rmatch {R : Type} (r : regex) (pos : nat) (s : text) (cs : captures)
    (k : nat -> text -> captures -> option R) : option R :=
  match r with
  | Chr p =>
    match s with
    | c :: s' => if p c then k (S pos) s' cs else None
    | [] => None
    end
  | Rep greedy p =>
    (if greedy then rep_greedy p pos s else rep_lazy p pos s)
      (fun pos' s' => k pos' s' cs)
  | Seq r1 r2 =>
    rmatch r1 pos s cs (fun pos' s' cs' => rmatch r2 pos' s' cs' k)
  | Alt r1 r2 =>
    match rmatch r1 pos s cs k with
    | Some x => Some x
    | None => rmatch r2 pos s cs k
    end
  | Empty => k pos s cs
  | Cap n r =>
    rmatch r pos s cs
      (fun pos' s' cs' => k pos' s' ((n, take (pos' - pos) s) :: cs'))
  | Bol => if (pos =? 0)%nat then k pos s cs else None
  | Eol =>
    match s with
    | [] => k pos s cs
    | _ :: _ => None
    end
  end.

(** A match of [r] starting exactly at [pos]: the number of characters
    matched and the captures. *)
Definition match_at (r : regex) (pos : nat) (s : text) : option (nat * captures) :=
  rmatch r pos s [] (fun pos' _ cs => Some ((pos' - pos)%nat, cs)).

(** [RegExp.prototype.exec] without the [g] flag: the first index at
    which the expression matches. *)
Fixpoint exec_from (r : regex) (pos : nat) (s : text) : option (nat * captures) :=
  match match_at r pos s with
  | Some m => Some m
  | None =>
    match s with
    | _ :: s' => exec_from r (S pos) s'
    | [] => None
    end
  end.

Definition exec (r : regex) (s : string) : option captures :=
  snd <$> exec_from r 0 (list_ascii_of_string s).

(** [String.prototype.split] with a regular expression that has no
    capture group. [q] is the index of [rest], [piece] the characters
    since the end of the last separator, and [skip] the number of
    characters of the separator just matched that are still ahead. *)
Fixpoint split_loop (r : regex) (skip q : nat) (piece rest : text) : list text :=
  match rest with
  | [] => [piece]
  | c :: rest' =>
    match skip with
    | S skip' => split_loop r skip' (S q) piece rest'
    | O =>
      match match_at r q rest with
      | None => split_loop r 0 (S q) (piece ++ [c]) rest'
      | Some (O, _) =>
        match piece with
        | [] => split_loop r 0 (S q) [c] rest'
        | _ :: _ => piece :: split_loop r 0 (S q) [c] rest'
        end
      | Some (S n, _) => piece :: split_loop r n (S q) [] rest'
      end
    end
  end.

(** For the empty string the result is empty when the expression
    matches it, and the string alone otherwise. *)
Definition split_text (r : regex) (cs : text) : list text :=
  match cs with
  | [] =>
    match match_at r 0 [] with
    | Some _ => []
    | None => [[]]
    end
  | _ :: _ => split_loop r 0 0 [] cs
  end.

Definition split (r : regex) (s : string) : list string :=
  map string_of_list_ascii (split_text r (list_ascii_of_string s)).

(** [/\s*,\s*/] and [/\s*\|\s*/]. *)
Definition sep_regex (c : ascii) : regex :=
  Seq (Rep true is_space) (Seq (Chr (is_char false c)) (Rep true is_space)).

Definition lit (ignoreCase : bool) (s : string) : regex :=
  fold_right (fun c r => Seq (Chr (is_char ignoreCase c)) r) Empty
             (list_ascii_of_string s).

(** The parts of [/^\s*(.+?)(?:\s+(asc|desc))?\s*$/i]: the name
    [(.+?)], the order [\s+(asc|desc)] and the end [\s*$]. *)
Definition dimSpec_name : regex :=
  Cap 1 (Seq (Chr is_dot) (Rep false is_dot)).

Definition dimSpec_order : regex :=
  Seq (Seq (Chr is_space) (Rep true is_space))
      (Cap 2 (Alt (lit true "asc") (lit true "desc"))).

Definition dimSpec_end : regex :=
  Seq (Rep true is_space) Eol.

Definition groupSpec_matchDimSpec : regex :=
  Seq Bol
  (Seq (Rep true is_space)
  (Seq dimSpec_name
  (Seq (Alt dimSpec_order Empty)
       dimSpec_end))).

(** *** What a match is

    The declarative reading of the expressions: [matches r pos w rest]
    says that [r] matches the characters [w] at index [pos] of an input
    that continues with [rest], and which groups it captures. *)

Inductive matches : regex -> nat -> text -> text -> captures -> captures -> Prop :=
| matches_Chr p c pos rest cs :
    p c = true -> matches (Chr p) pos [c] rest cs cs
| matches_Rep greedy p w pos rest cs :
    Forall (fun c => p c = true) w -> matches (Rep greedy p) pos w rest cs cs
| matches_Seq r1 r2 w1 w2 pos rest cs cs1 cs2 :
    matches r1 pos w1 (w2 ++ rest) cs cs1 ->
    matches r2 (pos + length w1) w2 rest cs1 cs2 ->
    matches (Seq r1 r2) pos (w1 ++ w2) rest cs cs2
| matches_Alt_l r1 r2 w pos rest cs cs' :
    matches r1 pos w rest cs cs' -> matches (Alt r1 r2) pos w rest cs cs'
| matches_Alt_r r1 r2 w pos rest cs cs' :
    matches r2 pos w rest cs cs' -> matches (Alt r1 r2) pos w rest cs cs'
| matches_Empty pos rest cs :
    matches Empty pos [] rest cs cs
| matches_Cap n r w pos rest cs cs' :
    matches r pos w rest cs cs' -> matches (Cap n r) pos w rest cs ((n, w) :: cs')
| matches_Bol rest cs :
    matches Bol 0 [] rest cs cs
| matches_Eol pos cs :
    matches Eol pos [] [] cs cs.

(** [s] is empty or starts with a character outside the class [p]. *)
Definition stops (p : ascii -> bool) (s : text) : Prop :=
  match s with
  | [] => True
  | c :: _ => p c = false
  end.

(** A fragment without the character [c] that neither starts nor ends
    with white space. *)
Definition tidy (c : ascii) (f : text) : Prop :=
  Forall (fun x => x <> c) f /\ stops is_space f /\ stops is_space (rev f).

(** The expression has no [^]. *)
Fixpoint bol_free (r : regex) : bool :=
  match r with
  | Seq r1 r2 | Alt r1 r2 => bol_free r1 && bol_free r2
  | Cap _ r => bol_free r
  | Bol => false
  | Chr _ | Rep _ _ | Empty | Eol => true
  end.

(** *** The grammar, as written

    A specification text is written from levels separated by commas,
    each a list of dimensions separated by pipes, each a name with an
    optional order token after white space. *)

Definition written_dim : Type := text * option text.

Definition render_dim (gap : text) (d : written_dim) : text :=
  match snd d with
  | None => fst d
  | Some tok => fst d ++ gap ++ tok
  end.

Fixpoint render_list (sep : text) (xs : list text) : text :=
  match xs with
  | [] => []
  | [x] => x
  | x :: xs' => x ++ sep ++ render_list sep xs'
  end.

Definition render_level (pad gap : text) (dims : list written_dim) : text :=
  render_list ("|"%char :: pad) (map (render_dim gap) dims).

Definition render_spec (pad_level pad_dim gap : text)
    (levels : list (list written_dim)) : text :=
  render_list (","%char :: pad_level) (map (render_level pad_dim gap) levels).


(** A name is not empty and has no white space and no separator; a token
    reads [asc] or [desc] up to case. *)
Definition well_written (d : written_dim) : Prop :=
  fst d <> []
  /\ Forall (fun c => is_space c = false /\ c <> ","%char /\ c <> "|"%char) (fst d)
  /\ match snd d with
     | None => True
     | Some tok => map lower tok = list_ascii_of_string "asc"
                   \/ map lower tok = list_ascii_of_string "desc"
     end.

Definition written_reverse (d : written_dim) : bool :=
  match snd d with
  | None => false
  | Some tok => bool_decide (map lower tok = list_ascii_of_string "desc")
  end.

(** The string has no comma. *)
Definition comma_free (s : string) : bool :=
  forallb (fun c => negb (Ascii.eqb c ",")) (list_ascii_of_string s).

(** The texts the dimension pattern describes: white space, a name of
    characters other than line terminators, possibly white space and a
    token that reads [asc] or [desc] up to case, white space. *)
Definition dimSpec_shape (s : text) : Prop :=
  exists lw name tail,
    s = lw ++ name ++ tail
    /\ Forall (fun c => is_space c = true) lw
    /\ name <> []
    /\ Forall (fun c => is_dot c = true) name
    /\ (Forall (fun c => is_space c = true) tail
        \/ exists ws tok tw,
            tail = ws ++ tok ++ tw
            /\ ws <> []
            /\ Forall (fun c => is_space c = true) ws
            /\ Forall (fun c => is_space c = true) tw
            /\ (map lower tok = list_ascii_of_string "asc"
                \/ map lower tok = list_ascii_of_string "desc")).

(** The fragments of a text around the separators [\s*c\s*]: each
    separator takes the white space on both sides of its [c]. *)
Inductive split_of (c : ascii) : text -> list text -> Prop :=
| split_of_last f :
    Forall (fun x => x <> c) f -> split_of c f [f]
| split_of_cons f ws1 ws2 rest fragments :
    Forall (fun x => x <> c) f -> stops is_space (rev f) ->
    Forall (fun x => is_space x = true) ws1 ->
    Forall (fun x => is_space x = true) ws2 ->
    stops is_space rest ->
    split_of c rest fragments ->
    split_of c (f ++ ws1 ++ c :: ws2 ++ rest) (f :: fragments).

(** Locations of objects in the store. *)
Abbreviation loc := nat.

Section Model.

(** ** External collaborators *)

(** An atom is an external value wrapper; the only capability used here
    is [globalKey()]. *)
Context {Atom : Type}.
Variable globalKey : Atom -> string.

(** The value of [datum.atoms[name]]: an atom, or [undefined]. *)
Definition JsAtom : Type := option Atom.

(** A datum exposes [atoms], a mapping from dimension names to atoms. *)
Record Datum : Type := { atoms : gmap string Atom }.

(** What [dimType.atomComparer(reverse)] returns: a function of two
    JavaScript values that yields a number or throws. *)
Definition AtomComparer : Type := JsAtom -> JsAtom -> result Z.

Record DimensionType : Type := {
  dt_name : string;
  dt_isDiscrete : bool;
  dt_atomComparer : bool -> AtomComparer
}.

(** The complex type resolves dimension names; an unknown name throws. *)
Record ComplexType : Type := {
  ct_dimensions : string -> result DimensionType
}.

(** ** pvc.data.GroupingDimensionSpec *)

Record GroupingDimensionSpec : Type := {
  ds_name : string;
  ds_reverse : bool;
  ds_type : DimensionType;
  ds_comparer : AtomComparer;
  ds_id : string
}.

Definition GroupingDimensionSpec_init (dimType : DimensionType) (reverse : bool)
  : GroupingDimensionSpec :=
  {| ds_name := dt_name dimType;
     ds_reverse := reverse;
     ds_type := dimType;
     ds_comparer := dt_atomComparer dimType reverse;
     ds_id := dt_name dimType +:+ ":" +:+ (if reverse then "0" else "1") |}.

Definition GroupingDimensionSpec_compareDatums
    (this : GroupingDimensionSpec) (a b : Datum) : result Z :=
  r ← ds_comparer this (atoms a !! ds_name this) (atoms b !! ds_name this);
  if negb (r =? 0) then Ok r else Ok 0.

(** ** pvc.data.GroupingLevelSpec *)

Record GroupingLevelSpec : Type := {
  ls_dimensions : list GroupingDimensionSpec;
  ls_id : string;
  ls_depth : nat
}.

(** The constructor enumerates [dimSpecs] once, pushing each id; the
    [comparer] closure it stores is [compare] itself and has no field
    of its own here. *)
Definition GroupingLevelSpec_init (dimSpecs : list GroupingDimensionSpec)
  : GroupingLevelSpec :=
  let ids := fold_left (fun ids dimSpec => ids ++ [ds_id dimSpec]) dimSpecs [] in
  {| ls_dimensions := dimSpecs;
     ls_id := join "," ids;
     ls_depth := length dimSpecs |}.

(** The loop of [compare]: [n] iterations remain, starting at index [i]. *)
Fixpoint compare_loop (this : GroupingLevelSpec) (a b : Datum)
    (n i : nat) : result Z :=
  match n with
  | O => Ok 0
  | S n' =>
    match ls_dimensions this !! i with
    | None => Err (TypeError "dimensions[i] is undefined")
    | Some d =>
      r ← GroupingDimensionSpec_compareDatums d a b;
      if negb (r =? 0) then Ok r else compare_loop this a b n' (S i)
    end
  end.

Definition GroupingLevelSpec_compare (this : GroupingLevelSpec) (a b : Datum)
  : result Z :=
  compare_loop this a b (ls_depth this) 0%nat.

(** The object returned by [key]. *)
Record LevelKey : Type := { key : string; key_atoms : list Atom }.

(** The loop of [key]; [keys] and [ats] are the two arrays being filled. *)
Fixpoint key_loop (this : GroupingLevelSpec) (datum : Datum)
    (n i : nat) (keys : list string) (ats : list Atom)
  : result (list string * list Atom) :=
  match n with
  | O => Ok (keys, ats)
  | S n' =>
    match ls_dimensions this !! i with
    | None => Err (TypeError "dimensions[i] is undefined")
    | Some d =>
      match atoms datum !! ds_name d with
      | None => Err (TypeError "atom is undefined")
      | Some atom =>
        key_loop this datum n' (S i) (keys ++ [globalKey atom]) (ats ++ [atom])
      end
    end
  end.

Definition GroupingLevelSpec_key (this : GroupingLevelSpec) (datum : Datum)
  : result LevelKey :=
  '(keys, ats) ← key_loop this datum (ls_depth this) 0%nat [] [];
  Ok {| key := join "," keys; key_atoms := ats |}.

(** *** Reading the level operations as list functions

    These definitions follow the words of the specification; the
    theorems below relate the loops above to them. *)

(** A strict lexicographic composite of the dimension comparisons. *)
Fixpoint lex_compare (dims : list GroupingDimensionSpec) (a b : Datum)
  : result Z :=
  match dims with
  | [] => Ok 0
  | d :: dims' =>
    r ← GroupingDimensionSpec_compareDatums d a b;
    if negb (r =? 0) then Ok r else lex_compare dims' a b
  end.

(** The atoms of a datum for the given dimensions, when all are there. *)
Definition level_atoms (dims : list GroupingDimensionSpec) (datum : Datum)
  : option (list Atom) :=
  mapM (fun d => atoms datum !! ds_name d) dims.

(** The datum has an atom for every one of the dimension names. *)
Definition has_atoms (dims : list GroupingDimensionSpec) (datum : Datum) : Prop :=
  Forall (fun d => is_Some (atoms datum !! ds_name d)) dims.

(** Contracts a dimension type may or may not honour. *)
Definition comparer_antisymmetric (c : AtomComparer) : Prop :=
  (forall x y, c x y = Z.opp <$> c y x) /\ (forall x, c x x = Ok 0).

Definition comparer_total (c : AtomComparer) : Prop :=
  forall x y : Atom, exists z, c (Some x) (Some y) = Ok z.

Definition key_faithful (c : AtomComparer) : Prop :=
  forall x y : Atom, c (Some x) (Some y) = Ok 0 -> globalKey x = globalKey y.

(** ** pvc.data.GroupingSpec *)

(** Modelled from the spec: a [def.query] sequence is a list, enumerated
    once and in order; [where], [select] and [selectMany] are [filter],
    [map] and the concatenation of a [map]. *)

(** Keyword arguments; an absent property reads as [undefined]. *)
Record KeyArgs : Type := {
  ka_flatteningMode : option string;
  ka_flattenRootLabel : option string;
  ka_reverse : option bool
}.

(** Modelled from the spec: [def.get(o, p, dv)] of the [def] library
    reads property [p] of [o], and yields [dv] when [o] or the
    property is absent. *)
Definition def_get {A : Type} (keyArgs : option KeyArgs)
    (p : KeyArgs -> option A) : option A :=
  keyArgs ≫= p.

(** Truthiness of a string-valued property: [undefined] and the empty
    string are falsy. *)
Definition truthy (o : option string) : bool :=
  match o with
  | Some s => negb (String.eqb s "")
  | None => false
  end.

(** [o || dv] on a string-valued property. *)
Definition or_else (o : option string) (dv : string) : string :=
  match o with
  | Some s => if truthy o then s else dv
  | None => dv
  end.

(** Grouping specifications are objects with identity: they live in a
    store and are referred to by location, an index into the store. *)

Record GroupingSpec : Type := {
  gs_type : ComplexType;
  gs_hasCompositeLevels : bool;
  gs_levels : list GroupingLevelSpec;
  gs_depth : nat;
  gs_isSingleLevel : bool;
  gs_isSingleDimension : bool;
  gs_firstDimension : option GroupingDimensionSpec;
  gs_flatteningMode : option string;
  gs_flattenRootLabel : string;
  gs_id : string;
  gs__dimNames : option (list string);
  gs__singleLevelGrouping : option (gmap bool loc);
  gs__reverseGrouping : option loc
}.

(** The callback of [select] in the constructor: pushes the level id and
    raises [hasCompositeLevels]. *)
Definition init_select (st : list string * bool) (levelSpec : GroupingLevelSpec)
  : list string * bool :=
  let '(ids, hasCompositeLevels) := st in
  (ids ++ [ls_id levelSpec],
   if negb hasCompositeLevels && (1 <? length (ls_dimensions levelSpec))%nat
   then true else hasCompositeLevels).

(** The constructor body: the fields of the new object, or the error
    thrown. *)
Definition GroupingSpec_init (levelSpecs : option (list GroupingLevelSpec))
    (complexType : option ComplexType) (keyArgs : option KeyArgs)
  : result GroupingSpec :=
  match levelSpecs with
  | None => Err (ArgumentRequired "levelSpecs")
  | Some levelSpecs =>
    match complexType with
    | None => Err (ArgumentRequired "complexType")
    | Some complexType =>
      let levels :=
        filter (fun levelSpec => (0 < length (ls_dimensions levelSpec))%nat)
               levelSpecs in
      let '(ids, hasCompositeLevels) :=
        fold_left init_select levels ([], false) in
      if (length levels =? 0)%nat
      then Err (ArgumentInvalid "levelSpecs" "Must have at least one element." [])
      else
        let depth := length levels in
        let isSingleLevel := (depth =? 1)%nat in
        let flatteningMode :=
          if truthy (def_get keyArgs ka_flatteningMode)
          then def_get keyArgs ka_flatteningMode else None in
        let flattenRootLabel := or_else (def_get keyArgs ka_flattenRootLabel) "" in
        Ok {| gs_type := complexType;
              gs_hasCompositeLevels := hasCompositeLevels;
              gs_levels := levels;
              gs_depth := depth;
              gs_isSingleLevel := isSingleLevel;
              gs_isSingleDimension := isSingleLevel && negb hasCompositeLevels;
              gs_firstDimension :=
                if (0 <? depth)%nat
                then levels !! 0%nat ≫= fun l => ls_dimensions l !! 0%nat
                else None;
              gs_flatteningMode := flatteningMode;
              gs_flattenRootLabel := flattenRootLabel;
              gs_id := or_else flatteningMode "" +:+ "##" +:+
                       flattenRootLabel +:+ "##" +:+ join "||" ids;
              gs__dimNames := None;
              gs__singleLevelGrouping := None;
              gs__reverseGrouping := None |}
    end
  end.

(** *** The object store *)

Local Abbreviation heap := (list GroupingSpec).

(** Computations that read and update the store and may throw; the
    store survives a throw. *)
Definition M (A : Type) : Type := heap -> result A * heap.

Definition M_ret {A : Type} (a : A) : M A := fun h => (Ok a, h).

Definition M_bind {A B : Type} (m : M A) (f : A -> M B) : M B := fun h =>
  match m h with
  | (Ok a, h') => f a h'
  | (Err e, h') => (Err e, h')
  end.

Definition throw {A : Type} (e : error) : M A := fun h => (Err e, h).

Definition lift {A : Type} (r : result A) : M A := fun h => (r, h).

(** [new]: a fresh location holding the object. *)
Definition alloc (g : GroupingSpec) : M loc := fun h =>
  (Ok (length h), h ++ [g]).

Definition load (l : loc) : M GroupingSpec := fun h =>
  match h !! l with
  | Some g => (Ok g, h)
  | None => (Err (TypeError "no object at this location"), h)
  end.

(** Assignment to a field of the object at [l]. *)
Definition update (l : loc) (f : GroupingSpec -> GroupingSpec) : M unit := fun h =>
  match h !! l with
  | Some g => (Ok tt, <[l := f g]> h)
  | None => (Err (TypeError "no object at this location"), h)
  end.

Notation "'let!' x ':=' m 'in' k" := (M_bind m (fun x => k))
  (at level 10, x pattern, k at level 200, only parsing).

(** [new pvc.data.GroupingSpec(levelSpecs, complexType, keyArgs)]. *)
Definition GroupingSpec_new (levelSpecs : option (list GroupingLevelSpec))
    (complexType : option ComplexType) (keyArgs : option KeyArgs) : M loc :=
  let! g := lift (GroupingSpec_init levelSpecs complexType keyArgs) in
  alloc g.

Definition set__dimNames (v : list string) (g : GroupingSpec) : GroupingSpec :=
  {| gs_type := gs_type g;
     gs_hasCompositeLevels := gs_hasCompositeLevels g;
     gs_levels := gs_levels g;
     gs_depth := gs_depth g;
     gs_isSingleLevel := gs_isSingleLevel g;
     gs_isSingleDimension := gs_isSingleDimension g;
     gs_firstDimension := gs_firstDimension g;
     gs_flatteningMode := gs_flatteningMode g;
     gs_flattenRootLabel := gs_flattenRootLabel g;
     gs_id := gs_id g;
     gs__dimNames := Some v;
     gs__singleLevelGrouping := gs__singleLevelGrouping g;
     gs__reverseGrouping := gs__reverseGrouping g |}.

Definition set__singleLevelGrouping (v : gmap bool loc) (g : GroupingSpec)
  : GroupingSpec :=
  {| gs_type := gs_type g;
     gs_hasCompositeLevels := gs_hasCompositeLevels g;
     gs_levels := gs_levels g;
     gs_depth := gs_depth g;
     gs_isSingleLevel := gs_isSingleLevel g;
     gs_isSingleDimension := gs_isSingleDimension g;
     gs_firstDimension := gs_firstDimension g;
     gs_flatteningMode := gs_flatteningMode g;
     gs_flattenRootLabel := gs_flattenRootLabel g;
     gs_id := gs_id g;
     gs__dimNames := gs__dimNames g;
     gs__singleLevelGrouping := Some v;
     gs__reverseGrouping := gs__reverseGrouping g |}.

Definition set__reverseGrouping (v : loc) (g : GroupingSpec) : GroupingSpec :=
  {| gs_type := gs_type g;
     gs_hasCompositeLevels := gs_hasCompositeLevels g;
     gs_levels := gs_levels g;
     gs_depth := gs_depth g;
     gs_isSingleLevel := gs_isSingleLevel g;
     gs_isSingleDimension := gs_isSingleDimension g;
     gs_firstDimension := gs_firstDimension g;
     gs_flatteningMode := gs_flatteningMode g;
     gs_flattenRootLabel := gs_flattenRootLabel g;
     gs_id := gs_id g;
     gs__dimNames := gs__dimNames g;
     gs__singleLevelGrouping := gs__singleLevelGrouping g;
     gs__reverseGrouping := Some v |}.

(** [dimensions()]: the dimension specifications of all levels, in level
    order then within-level order. *)
Definition GroupingSpec_dimensions (g : GroupingSpec) : list GroupingDimensionSpec :=
  concat (map ls_dimensions (gs_levels g)).

Definition GroupingSpec_dimensionNames (this : loc) : M (list string) :=
  let! g := load this in
  match gs__dimNames g with
  | Some names => M_ret names
  | None =>
    let names := map ds_name (GroupingSpec_dimensions g) in
    let! _ := update this (set__dimNames names) in
    M_ret names
  end.

Definition GroupingSpec_isDiscrete (g : GroupingSpec) : result bool :=
  if negb (gs_isSingleDimension g) then Ok true
  else match gs_firstDimension g with
       | Some d => Ok (dt_isDiscrete (ds_type d))
       | None => Err (TypeError "firstDimension is null")
       end.

(** The dimension specification with the opposite order. *)
Definition reverse_dimSpec (dimSpec : GroupingDimensionSpec) : GroupingDimensionSpec :=
  GroupingDimensionSpec_init (ds_type dimSpec) (negb (ds_reverse dimSpec)).

Definition GroupingSpec_reversed (this : loc) : M loc :=
  let! g := load this in
  match gs__reverseGrouping g with
  | Some reverseGrouping => M_ret reverseGrouping
  | None =>
    let levelSpecs :=
      map (fun levelSpec =>
             GroupingLevelSpec_init (map reverse_dimSpec (ls_dimensions levelSpec)))
          (gs_levels g) in
    let! reverseGrouping :=
      GroupingSpec_new (Some levelSpecs) (Some (gs_type g))
        (Some {| ka_flatteningMode := gs_flatteningMode g;
                 ka_flattenRootLabel := None;
                 ka_reverse := None |}) in
    let! _ := update this (set__reverseGrouping reverseGrouping) in
    M_ret reverseGrouping
  end.

Definition GroupingSpec_singleLevelGrouping (this : loc) (keyArgs : option KeyArgs)
  : M loc :=
  let reverse := default false (def_get keyArgs ka_reverse) in
  let! g := load this in
  if gs_isSingleLevel g && negb reverse then M_ret this
  else
    let! _ :=
      match gs__singleLevelGrouping g with
      | Some _ => M_ret tt
      | None => update this (set__singleLevelGrouping ∅)
      end in
    let! g := load this in
    match default ∅ (gs__singleLevelGrouping g) !! reverse with
    | Some singleLevel => M_ret singleLevel
    | None =>
      let dimSpecs :=
        map (fun dimSpec => if reverse then reverse_dimSpec dimSpec else dimSpec)
            (GroupingSpec_dimensions g) in
      let levelSpec := GroupingLevelSpec_init dimSpecs in
      let! singleLevel :=
        GroupingSpec_new (Some [levelSpec]) (Some (gs_type g))
          (Some {| ka_flatteningMode := gs_flatteningMode g;
                   ka_flattenRootLabel := None;
                   ka_reverse := None |}) in
      let! _ :=
        update this (fun g =>
          set__singleLevelGrouping
            (<[reverse := singleLevel]> (default ∅ (gs__singleLevelGrouping g))) g) in
      M_ret singleLevel
    end.

Definition GroupingSpec_ensure (this : loc) (keyArgs : option KeyArgs) : M loc :=
  let flatteningMode := def_get keyArgs ka_flatteningMode in
  if truthy flatteningMode && bool_decide (flatteningMode = Some "singleLevel")
  then GroupingSpec_singleLevelGrouping this keyArgs
  else
    let! grouping :=
      if truthy flatteningMode then
        let flattenRootLabel := or_else (def_get keyArgs ka_flattenRootLabel) "" in
        let! g := load this in
        if bool_decide (gs_flatteningMode g ≠ flatteningMode)
           || bool_decide (gs_flattenRootLabel g ≠ flattenRootLabel)
        then GroupingSpec_new (Some (gs_levels g)) (Some (gs_type g))
               (Some {| ka_flatteningMode := flatteningMode;
                        ka_flattenRootLabel := Some flattenRootLabel;
                        ka_reverse := None |})
        else M_ret this
      else M_ret this in
    if default false (def_get keyArgs ka_reverse)
    then GroupingSpec_reversed grouping
    else M_ret grouping.

(** *** Well-formed objects and stores

    Dimension and level specifications are only ever made by their
    constructors; a store is well formed when its objects were made by
    the constructor from such levels and every cache slot that is set
    refers to a later object that the method filling it would build. *)

Definition dimSpec_wf (d : GroupingDimensionSpec) : Prop :=
  d = GroupingDimensionSpec_init (ds_type d) (ds_reverse d).

Definition levelSpec_wf (l : GroupingLevelSpec) : Prop :=
  l = GroupingLevelSpec_init (ls_dimensions l)
  /\ Forall dimSpec_wf (ls_dimensions l).

(** The object as the constructor left it, with no cache slot set. *)
Definition clear_caches (g : GroupingSpec) : GroupingSpec :=
  {| gs_type := gs_type g;
     gs_hasCompositeLevels := gs_hasCompositeLevels g;
     gs_levels := gs_levels g;
     gs_depth := gs_depth g;
     gs_isSingleLevel := gs_isSingleLevel g;
     gs_isSingleDimension := gs_isSingleDimension g;
     gs_firstDimension := gs_firstDimension g;
     gs_flatteningMode := gs_flatteningMode g;
     gs_flattenRootLabel := gs_flattenRootLabel g;
     gs_id := gs_id g;
     gs__dimNames := None;
     gs__singleLevelGrouping := None;
     gs__reverseGrouping := None |}.

Definition constructed (g : GroupingSpec) : Prop :=
  Forall levelSpec_wf (gs_levels g)
  /\ exists levelSpecs keyArgs,
      GroupingSpec_init (Some levelSpecs) (Some (gs_type g)) keyArgs
      = Ok (clear_caches g).

Definition derived_keyArgs (g : GroupingSpec) : option KeyArgs :=
  Some {| ka_flatteningMode := gs_flatteningMode g;
          ka_flattenRootLabel := None;
          ka_reverse := None |}.

Definition reversed_levels (levels : list GroupingLevelSpec) : list GroupingLevelSpec :=
  map (fun levelSpec =>
         GroupingLevelSpec_init (map reverse_dimSpec (ls_dimensions levelSpec)))
      levels.

Definition single_level (reverse : bool) (g : GroupingSpec) : GroupingLevelSpec :=
  GroupingLevelSpec_init
    (map (fun dimSpec => if reverse then reverse_dimSpec dimSpec else dimSpec)
         (GroupingSpec_dimensions g)).

(** [g'] is what [g.reversed()] builds. *)
Definition is_reversed_of (g g' : GroupingSpec) : Prop :=
  GroupingSpec_init (Some (reversed_levels (gs_levels g))) (Some (gs_type g))
                    (derived_keyArgs g)
  = Ok (clear_caches g').

(** [g'] is what [g.singleLevelGrouping({reverse: reverse})] builds. *)
Definition is_single_of (reverse : bool) (g g' : GroupingSpec) : Prop :=
  GroupingSpec_init (Some [single_level reverse g]) (Some (gs_type g))
                    (derived_keyArgs g)
  = Ok (clear_caches g').

Record object_wf (h : heap) (l : loc) (g : GroupingSpec) : Prop := {
  wf_constructed : constructed g;
  wf_reverseGrouping : forall r,
    gs__reverseGrouping g = Some r ->
    (l < r)%nat /\ exists g', h !! r = Some g' /\ is_reversed_of g g';
  wf_singleLevelGrouping : forall cache reverse s,
    gs__singleLevelGrouping g = Some cache ->
    cache !! reverse = Some s ->
    (l < s)%nat /\ exists g', h !! s = Some g' /\ is_single_of reverse g g'
}.

Definition heap_wf (h : heap) : Prop :=
  forall l g, h !! l = Some g -> object_wf h l g.

(** Every object of [h] is still in [h'], up to its cache slots. *)
Definition heap_extends (h h' : heap) : Prop :=
  forall l g, h !! l = Some g ->
              exists g', h' !! l = Some g' /\ clear_caches g' = clear_caches g.

(** *** Parsing *)

(** The [specText] argument: a string, or an array of level texts. *)
Inductive SpecText : Type :=
| SpecString (s : string)
| SpecArray (levels : list string).

Definition specText_truthy (specText : option SpecText) : bool :=
  match specText with
  | None => false
  | Some (SpecString s) => negb (String.eqb s "")
  | Some (SpecArray _) => true
  end.

Definition capture_string (cs : captures) (n : nat) : option string :=
  string_of_list_ascii <$> capture cs n.

(** The callback of [select] in [groupSpec_parseGroupingLevel]. *)
Definition parseDimSpec (type : ComplexType) (dimSpecText : string)
  : result GroupingDimensionSpec :=
  match exec groupSpec_matchDimSpec dimSpecText with
  | None =>
    Err (ArgumentInvalid "groupLevelText" "Invalid grouping level syntax '{0}'."
                         [dimSpecText])
  | Some match_ =>
    let name := default "" (capture_string match_ 1) in
    dimType ← ct_dimensions type name;
    let order := toLowerCase (or_else (capture_string match_ 2) "") in
    let reverse := String.eqb order "desc" in
    Ok (GroupingDimensionSpec_init dimType reverse)
  end.

(** The level texts are strings, so the [def.isString] guard passes;
    the query is enumerated by the level constructor, fragment by
    fragment, and stops at the first error. *)
Definition groupSpec_parseGroupingLevel (groupLevelText : string)
    (type : ComplexType) : result (list GroupingDimensionSpec) :=
  mapM (parseDimSpec type)
       (filter (fun dimSpecText => dimSpecText ≠ "")
               (split (sep_regex "|") groupLevelText)).

Definition GroupingSpec_parse (specText : option SpecText)
    (type : option ComplexType) : M loc :=
  if negb (specText_truthy specText)
  then throw (ArgumentRequired "groupingSpecText")
  else
    match type with
    | None => throw (ArgumentRequired "type")
    | Some type =>
      let levels :=
        match specText with
        | Some (SpecArray levels) => levels
        | Some (SpecString s) => split (sep_regex ",") s
        | None => []
        end in
      let! levelSpecs :=
        lift (mapM (fun levelText =>
                      dimSpecs ← groupSpec_parseGroupingLevel levelText type;
                      Ok (GroupingLevelSpec_init dimSpecs))
                   levels) in
      GroupingSpec_new (Some levelSpecs) (Some type) None
    end.


(** [view(complex)]: [complex.view] is external; it receives the
    dimension names and may throw. *)
Definition GroupingSpec_view {V : Type} (this : loc)
    (complex_view : list string -> result V) : M V :=
  let! names := GroupingSpec_dimensionNames this in
  lift (complex_view names).

(** *** Contracts used by further properties *)

(** The comparer for the opposite order is the comparer with its
    arguments exchanged. *)
Definition reversible (dimType : DimensionType) : Prop :=
  forall reverse x y,
    dt_atomComparer dimType (negb reverse) x y = dt_atomComparer dimType reverse y x.

(** Atoms ranked in order stay in order, and two atoms rank equal only
    when each ranks equal to what lies between them. *)
Definition comparer_transitive (c : AtomComparer) : Prop :=
  forall x y z rxy ryz,
    c x y = Ok rxy -> c y z = Ok ryz -> rxy <= 0 -> ryz <= 0 ->
    exists rxz, c x z = Ok rxz /\ rxz <= 0 /\ (rxz = 0 -> rxy = 0 /\ ryz = 0).

End Model.

Arguments Datum Atom : clear implicits.
Arguments DimensionType Atom : clear implicits.
Arguments ComplexType Atom : clear implicits.
Arguments GroupingDimensionSpec Atom : clear implicits.
Arguments GroupingLevelSpec Atom : clear implicits.
Arguments GroupingSpec Atom : clear implicits.
Arguments AtomComparer Atom : clear implicits.
Arguments JsAtom Atom : clear implicits.
Arguments LevelKey Atom : clear implicits.
Arguments M Atom A : clear implicits.

Abbreviation heap Atom := (list (GroupingSpec Atom)).

(** ** A concrete universe for examples *)

(** Atoms that wrap an integer; the key is its decimal notation. *)
Record ExAtom : Type := { ex_value : Z }.

Definition ex_globalKey (x : ExAtom) : string := pretty (ex_value x).

(** A comparer by wrapped value that dereferences its arguments unless
    they are the same value. *)
Definition ex_comparer (reverse : bool) : AtomComparer ExAtom := fun x y =>
  match x, y with
  | Some a, Some b =>
    Ok (if reverse then Z.sgn (ex_value b - ex_value a)
        else Z.sgn (ex_value a - ex_value b))
  | None, None => Ok 0
  | _, _ => Err (TypeError "atom is undefined")
  end.

Definition ex_dimType (name : string) : DimensionType ExAtom :=
  {| dt_name := name; dt_isDiscrete := true; dt_atomComparer := ex_comparer |}.

(** A dimension type configured with a comparer that always answers 1. *)
Definition ex_constant_dimType (name : string) : DimensionType ExAtom :=
  {| dt_name := name; dt_isDiscrete := true;
     dt_atomComparer := fun _ _ _ => Ok 1 |}.

Definition ex_datum (l : list (string * Z)) : Datum ExAtom :=
  {| atoms := list_to_map (map (fun p => (fst p, {| ex_value := snd p |})) l) |}.

Definition ex_dims : list (GroupingDimensionSpec ExAtom) :=
  [GroupingDimensionSpec_init (ex_dimType "series") false;
   GroupingDimensionSpec_init (ex_dimType "category") true].

Definition ex_constant_dims : list (GroupingDimensionSpec ExAtom) :=
  [GroupingDimensionSpec_init (ex_constant_dimType "series") false].

Definition datum_a : Datum ExAtom := ex_datum [("series", 1); ("category", 5)].
Definition datum_b : Datum ExAtom := ex_datum [("series", 1); ("category", 7)].
Definition datum_c : Datum ExAtom := ex_datum [("series", 2)].

(** A complex type that knows every dimension name. *)
Definition ex_type : ComplexType ExAtom :=
  {| ct_dimensions := fun name => Ok (ex_dimType name) |}.

(** Two levels around a level without dimensions. *)
Definition ex_levels : list (GroupingLevelSpec ExAtom) :=
  [GroupingLevelSpec_init ex_dims;
   GroupingLevelSpec_init [];
   GroupingLevelSpec_init [GroupingDimensionSpec_init (ex_dimType "region") false]].

(** The store after parsing the documented example. *)
Definition ex_heap : heap ExAtom :=
  snd (GroupingSpec_parse (Some (SpecString "series1 asc|series2 desc, category"))
                          (Some ex_type) []).

Definition ex_keyArgs_treePre : option KeyArgs :=
  Some {| ka_flatteningMode := Some "tree-pre";
          ka_flattenRootLabel := None;
          ka_reverse := Some true |}.

(** The documented example, as written: two dimensions with their
    tokens in the first level, one bare dimension in the second. *)
Definition ex_written : list (list written_dim) :=
  [[(list_ascii_of_string "series1", Some (list_ascii_of_string "asc"));
    (list_ascii_of_string "series2", Some (list_ascii_of_string "desc"))];
   [(list_ascii_of_string "category", None)]].


(** A flattening mode asked for without reversal. *)
Definition ex_keyArgs_flat : option KeyArgs :=
  Some {| ka_flatteningMode := Some "tree-pre";
          ka_flattenRootLabel := Some "All";
          ka_reverse := None |}.

(** A complex type that knows the two series dimensions only. *)
Definition ex_series_type : ComplexType ExAtom :=
  {| ct_dimensions := fun name =>
       if bool_decide (name ∈ ["series1"; "series2"])
       then Ok (ex_dimType name)
       else Err (Thrown ("Undefined dimension '" +:+ name +:+ "'.")) |}.

(** A datum with an atom for each dimension of the documented example. *)
Definition datum_series : Datum ExAtom :=
  ex_datum [("series1", 1); ("series2", 2); ("category", 5)].

(** Atoms taken up to sign: the key and the order are those of the
    absolute value, so that different atoms can rank equal. *)
Definition ex_abs_globalKey (x : ExAtom) : string := pretty (Z.abs (ex_value x)).

Definition ex_abs_comparer (reverse : bool) : AtomComparer ExAtom := fun x y =>
  match x, y with
  | Some a, Some b =>
    Ok (if reverse then Z.sgn (Z.abs (ex_value b) - Z.abs (ex_value a))
        else Z.sgn (Z.abs (ex_value a) - Z.abs (ex_value b)))
  | None, None => Ok 0
  | _, _ => Err (TypeError "atom is undefined")
  end.

Definition ex_abs_dimType (name : string) : DimensionType ExAtom :=
  {| dt_name := name; dt_isDiscrete := false; dt_atomComparer := ex_abs_comparer |}.

Definition ex_abs_dims : list (GroupingDimensionSpec ExAtom) :=
  [GroupingDimensionSpec_init (ex_abs_dimType "series") false;
   GroupingDimensionSpec_init (ex_abs_dimType "category") true].

Definition datum_neg : Datum ExAtom := ex_datum [("series", -1); ("category", 5)].

(** The names and order flags of the levels of a specification. *)
Definition shape {Atom : Type} (g : GroupingSpec Atom) : list (list (string * bool)) :=
  map (fun l => map (fun d => (ds_name d, ds_reverse d)) (ls_dimensions l))
      (gs_levels g).



(** ** Properties of grouping levels *)

Section LevelProperties.

Context {Atom : Type}.
Variable globalKey : Atom -> string.

Implicit Types (a b datum : Datum Atom) (d : GroupingDimensionSpec Atom).
Implicit Types (dims : list (GroupingDimensionSpec Atom)).

Lemma compareDatums_comparer d a b :
  GroupingDimensionSpec_compareDatums d a b =
  ds_comparer d (atoms a !! ds_name d) (atoms b !! ds_name d).
Proof.
  unfold GroupingDimensionSpec_compareDatums.
  destruct (ds_comparer d _ _) as [r|e]; simpl; [|reflexivity].
  destruct (Z.eqb_spec r 0) as [->|]; reflexivity.
Qed.

Lemma compare_loop_lex dims a b n i :
  (n + i = length dims)%nat ->
  compare_loop (GroupingLevelSpec_init dims) a b n i = lex_compare (drop i dims) a b.
Proof.
  revert i. induction n as [|n IH]; intros i Hn; simpl.
  - rewrite drop_ge by lia. reflexivity.
  - destruct (dims !! i) as [d|] eqn:Hd.
    + rewrite (drop_S _ _ _ Hd). simpl.
      destruct (GroupingDimensionSpec_compareDatums d a b) as [r|e]; simpl; [|reflexivity].
      destruct (negb (r =? 0)); [reflexivity|]. apply IH. lia.
    + apply lookup_ge_None in Hd. lia.
Qed.

Lemma compare_lex dims a b :
  GroupingLevelSpec_compare (GroupingLevelSpec_init dims) a b = lex_compare dims a b.
Proof.
  unfold GroupingLevelSpec_compare. simpl.
  rewrite compare_loop_lex by lia. reflexivity.
Qed.

Lemma lex_compare_decided dims a b i d r :
  dims !! i = Some d ->
  GroupingDimensionSpec_compareDatums d a b = Ok r -> r <> 0 ->
  (forall j d', (j < i)%nat -> dims !! j = Some d' ->
                GroupingDimensionSpec_compareDatums d' a b = Ok 0) ->
  lex_compare dims a b = Ok r.
Proof.
  revert i. induction dims as [|d0 dims IH]; intros i Hd Hr Hnz Hties.
  - discriminate.
  - destruct i as [|i]; simpl in *.
    + injection Hd as ->. rewrite Hr. simpl.
      destruct (Z.eqb_spec r 0); [contradiction|reflexivity].
    + rewrite (Hties 0%nat d0) by (lia || reflexivity). simpl.
      apply (IH i); try assumption.
      intros j d' Hj Hd'. apply (Hties (S j)); [lia|assumption].
Qed.

Lemma lex_compare_ties dims a b :
  Forall (fun d => GroupingDimensionSpec_compareDatums d a b = Ok 0) dims ->
  lex_compare dims a b = Ok 0.
Proof.
  induction 1 as [|d dims Hd _ IH]; simpl; [reflexivity|].
  rewrite Hd. simpl. exact IH.
Qed.

(** C1: [compare(a, b)] returns the result of the first dimension, in
    the level's dimension order, whose [compareDatums(a, b)] is not
    zero, and returns 0 when every dimension's [compareDatums(a, b)] is
    zero: a strict lexicographic composite comparator. *)
Theorem compare_first_nonzero dims a b :
  (forall i d r,
      dims !! i = Some d ->
      GroupingDimensionSpec_compareDatums d a b = Ok r -> r <> 0 ->
      (forall j d', (j < i)%nat -> dims !! j = Some d' ->
                    GroupingDimensionSpec_compareDatums d' a b = Ok 0) ->
      GroupingLevelSpec_compare (GroupingLevelSpec_init dims) a b = Ok r)
  /\ (Forall (fun d => GroupingDimensionSpec_compareDatums d a b = Ok 0) dims ->
      GroupingLevelSpec_compare (GroupingLevelSpec_init dims) a b = Ok 0).
Proof.
  split.
  - intros i d r Hd Hr Hnz Hties. rewrite compare_lex.
    exact (lex_compare_decided dims a b i d r Hd Hr Hnz Hties).
  - intros Hties. rewrite compare_lex. exact (lex_compare_ties dims a b Hties).
Qed.

Lemma lex_compare_antisymmetric dims a b :
  Forall (fun d => comparer_antisymmetric (ds_comparer d)) dims ->
  lex_compare dims a b = Z.opp <$> lex_compare dims b a.
Proof.
  induction 1 as [|d dims [Hanti _] _ IH]; simpl; [reflexivity|].
  rewrite !compareDatums_comparer, Hanti.
  destruct (ds_comparer d (atoms b !! ds_name d) (atoms a !! ds_name d)) as [r|e];
    simpl; [|reflexivity].
  destruct (Z.eqb_spec r 0) as [->|Hr]; simpl; [exact IH|].
  destruct (Z.eqb_spec (- r) 0); [lia|reflexivity].
Qed.

Lemma lex_compare_reflexive dims a :
  Forall (fun d => comparer_antisymmetric (ds_comparer d)) dims ->
  lex_compare dims a a = Ok 0.
Proof.
  induction 1 as [|d dims [_ Hrefl] _ IH]; simpl; [reflexivity|].
  rewrite compareDatums_comparer, Hrefl. simpl. exact IH.
Qed.

(** C7, amended: when the atom comparer of every dimension of the level
    is antisymmetric and returns 0 on identical arguments,
    [compare(a, b) = -compare(b, a)] (a thrown error is mirrored) and
    [compare(a, a) = 0]. *)
Theorem compare_antisymmetric dims a b :
  Forall (fun d => comparer_antisymmetric (ds_comparer d)) dims ->
  GroupingLevelSpec_compare (GroupingLevelSpec_init dims) a b =
    Z.opp <$> GroupingLevelSpec_compare (GroupingLevelSpec_init dims) b a
  /\ GroupingLevelSpec_compare (GroupingLevelSpec_init dims) a a = Ok 0.
Proof.
  intros H. rewrite !compare_lex. split.
  - exact (lex_compare_antisymmetric dims a b H).
  - exact (lex_compare_reflexive dims a H).
Qed.

(** *** Keys *)

Lemma level_atoms_cons d dims datum :
  level_atoms (d :: dims) datum =
  x ← atoms datum !! ds_name d; xs ← level_atoms dims datum; Some (x :: xs).
Proof. reflexivity. Qed.

Lemma key_loop_Some dims datum n i keys ats xs :
  (n + i = length dims)%nat ->
  level_atoms (drop i dims) datum = Some xs ->
  key_loop globalKey (GroupingLevelSpec_init dims) datum n i keys ats =
  Ok (keys ++ map globalKey xs, ats ++ xs).
Proof.
  revert i keys ats xs. induction n as [|n IH]; intros i keys ats xs Hn Hxs; simpl.
  - rewrite drop_ge in Hxs by lia. injection Hxs as <-.
    simpl. rewrite !app_nil_r. reflexivity.
  - destruct (dims !! i) as [d|] eqn:Hd.
    + rewrite (drop_S _ _ _ Hd), level_atoms_cons in Hxs.
      destruct (atoms datum !! ds_name d) as [x|]; [|discriminate].
      simpl in Hxs.
      destruct (level_atoms (drop (S i) dims) datum) as [xs'|] eqn:Hxs';
        [|discriminate].
      injection Hxs as <-.
      rewrite (IH (S i) _ _ xs') by (lia || assumption).
      simpl. rewrite <- !app_assoc. reflexivity.
    + apply lookup_ge_None in Hd. lia.
Qed.

Lemma key_loop_None dims datum n i keys ats :
  (n + i = length dims)%nat ->
  level_atoms (drop i dims) datum = None ->
  key_loop globalKey (GroupingLevelSpec_init dims) datum n i keys ats =
  Err (TypeError "atom is undefined").
Proof.
  revert i keys ats. induction n as [|n IH]; intros i keys ats Hn Hxs; simpl.
  - rewrite drop_ge in Hxs by lia. discriminate.
  - destruct (dims !! i) as [d|] eqn:Hd.
    + rewrite (drop_S _ _ _ Hd), level_atoms_cons in Hxs.
      destruct (atoms datum !! ds_name d) as [x|]; [|reflexivity].
      simpl in Hxs. apply IH; [lia|].
      destruct (level_atoms (drop (S i) dims) datum); [discriminate|reflexivity].
    + apply lookup_ge_None in Hd. lia.
Qed.

Lemma key_Some dims datum xs :
  level_atoms dims datum = Some xs ->
  GroupingLevelSpec_key globalKey (GroupingLevelSpec_init dims) datum =
  Ok {| key := join "," (map globalKey xs); key_atoms := xs |}.
Proof.
  intros Hxs. unfold GroupingLevelSpec_key. simpl.
  rewrite (key_loop_Some dims datum _ 0 [] [] xs) by (lia || assumption).
  reflexivity.
Qed.

Lemma key_None dims datum :
  level_atoms dims datum = None ->
  GroupingLevelSpec_key globalKey (GroupingLevelSpec_init dims) datum =
  Err (TypeError "atom is undefined").
Proof.
  intros Hxs. unfold GroupingLevelSpec_key. simpl.
  rewrite (key_loop_None dims datum _ 0 [] []) by (lia || assumption).
  reflexivity.
Qed.

Lemma has_atoms_level_atoms dims datum :
  has_atoms dims datum <-> is_Some (level_atoms dims datum).
Proof.
  unfold has_atoms, level_atoms. rewrite mapM_is_Some. reflexivity.
Qed.

Lemma key_Ok_level_atoms dims datum k :
  GroupingLevelSpec_key globalKey (GroupingLevelSpec_init dims) datum = Ok k ->
  exists xs, level_atoms dims datum = Some xs
             /\ k = {| key := join "," (map globalKey xs); key_atoms := xs |}.
Proof.
  intros Hk. destruct (level_atoms dims datum) as [xs|] eqn:Hxs.
  - exists xs. split; [reflexivity|].
    rewrite (key_Some dims datum xs Hxs) in Hk. injection Hk as <-. reflexivity.
  - rewrite (key_None dims datum Hxs) in Hk. discriminate.
Qed.

Lemma lex_compare_zero_keys dims a b xs ys :
  Forall (fun d => key_faithful globalKey (ds_comparer d)) dims ->
  lex_compare dims a b = Ok 0 ->
  level_atoms dims a = Some xs ->
  level_atoms dims b = Some ys ->
  map globalKey xs = map globalKey ys.
Proof.
  intros Hf. revert xs ys.
  induction Hf as [|d dims Hd _ IH]; intros xs ys Hcmp Hxs Hys.
  - injection Hxs as <-. injection Hys as <-. reflexivity.
  - rewrite level_atoms_cons in Hxs, Hys. simpl in Hcmp.
    rewrite compareDatums_comparer in Hcmp.
    destruct (atoms a !! ds_name d) as [x|]; [|discriminate].
    destruct (atoms b !! ds_name d) as [y|]; [|discriminate].
    simpl in Hxs, Hys.
    destruct (level_atoms dims a) as [xs'|]; [|discriminate].
    destruct (level_atoms dims b) as [ys'|]; [|discriminate].
    injection Hxs as <-. injection Hys as <-.
    destruct (ds_comparer d (Some x) (Some y)) as [r|e] eqn:Hr; [|discriminate].
    simpl in Hcmp. destruct (Z.eqb_spec r 0) as [->|Hnz]; simpl in Hcmp.
    + simpl. rewrite (Hd x y Hr), (IH xs' ys' Hcmp eq_refl eq_refl). reflexivity.
    + injection Hcmp as ->. contradiction.
Qed.

(** C2: [key(d)] returns the comma-joined [globalKey()] strings of the
    atoms of [d] for the level's dimensions, in dimension order,
    together with those atoms in the same order; consequently, when the
    [globalKey()] of every dimension is a faithful equality witness for
    its atom comparer, two datums with [compare(a, b) = 0] have equal
    [key(a).key] and [key(b).key]. *)
Theorem key_consistent_with_compare dims a b :
  (forall xs,
      level_atoms dims a = Some xs ->
      GroupingLevelSpec_key globalKey (GroupingLevelSpec_init dims) a =
      Ok {| key := join "," (map globalKey xs); key_atoms := xs |})
  /\ (Forall (fun d => key_faithful globalKey (ds_comparer d)) dims ->
      GroupingLevelSpec_compare (GroupingLevelSpec_init dims) a b = Ok 0 ->
      forall ka kb,
        GroupingLevelSpec_key globalKey (GroupingLevelSpec_init dims) a = Ok ka ->
        GroupingLevelSpec_key globalKey (GroupingLevelSpec_init dims) b = Ok kb ->
        key ka = key kb).
Proof.
  split.
  - intros xs Hxs. exact (key_Some dims a xs Hxs).
  - intros Hf Hcmp ka kb Hka Hkb. rewrite compare_lex in Hcmp.
    destruct (key_Ok_level_atoms dims a ka Hka) as (xs & Hxs & ->).
    destruct (key_Ok_level_atoms dims b kb Hkb) as (ys & Hys & ->).
    simpl. rewrite (lex_compare_zero_keys dims a b xs ys Hf Hcmp Hxs Hys).
    reflexivity.
Qed.

Lemma lex_compare_total dims a b :
  Forall (fun d => comparer_total (ds_comparer d)) dims ->
  has_atoms dims a -> has_atoms dims b ->
  exists z, lex_compare dims a b = Ok z.
Proof.
  intros Ht Ha Hb. induction Ht as [|d dims Hd _ IH]; simpl.
  - exists 0. reflexivity.
  - apply Forall_cons in Ha as [[x Hx] Ha]. apply Forall_cons in Hb as [[y Hy] Hb].
    rewrite compareDatums_comparer, Hx, Hy.
    destruct (Hd x y) as [r ->]. simpl.
    destruct (negb (r =? 0)); [exists r; reflexivity|exact (IH Ha Hb)].
Qed.

Lemma lex_compare_prefix prefix d rest a b r :
  Forall (fun d' => GroupingDimensionSpec_compareDatums d' a b = Ok 0) prefix ->
  GroupingDimensionSpec_compareDatums d a b = Ok r -> r <> 0 ->
  lex_compare (prefix ++ d :: rest) a b = Ok r.
Proof.
  intros Hties Hr Hnz. induction Hties as [|d' prefix Hd' _ IH]; simpl.
  - rewrite Hr. simpl. destruct (Z.eqb_spec r 0); [contradiction|reflexivity].
  - rewrite Hd'. simpl. exact IH.
Qed.

(** C10, amended: [key(d)] evaluates without error exactly when [d] has
    an atom for every one of the level's dimension names; [compare(a, b)]
    evaluates without error when both datums have an atom for every one
    of the level's dimension names and the atom comparers are defined on
    atoms; it also does so as soon as a dimension, after ties, gives a
    result that is not zero, whatever the datums hold for the dimensions
    after it. *)
Theorem key_compare_defined dims a b datum :
  (has_atoms dims datum <->
   exists k, GroupingLevelSpec_key globalKey (GroupingLevelSpec_init dims) datum = Ok k)
  /\ (Forall (fun d => comparer_total (ds_comparer d)) dims ->
      has_atoms dims a -> has_atoms dims b ->
      exists z, GroupingLevelSpec_compare (GroupingLevelSpec_init dims) a b = Ok z)
  /\ (forall prefix d rest r,
        dims = prefix ++ d :: rest ->
        Forall (fun d' => GroupingDimensionSpec_compareDatums d' a b = Ok 0) prefix ->
        GroupingDimensionSpec_compareDatums d a b = Ok r -> r <> 0 ->
        GroupingLevelSpec_compare (GroupingLevelSpec_init dims) a b = Ok r).
Proof.
  split; [|split].
  - rewrite has_atoms_level_atoms. split.
    + intros [xs Hxs]. eexists. exact (key_Some dims datum xs Hxs).
    + intros [k Hk]. destruct (key_Ok_level_atoms dims datum k Hk) as (xs & Hxs & _).
      exists xs. exact Hxs.
  - intros Ht Ha Hb. rewrite compare_lex. exact (lex_compare_total dims a b Ht Ha Hb).
  - intros prefix d rest r -> Hties Hr Hnz. rewrite compare_lex.
    exact (lex_compare_prefix prefix d rest a b r Hties Hr Hnz).
Qed.

End LevelProperties.

(** ** Properties of the constructor *)

Section ConstructorProperties.

Context {Atom : Type}.

Implicit Types (g : GroupingSpec Atom) (l : GroupingLevelSpec Atom).
Implicit Types (levels : list (GroupingLevelSpec Atom)).

Lemma fold_left_push {A : Type} (f : A -> string) (xs : list A) (acc : list string) :
  fold_left (fun ids x => ids ++ [f x]) xs acc = acc ++ map f xs.
Proof.
  revert acc. induction xs as [|x xs IH]; intros acc; simpl.
  - rewrite app_nil_r. reflexivity.
  - rewrite IH, <- app_assoc. reflexivity.
Qed.

Lemma level_id (dims : list (GroupingDimensionSpec Atom)) :
  ls_id (GroupingLevelSpec_init dims) = join "," (map ds_id dims).
Proof. simpl. rewrite fold_left_push. reflexivity. Qed.

Lemma fold_init_select levels ids hc :
  fold_left init_select levels (ids, hc) =
  (ids ++ map ls_id levels,
   hc || existsb (fun l => (1 <? length (ls_dimensions l))%nat) levels).
Proof.
  revert ids hc. induction levels as [|l levels IH]; intros ids hc; simpl.
  - rewrite app_nil_r, orb_false_r. reflexivity.
  - rewrite IH, <- app_assoc. simpl. f_equal.
    destruct hc, (1 <? length (ls_dimensions l))%nat; reflexivity.
Qed.

Lemma or_else_default (o : option string) : or_else o "" = default "" o.
Proof.
  destruct o as [s|]; simpl; [|reflexivity].
  destruct (String.eqb_spec s ""); simpl; congruence.
Qed.

(** The constructor, with its single pass written out. *)
Lemma init_unfold (given : list (GroupingLevelSpec Atom)) (type : ComplexType Atom)
    (keyArgs : option KeyArgs) :
  let levels := filter (fun l => (0 < length (ls_dimensions l))%nat) given in
  let composite := existsb (fun l => (1 <? length (ls_dimensions l))%nat) levels in
  let mode := if truthy (def_get keyArgs ka_flatteningMode)
              then def_get keyArgs ka_flatteningMode else None in
  let label := or_else (def_get keyArgs ka_flattenRootLabel) "" in
  GroupingSpec_init (Some given) (Some type) keyArgs =
  if (length levels =? 0)%nat
  then Err (ArgumentInvalid "levelSpecs" "Must have at least one element." [])
  else Ok {| gs_type := type;
             gs_hasCompositeLevels := composite;
             gs_levels := levels;
             gs_depth := length levels;
             gs_isSingleLevel := (length levels =? 1)%nat;
             gs_isSingleDimension := (length levels =? 1)%nat && negb composite;
             gs_firstDimension :=
               if (0 <? length levels)%nat
               then levels !! 0%nat ≫= fun l => ls_dimensions l !! 0%nat
               else None;
             gs_flatteningMode := mode;
             gs_flattenRootLabel := label;
             gs_id := or_else mode "" +:+ "##" +:+ label +:+ "##" +:+
                      join "||" (map ls_id levels);
             gs__dimNames := None;
             gs__singleLevelGrouping := None;
             gs__reverseGrouping := None |}.
Proof.
  intros levels composite mode label. unfold GroupingSpec_init.
  fold levels. rewrite fold_init_select. simpl. reflexivity.
Qed.

Lemma existsb_composite levels :
  existsb (fun l => (1 <? length (ls_dimensions l))%nat) levels = true <->
  Exists (fun l => (1 < length (ls_dimensions l))%nat) levels.
Proof.
  induction levels as [|l levels IH]; simpl.
  - split; [discriminate|]. intros H. inversion H.
  - rewrite orb_true_iff, Exists_cons, IH, Nat.ltb_lt. reflexivity.
Qed.

Lemma filter_head_dimension (given : list (GroupingLevelSpec Atom)) :
  let levels := filter (fun l => (0 < length (ls_dimensions l))%nat) given in
  levels <> [] ->
  exists l0 d0, levels !! 0%nat = Some l0 /\ ls_dimensions l0 !! 0%nat = Some d0.
Proof.
  intros levels Hne. destruct levels as [|l0 rest] eqn:Hl; [contradiction|].
  assert (Hin : l0 ∈ filter (fun l => (0 < length (ls_dimensions l))%nat) given).
  { fold levels. rewrite Hl. apply list_elem_of_here. }
  apply list_elem_of_filter in Hin as [Hpos _].
  destruct (ls_dimensions l0) as [|d0 ds] eqn:Hd; simpl in Hpos; [lia|].
  exists l0, d0. rewrite Hd. split; reflexivity.
Qed.

(** C4: for every successfully constructed GroupingSpec, levels with
    zero dimensions are dropped; [depth] is the number of retained
    levels; [isSingleLevel] holds iff [depth] is 1; [hasCompositeLevels]
    holds iff some retained level has more than one dimension;
    [isSingleDimension] holds iff [isSingleLevel] and not
    [hasCompositeLevels]; [firstDimension] is the first dimension of the
    first level, never null; and [id] is the flattening mode (nothing
    when null), ["##"], the root label, ["##"] and the retained level
    ids joined by ["||"], where a level id is its dimension ids joined
    by [","] and a dimension id is its name, [":"] and ["0"] if reversed
    else ["1"]. *)
Theorem init_invariants (levelSpecs : option (list (GroupingLevelSpec Atom)))
    (complexType : option (ComplexType Atom)) (keyArgs : option KeyArgs) g :
  GroupingSpec_init levelSpecs complexType keyArgs = Ok g ->
  (exists given,
      levelSpecs = Some given
      /\ gs_levels g = filter (fun l => (0 < length (ls_dimensions l))%nat) given)
  /\ gs_depth g = length (gs_levels g)
  /\ (gs_isSingleLevel g = true <-> gs_depth g = 1%nat)
  /\ (gs_hasCompositeLevels g = true <->
      Exists (fun l => (1 < length (ls_dimensions l))%nat) (gs_levels g))
  /\ (gs_isSingleDimension g = true <->
      gs_isSingleLevel g = true /\ gs_hasCompositeLevels g = false)
  /\ (exists l0 d0,
        gs_levels g !! 0%nat = Some l0
        /\ ls_dimensions l0 !! 0%nat = Some d0
        /\ gs_firstDimension g = Some d0)
  /\ gs_id g = default "" (gs_flatteningMode g) +:+ "##" +:+
               gs_flattenRootLabel g +:+ "##" +:+
               join "||" (map ls_id (gs_levels g))
  /\ (forall dims : list (GroupingDimensionSpec Atom),
        ls_id (GroupingLevelSpec_init dims) = join "," (map ds_id dims))
  /\ (forall (t : DimensionType Atom) (r : bool),
        ds_id (GroupingDimensionSpec_init t r) =
        dt_name t +:+ ":" +:+ (if r then "0" else "1")).
Proof.
  intros H.
  destruct levelSpecs as [given|]; [|discriminate].
  destruct complexType as [type|]; [|discriminate].
  rewrite init_unfold in H. cbv zeta in H.
  pose proof (filter_head_dimension given) as Hhead. cbv zeta in Hhead.
  set (levels := filter (fun l => (0 < length (ls_dimensions l))%nat) given) in *.
  destruct (Nat.eqb_spec (length levels) 0) as [|Hlen]; [discriminate|].
  injection H as <-. simpl.
  assert (Hne : levels <> []) by (intros E; rewrite E in Hlen; simpl in Hlen; lia).
  split; [exists given; split; reflexivity|].
  split; [reflexivity|].
  split; [apply Nat.eqb_eq|].
  split.
  { apply existsb_composite. }
  split.
  { rewrite andb_true_iff, negb_true_iff. reflexivity. }
  split.
  { destruct (Hhead Hne) as (l0 & d0 & Hl0 & Hd0). exists l0, d0.
    split; [exact Hl0|]. split; [exact Hd0|].
    destruct (Nat.ltb_spec 0 (length levels)) as [_|Hle]; [|lia].
    rewrite Hl0. simpl. exact Hd0. }
  split.
  { rewrite or_else_default. reflexivity. }
  split; [exact level_id|].
  intros t r. reflexivity.
Qed.

End ConstructorProperties.

(** ** The store invariant *)

Section StoreProperties.

Context {Atom : Type}.

Implicit Types (g : GroupingSpec Atom) (h : heap Atom) (l r : loc).
Implicit Types (levels : list (GroupingLevelSpec Atom)).
Implicit Types (d : GroupingDimensionSpec Atom).

Abbreviation has_dimensions := (fun l : GroupingLevelSpec Atom => (0 < length (ls_dimensions l))%nat).

Lemma filter_all {A : Type} (P : A -> Prop) `{forall x, Decision (P x)} (xs : list A) :
  Forall P xs -> filter P xs = xs.
Proof.
  induction 1 as [|x xs Hx _ IH]; [reflexivity|].
  rewrite filter_cons. destruct (decide (P x)); [|contradiction].
  rewrite IH. reflexivity.
Qed.

Lemma Forall_filter_self {A : Type} (P : A -> Prop) `{forall x, Decision (P x)} (xs : list A) :
  Forall P (filter P xs).
Proof.
  apply Forall_forall. intros x Hx. apply list_elem_of_filter in Hx as [Hx _]. exact Hx.
Qed.

(** A constructor call on levels that all have dimensions keeps them all. *)
Lemma init_all_retained levels (type : ComplexType Atom) (keyArgs : option KeyArgs) :
  levels <> [] -> Forall has_dimensions levels ->
  exists g,
    GroupingSpec_init (Some levels) (Some type) keyArgs = Ok g
    /\ gs_levels g = levels
    /\ gs_type g = type
    /\ gs_flatteningMode g =
       (if truthy (def_get keyArgs ka_flatteningMode)
        then def_get keyArgs ka_flatteningMode else None)
    /\ gs_flattenRootLabel g = or_else (def_get keyArgs ka_flattenRootLabel) ""
    /\ clear_caches g = g.
Proof.
  intros Hne Hall. rewrite init_unfold. cbv zeta.
  rewrite (filter_all _ levels Hall).
  destruct (Nat.eqb_spec (length levels) 0) as [Hlen|_].
  - destruct levels; [contradiction|discriminate].
  - eexists. split; [reflexivity|]. simpl. repeat split.
Qed.

Lemma init_Ok_inv (given : list (GroupingLevelSpec Atom)) (type : ComplexType Atom)
    (keyArgs : option KeyArgs) g :
  GroupingSpec_init (Some given) (Some type) keyArgs = Ok g ->
  gs_levels g = filter has_dimensions given
  /\ gs_levels g <> []
  /\ gs_type g = type
  /\ gs_flatteningMode g =
     (if truthy (def_get keyArgs ka_flatteningMode)
      then def_get keyArgs ka_flatteningMode else None)
  /\ gs_flattenRootLabel g = or_else (def_get keyArgs ka_flattenRootLabel) ""
  /\ gs_isSingleLevel g = (length (gs_levels g) =? 1)%nat
  /\ clear_caches g = g.
Proof.
  rewrite init_unfold. cbv zeta.
  destruct (Nat.eqb_spec (length (filter has_dimensions given)) 0) as [|Hlen];
    [discriminate|].
  intros [= <-]. simpl. repeat split.
  intros E. rewrite E in Hlen. simpl in Hlen. lia.
Qed.

Lemma constructed_levels g :
  constructed g ->
  gs_levels g <> [] /\ Forall has_dimensions (gs_levels g)
  /\ Forall levelSpec_wf (gs_levels g)
  /\ gs_isSingleLevel g = (length (gs_levels g) =? 1)%nat
  /\ (if truthy (gs_flatteningMode g) then gs_flatteningMode g else None)
     = gs_flatteningMode g.
Proof.
  intros [Hwf (given & keyArgs & Hinit)].
  apply init_Ok_inv in Hinit as (Hlev & Hne & _ & Hmode & _ & Hsingle & _).
  simpl in *. repeat split; try assumption.
  - rewrite Hlev. apply Forall_filter_self.
  - rewrite Hmode. destruct (truthy (def_get keyArgs ka_flatteningMode)) eqn:Ht.
    + rewrite Ht. reflexivity.
    + reflexivity.
Qed.

(** *** Derived levels *)

Lemma reverse_dimSpec_wf d : dimSpec_wf (reverse_dimSpec d).
Proof. reflexivity. Qed.

Lemma reverse_dimSpec_involutive d : dimSpec_wf d -> reverse_dimSpec (reverse_dimSpec d) = d.
Proof.
  intros Hd. unfold reverse_dimSpec at 1. simpl.
  rewrite negb_involutive. symmetry. exact Hd.
Qed.

Lemma init_levelSpec_wf (dims : list (GroupingDimensionSpec Atom)) :
  Forall dimSpec_wf dims -> levelSpec_wf (GroupingLevelSpec_init dims).
Proof. intros Hd. split; [reflexivity|exact Hd]. Qed.

Lemma reversed_levels_wf levels : Forall levelSpec_wf (reversed_levels levels).
Proof.
  apply Forall_forall. intros l Hl.
  apply list_elem_of_fmap in Hl as (l0 & -> & _).
  apply init_levelSpec_wf, Forall_forall. intros d Hd.
  apply list_elem_of_fmap in Hd as (d0 & -> & _). apply reverse_dimSpec_wf.
Qed.

Lemma reversed_levels_dimensions levels :
  Forall has_dimensions levels -> Forall has_dimensions (reversed_levels levels).
Proof.
  intros H. unfold reversed_levels. apply Forall_fmap.
  eapply Forall_impl; [exact H|]. intros l Hl. simpl.
  rewrite length_map. exact Hl.
Qed.

Lemma reversed_levels_involutive levels :
  Forall levelSpec_wf levels -> reversed_levels (reversed_levels levels) = levels.
Proof.
  induction 1 as [|l levels [Hl Hd] _ IH]; [reflexivity|].
  simpl. f_equal; [|exact IH].
  rewrite Hl at 2. f_equal. rewrite map_map.
  clear Hl. induction Hd as [|d ds Hd _ IHd]; [reflexivity|].
  simpl. rewrite (reverse_dimSpec_involutive d Hd), IHd. reflexivity.
Qed.

Lemma dimensions_nonempty g :
  gs_levels g <> [] -> Forall has_dimensions (gs_levels g) ->
  GroupingSpec_dimensions g <> [].
Proof.
  unfold GroupingSpec_dimensions. intros Hne Hall.
  destruct (gs_levels g) as [|l levels]; [contradiction|].
  apply Forall_cons in Hall as [Hl _]. simpl.
  destruct (ls_dimensions l); simpl in *; [lia|discriminate].
Qed.

Lemma dimensions_wf g :
  Forall levelSpec_wf (gs_levels g) -> Forall dimSpec_wf (GroupingSpec_dimensions g).
Proof.
  unfold GroupingSpec_dimensions. intros H.
  induction H as [|l levels [_ Hd] _ IH]; simpl; [constructor|].
  apply Forall_app. split; assumption.
Qed.

Lemma single_level_wf reverse g :
  Forall levelSpec_wf (gs_levels g) -> levelSpec_wf (single_level reverse g).
Proof.
  intros H. apply init_levelSpec_wf.
  apply Forall_fmap. eapply Forall_impl; [exact (dimensions_wf g H)|].
  intros d Hd. simpl. destruct reverse; [apply reverse_dimSpec_wf|exact Hd].
Qed.

Lemma single_level_dimensions reverse g :
  gs_levels g <> [] -> Forall has_dimensions (gs_levels g) ->
  has_dimensions (single_level reverse g).
Proof.
  intros Hne Hall. simpl. rewrite length_map.
  pose proof (dimensions_nonempty g Hne Hall) as Hd.
  destruct (GroupingSpec_dimensions g); [contradiction|simpl; lia].
Qed.

(** *** Stores *)

Lemma clear_caches_fields g1 g2 :
  clear_caches g1 = clear_caches g2 ->
  gs_levels g1 = gs_levels g2 /\ gs_type g1 = gs_type g2
  /\ gs_flatteningMode g1 = gs_flatteningMode g2
  /\ gs_isSingleLevel g1 = gs_isSingleLevel g2.
Proof.
  intros E. repeat split.
  - exact (f_equal gs_levels E).
  - exact (f_equal gs_type E).
  - exact (f_equal gs_flatteningMode E).
  - exact (f_equal gs_isSingleLevel E).
Qed.

Lemma constructed_core g1 g2 :
  clear_caches g1 = clear_caches g2 -> constructed g1 -> constructed g2.
Proof.
  intros E [Hwf (given & keyArgs & Hinit)].
  destruct (clear_caches_fields g1 g2 E) as (Hl & Ht & _).
  split; [rewrite <- Hl; exact Hwf|].
  exists given, keyArgs. rewrite <- Ht, <- E. exact Hinit.
Qed.

Lemma is_reversed_of_core g1 g2 g1' g2' :
  clear_caches g1 = clear_caches g2 -> clear_caches g1' = clear_caches g2' ->
  is_reversed_of g1 g1' -> is_reversed_of g2 g2'.
Proof.
  intros E E'. destruct (clear_caches_fields g1 g2 E) as (Hl & Ht & Hm & _).
  unfold is_reversed_of, derived_keyArgs. rewrite Hl, Ht, Hm, E'. exact id.
Qed.

Lemma is_single_of_core reverse g1 g2 g1' g2' :
  clear_caches g1 = clear_caches g2 -> clear_caches g1' = clear_caches g2' ->
  is_single_of reverse g1 g1' -> is_single_of reverse g2 g2'.
Proof.
  intros E E'. destruct (clear_caches_fields g1 g2 E) as (Hl & Ht & Hm & _).
  unfold is_single_of, derived_keyArgs, single_level, GroupingSpec_dimensions.
  rewrite Hl, Ht, Hm, E'. exact id.
Qed.

Lemma heap_extends_refl h : heap_extends h h.
Proof. intros l g Hl. exists g. split; [exact Hl|reflexivity]. Qed.

Lemma heap_extends_trans h1 h2 h3 :
  heap_extends h1 h2 -> heap_extends h2 h3 -> heap_extends h1 h3.
Proof.
  intros H12 H23 l g Hl.
  destruct (H12 l g Hl) as (g2 & Hl2 & E2).
  destruct (H23 l g2 Hl2) as (g3 & Hl3 & E3).
  exists g3. split; [exact Hl3|]. rewrite E3. exact E2.
Qed.

Lemma heap_extends_alloc h g : heap_extends h (h ++ [g]).
Proof.
  intros l g0 Hl. exists g0. split; [|reflexivity].
  apply lookup_app_l_Some. exact Hl.
Qed.

Lemma heap_extends_update h l g g' :
  h !! l = Some g -> clear_caches g' = clear_caches g ->
  heap_extends h (<[l := g']> h).
Proof.
  intros Hl E l0 g0 Hl0. destruct (decide (l = l0)) as [El|Hne].
  - subst l0. exists g'. split.
    + apply list_lookup_insert_eq. exact (lookup_lt_Some _ _ _ Hl).
    + rewrite Hl in Hl0. injection Hl0 as <-. exact E.
  - exists g0. split; [|reflexivity].
    rewrite list_lookup_insert_ne by exact Hne. exact Hl0.
Qed.

Lemma object_wf_mono h h' l g :
  heap_extends h h' -> object_wf h l g -> object_wf h' l g.
Proof.
  intros Hext [Hc Hr Hs]. split.
  - exact Hc.
  - intros r Hcache. destruct (Hr r Hcache) as (Hlt & g' & Hg' & Hrev).
    split; [exact Hlt|].
    destruct (Hext r g' Hg') as (g'' & Hg'' & E).
    exists g''. split; [exact Hg''|].
    exact (is_reversed_of_core g g g' g'' eq_refl (eq_sym E) Hrev).
  - intros cache reverse s Hcache Hlook.
    destruct (Hs cache reverse s Hcache Hlook) as (Hlt & g' & Hg' & Hsingle).
    split; [exact Hlt|].
    destruct (Hext s g' Hg') as (g'' & Hg'' & E).
    exists g''. split; [exact Hg''|].
    exact (is_single_of_core reverse g g g' g'' eq_refl (eq_sym E) Hsingle).
Qed.

Lemma heap_wf_nil : heap_wf ([] : heap Atom).
Proof. intros l g Hl. discriminate. Qed.

Lemma heap_wf_alloc h g :
  heap_wf h -> constructed g -> clear_caches g = g -> heap_wf (h ++ [g]).
Proof.
  intros Hwf Hc Hclear l g0 Hl.
  apply lookup_app_Some in Hl as [Hl|[Hlen Hl]].
  - apply (object_wf_mono h); [apply heap_extends_alloc|exact (Hwf l g0 Hl)].
  - destruct (l - length h)%nat; [|discriminate].
    injection Hl as <-. split; [exact Hc| |].
    + intros r Hr. rewrite <- Hclear in Hr. discriminate.
    + intros cache reverse s Hs. rewrite <- Hclear in Hs. discriminate.
Qed.

Lemma heap_wf_update h l g g' :
  heap_wf h -> h !! l = Some g -> clear_caches g' = clear_caches g ->
  object_wf h l g' -> heap_wf (<[l := g']> h).
Proof.
  intros Hwf Hl E Hobj l0 g0 Hl0.
  pose proof (heap_extends_update h l g g' Hl E) as Hext.
  destruct (decide (l = l0)) as [El|Hne].
  - subst l0.
    rewrite list_lookup_insert_eq in Hl0 by (apply lookup_lt_Some in Hl; exact Hl).
    injection Hl0 as <-. exact (object_wf_mono h _ l g' Hext Hobj).
  - rewrite list_lookup_insert_ne in Hl0 by exact Hne.
    exact (object_wf_mono h _ l0 g0 Hext (Hwf l0 g0 Hl0)).
Qed.

(** *** The methods on a well-formed store *)

Lemma new_spec h levels (type : ComplexType Atom) (keyArgs : option KeyArgs) :
  heap_wf h -> levels <> [] -> Forall has_dimensions levels ->
  Forall levelSpec_wf levels ->
  exists g',
    GroupingSpec_init (Some levels) (Some type) keyArgs = Ok g'
    /\ GroupingSpec_new (Some levels) (Some type) keyArgs h
       = (Ok (length h), h ++ [g'])
    /\ gs_levels g' = levels
    /\ gs_type g' = type
    /\ gs_flatteningMode g' =
       (if truthy (def_get keyArgs ka_flatteningMode)
        then def_get keyArgs ka_flatteningMode else None)
    /\ gs_flattenRootLabel g' = or_else (def_get keyArgs ka_flattenRootLabel) ""
    /\ clear_caches g' = g'
    /\ heap_wf (h ++ [g']).
Proof.
  intros Hwf Hne Hdims Hlev.
  destruct (init_all_retained levels type keyArgs Hne Hdims)
    as (g' & Hinit & Hl & Ht & Hm & Hlab & Hclear).
  exists g'. split; [exact Hinit|]. split.
  { unfold GroupingSpec_new, M_bind, lift, alloc. rewrite Hinit. reflexivity. }
  repeat (split; [assumption|]).
  apply heap_wf_alloc; [exact Hwf| |exact Hclear].
  split; [rewrite Hl; exact Hlev|].
  exists levels, keyArgs. rewrite Ht, Hclear. exact Hinit.
Qed.

Lemma derived_mode g :
  constructed g ->
  (if truthy (def_get (derived_keyArgs g) ka_flatteningMode)
   then def_get (derived_keyArgs g) ka_flatteningMode else None)
  = gs_flatteningMode g.
Proof.
  intros Hc. destruct (constructed_levels g Hc) as (_ & _ & _ & _ & Hm). exact Hm.
Qed.

Lemma reversed_spec h this g :
  heap_wf h -> h !! this = Some g ->
  exists r h' g',
    GroupingSpec_reversed this h = (Ok r, h')
    /\ h' !! r = Some g'
    /\ is_reversed_of g g'
    /\ (this < r)%nat
    /\ heap_wf h'
    /\ heap_extends h h'.
Proof.
  intros Hwf Hthis. destruct (Hwf this g Hthis) as [Hc Hrev Hsingle].
  unfold GroupingSpec_reversed, M_bind, load. rewrite Hthis.
  destruct (gs__reverseGrouping g) as [r|] eqn:Hcache.
  - destruct (Hrev r eq_refl) as (Hlt & g' & Hg' & Hg).
    exists r, h, g'. split; [reflexivity|].
    repeat (split; [assumption|]). apply heap_extends_refl.
  - destruct (constructed_levels g Hc) as (Hne & Hdims & Hlev & _).
    destruct (new_spec h (reversed_levels (gs_levels g)) (gs_type g)
                       (derived_keyArgs g) Hwf) as
      (g' & Hinit & Hnew & Hl & Ht & Hm & Hlab & Hclear & Hwf').
    { destruct (gs_levels g); [contradiction|discriminate]. }
    { exact (reversed_levels_dimensions _ Hdims). }
    { apply reversed_levels_wf. }
    change (GroupingSpec_new _ _ _ h) with
      (GroupingSpec_new (Some (reversed_levels (gs_levels g))) (Some (gs_type g))
                        (derived_keyArgs g) h).
    rewrite Hnew. unfold update, M_ret.
    pose proof (lookup_lt_Some _ _ _ Hthis) as Hlt.
    rewrite (lookup_app_l_Some _ [g'] _ _ Hthis).
    assert (Hrevg : is_reversed_of g g').
    { unfold is_reversed_of. rewrite Hclear. exact Hinit. }
    exists (length h), (<[this := set__reverseGrouping (length h) g]> (h ++ [g'])), g'.
    split; [reflexivity|]. split.
    { rewrite list_lookup_insert_ne by lia. apply list_lookup_middle. reflexivity. }
    split; [exact Hrevg|]. split; [exact Hlt|]. split.
    + apply (heap_wf_update _ this g); [exact Hwf'| |reflexivity|].
      { apply lookup_app_l_Some. exact Hthis. }
      split.
      * exact (constructed_core g _ eq_refl Hc).
      * intros r [= <-]. split; [exact Hlt|]. exists g'. split.
        { apply list_lookup_middle. reflexivity. }
        { exact (is_reversed_of_core g _ g' g' eq_refl eq_refl Hrevg). }
      * intros cache reverse s Hs Hlook.
        destruct (Hsingle cache reverse s Hs Hlook) as (Hlts & gs' & Hgs' & Hof).
        split; [exact Hlts|]. exists gs'. split.
        { apply lookup_app_l_Some. exact Hgs'. }
        { exact (is_single_of_core reverse g _ gs' gs' eq_refl eq_refl Hof). }
    + eapply heap_extends_trans; [apply (heap_extends_alloc h g')|].
      apply (heap_extends_update _ this g); [|reflexivity].
      apply lookup_app_l_Some. exact Hthis.
Qed.

Lemma is_reversed_of_fields g g' :
  constructed g -> is_reversed_of g g' ->
  gs_levels g' = reversed_levels (gs_levels g)
  /\ gs_type g' = gs_type g
  /\ gs_flatteningMode g' = gs_flatteningMode g
  /\ gs_flattenRootLabel g' = "".
Proof.
  intros Hc Hrev. destruct (constructed_levels g Hc) as (_ & Hdims & _).
  apply init_Ok_inv in Hrev as (Hl & _ & Ht & Hm & Hlab & _).
  rewrite (derived_mode g Hc) in Hm. simpl in Hl, Ht, Hm, Hlab.
  rewrite (filter_all _ _ (reversed_levels_dimensions _ Hdims)) in Hl.
  repeat split; assumption.
Qed.

Lemma is_single_of_fields reverse g g' :
  constructed g -> is_single_of reverse g g' ->
  gs_levels g' = [single_level reverse g]
  /\ gs_type g' = gs_type g
  /\ gs_flatteningMode g' = gs_flatteningMode g
  /\ gs_flattenRootLabel g' = "".
Proof.
  intros Hc Hsingle. destruct (constructed_levels g Hc) as (Hne & Hdims & _).
  apply init_Ok_inv in Hsingle as (Hl & _ & Ht & Hm & Hlab & _).
  rewrite (derived_mode g Hc) in Hm. simpl in Hl, Ht, Hm, Hlab.
  rewrite (filter_all _ [single_level reverse g]) in Hl.
  2:{ constructor; [exact (single_level_dimensions reverse g Hne Hdims)|constructor]. }
  repeat split; assumption.
Qed.

(** C6: for every GroupingSpec [g], [g.reversed().reversed()] is
    comparator-equivalent to [g]: it has as many levels, and level by
    level, for every pair of datums, its [compare] returns what that of
    [g] returns; yet it is not the instance [g]. *)
Theorem reversed_reversed_equivalent h this g :
  heap_wf h -> h !! this = Some g ->
  exists r h1 rr h2 g'',
    GroupingSpec_reversed this h = (Ok r, h1)
    /\ GroupingSpec_reversed r h1 = (Ok rr, h2)
    /\ h2 !! rr = Some g''
    /\ rr <> this
    /\ Forall2 (fun level level'' =>
                  forall a b : Datum Atom,
                    GroupingLevelSpec_compare level'' a b =
                    GroupingLevelSpec_compare level a b)
               (gs_levels g) (gs_levels g'').
Proof.
  intros Hwf Hthis.
  destruct (reversed_spec h this g Hwf Hthis)
    as (r & h1 & g' & Hr & Hg' & Hrev & Hlt & Hwf1 & _).
  destruct (reversed_spec h1 r g' Hwf1 Hg')
    as (rr & h2 & g'' & Hrr & Hg'' & Hrev' & Hlt' & _ & _).
  exists r, h1, rr, h2, g''.
  repeat (split; [assumption|]). split; [lia|].
  destruct (Hwf this g Hthis) as [Hc _ _].
  destruct (Hwf1 r g' Hg') as [Hc' _ _].
  destruct (is_reversed_of_fields g g' Hc Hrev) as (Hl & _).
  destruct (is_reversed_of_fields g' g'' Hc' Hrev') as (Hl' & _).
  destruct (constructed_levels g Hc) as (_ & _ & Hlev & _).
  rewrite Hl', Hl, (reversed_levels_involutive _ Hlev).
  apply Forall_Forall2_diag, Forall_forall. intros level _ a b. reflexivity.
Qed.

(** The second half of [singleLevelGrouping]: the cache object exists,
    and the slot for [reverse] is read and, when empty, filled. *)
Lemma singleLevelGrouping_fill h this g (reverse : bool) (cache : gmap bool loc) :
  heap_wf h -> h !! this = Some g -> gs__singleLevelGrouping g = Some cache ->
  exists s h' g',
    M_bind (load this) (fun g : GroupingSpec Atom =>
      match default ∅ (gs__singleLevelGrouping g) !! reverse with
      | Some singleLevel => M_ret singleLevel
      | None =>
        let dimSpecs :=
          map (fun dimSpec => if reverse then reverse_dimSpec dimSpec else dimSpec)
              (GroupingSpec_dimensions g) in
        let levelSpec := GroupingLevelSpec_init dimSpecs in
        M_bind
          (GroupingSpec_new (Some [levelSpec]) (Some (gs_type g))
             (Some {| ka_flatteningMode := gs_flatteningMode g;
                      ka_flattenRootLabel := None;
                      ka_reverse := None |}))
          (fun singleLevel =>
             M_bind
               (update this (fun g : GroupingSpec Atom =>
                  set__singleLevelGrouping
                    (<[reverse := singleLevel]>
                       (default ∅ (gs__singleLevelGrouping g))) g))
               (fun _ => M_ret singleLevel))
      end) h = (Ok s, h')
    /\ h' !! s = Some g'
    /\ is_single_of reverse g g'
    /\ (this < s)%nat
    /\ heap_wf h'
    /\ heap_extends h h'.
Proof.
  intros Hwf Hthis Hcache. destruct (Hwf this g Hthis) as [Hc Hrev Hsingle].
  unfold M_bind at 1. unfold load. rewrite Hthis, Hcache.
  change (default ∅ (Some cache)) with cache.
  destruct (cache !! reverse) as [s|] eqn:Hslot.
  - destruct (Hsingle cache reverse s Hcache Hslot) as (Hlt & g' & Hg' & Hof).
    exists s, h, g'. split; [reflexivity|].
    repeat (split; [assumption|]). apply heap_extends_refl.
  - destruct (constructed_levels g Hc) as (Hne & Hdims & Hlev & _).
    destruct (new_spec h [single_level reverse g] (gs_type g)
                       (derived_keyArgs g) Hwf) as
      (g' & Hinit & Hnew & Hl & Ht & Hm & Hlab & Hclear & Hwf').
    { discriminate. }
    { constructor; [exact (single_level_dimensions reverse g Hne Hdims)|constructor]. }
    { constructor; [exact (single_level_wf reverse g Hlev)|constructor]. }
    cbv zeta. unfold M_bind.
    change (GroupingSpec_new _ _ _ h) with
      (GroupingSpec_new (Some [single_level reverse g]) (Some (gs_type g))
                        (derived_keyArgs g) h).
    rewrite Hnew. unfold update, M_ret.
    pose proof (lookup_lt_Some _ _ _ Hthis) as Hlt.
    rewrite (lookup_app_l_Some _ [g'] _ _ Hthis), Hcache.
    change (default ∅ (Some cache)) with cache.
    assert (Hof : is_single_of reverse g g').
    { unfold is_single_of. rewrite Hclear. exact Hinit. }
    eexists (length h), _, g'.
    split; [reflexivity|]. split.
    { rewrite list_lookup_insert_ne by lia. apply list_lookup_middle. reflexivity. }
    split; [exact Hof|]. split; [exact Hlt|]. split.
    + apply (heap_wf_update _ this g); [exact Hwf'| |reflexivity|].
      { apply lookup_app_l_Some. exact Hthis. }
      split.
      * exact (constructed_core g _ eq_refl Hc).
      * intros r Hr. destruct (Hrev r Hr) as (Hltr & gr & Hgr & Hofr).
        split; [exact Hltr|]. exists gr. split.
        { apply lookup_app_l_Some. exact Hgr. }
        { exact (is_reversed_of_core g _ gr gr eq_refl eq_refl Hofr). }
      * intros cache' reverse' s [= <-] Hlook.
        destruct (decide (reverse = reverse')) as [Er|Hne'].
        { subst reverse'. rewrite lookup_insert_eq in Hlook. injection Hlook as <-.
          split; [exact Hlt|]. exists g'. split.
          - apply list_lookup_middle. reflexivity.
          - exact (is_single_of_core reverse g _ g' g' eq_refl eq_refl Hof). }
        { rewrite lookup_insert_ne in Hlook by exact Hne'.
          destruct (Hsingle cache reverse' s Hcache Hlook) as (Hlts & gs' & Hgs' & Hofs).
          split; [exact Hlts|]. exists gs'. split.
          - apply lookup_app_l_Some. exact Hgs'.
          - exact (is_single_of_core reverse' g _ gs' gs' eq_refl eq_refl Hofs). }
    + eapply heap_extends_trans; [apply (heap_extends_alloc h g')|].
      apply (heap_extends_update _ this g); [|reflexivity].
      apply lookup_app_l_Some. exact Hthis.
Qed.

Lemma singleLevelGrouping_built h this g (keyArgs : option KeyArgs) :
  heap_wf h -> h !! this = Some g ->
  gs_isSingleLevel g && negb (default false (def_get keyArgs ka_reverse)) = false ->
  exists s h' g',
    GroupingSpec_singleLevelGrouping this keyArgs h = (Ok s, h')
    /\ h' !! s = Some g'
    /\ is_single_of (default false (def_get keyArgs ka_reverse)) g g'
    /\ (this < s)%nat
    /\ heap_wf h'
    /\ heap_extends h h'.
Proof.
  intros Hwf Hthis Hguard. destruct (Hwf this g Hthis) as [Hc Hrev Hsingle].
  unfold GroupingSpec_singleLevelGrouping. cbv zeta.
  set (reverse := default false (def_get keyArgs ka_reverse)) in *.
  unfold M_bind at 1. unfold load at 1. rewrite Hthis, Hguard.
  unfold M_bind at 1.
  destruct (gs__singleLevelGrouping g) as [cache|] eqn:Hcache.
  - unfold M_ret at 1.
    exact (singleLevelGrouping_fill h this g reverse cache Hwf Hthis Hcache).
  - unfold update at 1. rewrite Hthis.
    pose proof (lookup_lt_Some _ _ _ Hthis) as Hlt.
    set (g0 := set__singleLevelGrouping ∅ g).
    assert (Hwf0 : heap_wf (<[this := g0]> h)).
    { apply (heap_wf_update h this g); [exact Hwf|exact Hthis|reflexivity|].
      split.
      - exact (constructed_core g _ eq_refl Hc).
      - exact Hrev.
      - intros cache reverse' s [= <-] Hlook. rewrite lookup_empty in Hlook.
        discriminate. }
    assert (Hthis0 : <[this := g0]> h !! this = Some g0)
      by (apply list_lookup_insert_eq; exact Hlt).
    destruct (singleLevelGrouping_fill _ this g0 reverse ∅ Hwf0 Hthis0 eq_refl)
      as (s & h' & g' & Hrun & Hg' & Hof & Hlts & Hwf' & Hext).
    exists s, h', g'. split; [exact Hrun|].
    split; [exact Hg'|]. split.
    { exact (is_single_of_core reverse g0 g g' g' eq_refl eq_refl Hof). }
    split; [exact Hlts|]. split; [exact Hwf'|].
    eapply heap_extends_trans; [|exact Hext].
    exact (heap_extends_update h this g g0 Hthis eq_refl).
Qed.

(** C8: [singleLevelGrouping] returns the very same instance when the
    specification is already single-level and no reversal is asked for;
    otherwise it returns a GroupingSpec with exactly one level, which
    holds every dimension of every level, in level order then
    within-level order, the order flag of each inverted iff the
    [reverse] option is true, and with the flattening mode of the
    original. *)
Theorem singleLevelGrouping_spec h this g (keyArgs : option KeyArgs) :
  heap_wf h -> h !! this = Some g ->
  let reverse := default false (def_get keyArgs ka_reverse) in
  (gs_isSingleLevel g = true -> reverse = false ->
   GroupingSpec_singleLevelGrouping this keyArgs h = (Ok this, h))
  /\ (gs_isSingleLevel g = false \/ reverse = true ->
      exists s h' g' level,
        GroupingSpec_singleLevelGrouping this keyArgs h = (Ok s, h')
        /\ h' !! s = Some g'
        /\ gs_levels g' = [level]
        /\ Forall2 (fun d d' => ds_type d' = ds_type d
                                /\ ds_reverse d' = xorb reverse (ds_reverse d))
                   (concat (map ls_dimensions (gs_levels g)))
                   (ls_dimensions level)
        /\ gs_flatteningMode g' = gs_flatteningMode g).
Proof.
  intros Hwf Hthis reverse. split.
  - intros Hsingle Hrev. unfold GroupingSpec_singleLevelGrouping. cbv zeta.
    fold reverse. unfold M_bind, load. rewrite Hthis, Hsingle, Hrev. reflexivity.
  - intros Hcase.
    destruct (singleLevelGrouping_built h this g keyArgs Hwf Hthis)
      as (s & h' & g' & Hrun & Hg' & Hof & _).
    { fold reverse. destruct Hcase as [-> | ->]; [reflexivity|apply andb_false_r]. }
    destruct (Hwf this g Hthis) as [Hc _ _].
    destruct (is_single_of_fields _ g g' Hc Hof) as (Hl & _ & Hm & _).
    exists s, h', g', (single_level reverse g).
    repeat (split; [assumption|]). split; [|exact Hm].
    simpl. apply Forall2_fmap_r, Forall_Forall2_diag, Forall_forall.
    intros d _. simpl. destruct reverse; simpl; split; reflexivity.
Qed.

Lemma or_else_Some (x : string) : or_else (Some x) "" = x.
Proof.
  simpl. destruct (String.eqb_spec x ""); simpl; congruence.
Qed.

Lemma singleLevelGrouping_returns h this g (keyArgs : option KeyArgs) :
  heap_wf h -> h !! this = Some g ->
  exists s h' g',
    GroupingSpec_singleLevelGrouping this keyArgs h = (Ok s, h') /\ h' !! s = Some g'.
Proof.
  intros Hwf Hthis.
  destruct (gs_isSingleLevel g && negb (default false (def_get keyArgs ka_reverse)))
    eqn:Hguard.
  - exists this, h, g. split; [|exact Hthis].
    unfold GroupingSpec_singleLevelGrouping. cbv zeta.
    unfold M_bind, load. rewrite Hthis, Hguard. reflexivity.
  - destruct (singleLevelGrouping_built h this g keyArgs Hwf Hthis Hguard)
      as (s & h' & g' & Hrun & Hg' & _).
    exists s, h', g'. split; assumption.
Qed.

(** C9: [ensure(options)]: when the [flatteningMode] option is the
    sentinel ["singleLevel"] it returns [singleLevelGrouping(options)];
    otherwise, when a flattening mode is asked for that differs from
    the current one in mode or in root label, it constructs a new
    GroupingSpec over the same levels and type with the new flattening
    metadata; finally, when the [reverse] option is true, [reversed()]
    is applied to the result, rebuilt or not: normalization comes
    before reversal. In every case a GroupingSpec is returned. *)
Theorem ensure_spec h this g (keyArgs : option KeyArgs) :
  heap_wf h -> h !! this = Some g ->
  let mode := def_get keyArgs ka_flatteningMode in
  let label := or_else (def_get keyArgs ka_flattenRootLabel) "" in
  let reverse := default false (def_get keyArgs ka_reverse) in
  (mode = Some "singleLevel" ->
   GroupingSpec_ensure this keyArgs h =
   GroupingSpec_singleLevelGrouping this keyArgs h)
  /\ (truthy mode = true -> mode <> Some "singleLevel" ->
      gs_flatteningMode g <> mode \/ gs_flattenRootLabel g <> label ->
      exists g1,
        gs_levels g1 = gs_levels g
        /\ gs_type g1 = gs_type g
        /\ gs_flatteningMode g1 = mode
        /\ gs_flattenRootLabel g1 = label
        /\ GroupingSpec_ensure this keyArgs h =
           if reverse then GroupingSpec_reversed (length h) (h ++ [g1])
           else (Ok (length h), h ++ [g1]))
  /\ (truthy mode = false
      \/ (mode <> Some "singleLevel"
          /\ gs_flatteningMode g = mode /\ gs_flattenRootLabel g = label) ->
      GroupingSpec_ensure this keyArgs h =
      if reverse then GroupingSpec_reversed this h else (Ok this, h))
  /\ (exists s h' g',
        GroupingSpec_ensure this keyArgs h = (Ok s, h') /\ h' !! s = Some g').
Proof.
  intros Hwf Hthis mode label reverse.
  destruct (Hwf this g Hthis) as [Hc _ _].
  destruct (constructed_levels g Hc) as (Hne & Hdims & Hlev & _).
  assert (Hsentinel : mode = Some "singleLevel" ->
            GroupingSpec_ensure this keyArgs h =
            GroupingSpec_singleLevelGrouping this keyArgs h).
  { intros Hmode. unfold GroupingSpec_ensure. cbv zeta. fold mode.
    rewrite Hmode. reflexivity. }
  assert (Hrebuild : truthy mode = true -> mode <> Some "singleLevel" ->
            gs_flatteningMode g <> mode \/ gs_flattenRootLabel g <> label ->
            exists g1,
              gs_levels g1 = gs_levels g /\ gs_type g1 = gs_type g
              /\ gs_flatteningMode g1 = mode /\ gs_flattenRootLabel g1 = label
              /\ heap_wf (h ++ [g1])
              /\ GroupingSpec_ensure this keyArgs h =
                 if reverse then GroupingSpec_reversed (length h) (h ++ [g1])
                 else (Ok (length h), h ++ [g1])).
  { intros Htruthy Hnot Hdiff.
    destruct (new_spec h (gs_levels g) (gs_type g)
                (Some {| ka_flatteningMode := mode;
                         ka_flattenRootLabel := Some label;
                         ka_reverse := None |}) Hwf Hne Hdims Hlev)
      as (g1 & _ & Hnew & Hl & Ht & Hm & Hlab & _ & Hwf1).
    change (gs_flatteningMode g1 = if truthy mode then mode else None) in Hm.
    change (gs_flattenRootLabel g1 = or_else (Some label) "") in Hlab.
    rewrite Htruthy in Hm. rewrite or_else_Some in Hlab.
    exists g1. repeat (split; [assumption|]).
    unfold GroupingSpec_ensure. cbv zeta. fold mode label reverse.
    rewrite Htruthy, (bool_decide_eq_false_2 _ Hnot). cbn [andb].
    unfold M_bind at 1. unfold M_bind at 1. unfold load. rewrite Hthis.
    assert (Hguard : bool_decide (gs_flatteningMode g <> mode)
                     || bool_decide (gs_flattenRootLabel g <> label) = true).
    { apply orb_true_iff. destruct Hdiff as [H|H]; [left|right];
        apply bool_decide_eq_true_2; exact H. }
    rewrite Hguard, Hnew. destruct reverse; reflexivity. }
  assert (Hkeep : truthy mode = false
            \/ (mode <> Some "singleLevel"
                /\ gs_flatteningMode g = mode /\ gs_flattenRootLabel g = label) ->
            GroupingSpec_ensure this keyArgs h =
            if reverse then GroupingSpec_reversed this h else (Ok this, h)).
  { intros Hcase. unfold GroupingSpec_ensure. cbv zeta. fold mode label reverse.
    destruct Hcase as [Hfalsy|(Hnot & Hm & Hlab)].
    - rewrite Hfalsy. cbn [andb]. unfold M_bind, M_ret.
      destruct reverse; reflexivity.
    - rewrite (bool_decide_eq_false_2 _ Hnot), andb_false_r.
      destruct (truthy mode); unfold M_bind, M_ret, load.
      + rewrite Hthis.
        rewrite (bool_decide_eq_false_2 (gs_flatteningMode g <> mode)) by tauto.
        rewrite (bool_decide_eq_false_2 (gs_flattenRootLabel g <> label)) by tauto.
        simpl. destruct reverse; reflexivity.
      + destruct reverse; reflexivity. }
  split; [exact Hsentinel|]. split.
  { intros Ht Hn Hd. destruct (Hrebuild Ht Hn Hd) as (g1 & H1 & H2 & H3 & H4 & _ & H5).
    exists g1. repeat (split; [assumption|]). exact H5. }
  split; [exact Hkeep|].
  destruct (decide (mode = Some "singleLevel")) as [Hmode|Hnot].
  { rewrite (Hsentinel Hmode).
    exact (singleLevelGrouping_returns h this g keyArgs Hwf Hthis). }
  assert (Hfinish : forall l0 h0 g0,
            heap_wf h0 -> h0 !! l0 = Some g0 ->
            exists s h' g',
              (if reverse then GroupingSpec_reversed l0 h0 else (Ok l0, h0))
              = (Ok s, h') /\ h' !! s = Some g').
  { intros l0 h0 g0 Hwf0 Hl0. destruct reverse.
    - destruct (reversed_spec h0 l0 g0 Hwf0 Hl0) as (r & h' & g' & Hr & Hg' & _).
      exists r, h', g'. split; assumption.
    - exists l0, h0, g0. split; [reflexivity|exact Hl0]. }
  destruct (truthy mode) eqn:Htruthy.
  - destruct (decide (gs_flatteningMode g = mode)) as [Hm|Hm];
      [destruct (decide (gs_flattenRootLabel g = label)) as [Hlab|Hlab]|].
    + rewrite Hkeep by (right; repeat split; assumption).
      exact (Hfinish this h g Hwf Hthis).
    + destruct (Hrebuild eq_refl Hnot (or_intror Hlab))
        as (g1 & _ & _ & _ & _ & Hwf1 & ->).
      apply (Hfinish (length h) (h ++ [g1]) g1 Hwf1).
      apply list_lookup_middle. reflexivity.
    + destruct (Hrebuild eq_refl Hnot (or_introl Hm))
        as (g1 & _ & _ & _ & _ & Hwf1 & ->).
      apply (Hfinish (length h) (h ++ [g1]) g1 Hwf1).
      apply list_lookup_middle. reflexivity.
  - rewrite Hkeep by (left; reflexivity).
    exact (Hfinish this h g Hwf Hthis).
Qed.

(** *** Every method keeps the store well formed *)

Lemma singleLevelGrouping_wf h this g (keyArgs : option KeyArgs) s h' :
  heap_wf h -> h !! this = Some g ->
  GroupingSpec_singleLevelGrouping this keyArgs h = (Ok s, h') ->
  heap_wf h' /\ is_Some (h' !! s).
Proof.
  intros Hwf Hthis Hrun.
  destruct (gs_isSingleLevel g && negb (default false (def_get keyArgs ka_reverse)))
    eqn:Hguard.
  - unfold GroupingSpec_singleLevelGrouping in Hrun. cbv zeta in Hrun.
    unfold M_bind, load in Hrun. rewrite Hthis, Hguard in Hrun.
    injection Hrun as <- <-. split; [exact Hwf|]. exists g. exact Hthis.
  - destruct (singleLevelGrouping_built h this g keyArgs Hwf Hthis Hguard)
      as (s0 & h0 & g0 & Hrun0 & Hg0 & _ & _ & Hwf0 & _).
    rewrite Hrun0 in Hrun. injection Hrun as <- <-.
    split; [exact Hwf0|]. exists g0. exact Hg0.
Qed.

Lemma reversed_wf h this g s h' :
  heap_wf h -> h !! this = Some g ->
  GroupingSpec_reversed this h = (Ok s, h') ->
  heap_wf h' /\ is_Some (h' !! s).
Proof.
  intros Hwf Hthis Hrun.
  destruct (reversed_spec h this g Hwf Hthis)
    as (s0 & h0 & g0 & Hrun0 & Hg0 & _ & _ & Hwf0 & _).
  rewrite Hrun0 in Hrun. injection Hrun as <- <-.
  split; [exact Hwf0|]. exists g0. exact Hg0.
Qed.

Lemma ensure_wf h this g (keyArgs : option KeyArgs) s h' :
  heap_wf h -> h !! this = Some g ->
  GroupingSpec_ensure this keyArgs h = (Ok s, h') ->
  heap_wf h' /\ is_Some (h' !! s).
Proof.
  intros Hwf Hthis. unfold GroupingSpec_ensure. cbv zeta.
  destruct (truthy (def_get keyArgs ka_flatteningMode)
            && bool_decide (def_get keyArgs ka_flatteningMode = Some "singleLevel")).
  { apply (singleLevelGrouping_wf h this g keyArgs s h' Hwf Hthis). }
  assert (Hfinish : forall l0 h0 g0,
            heap_wf h0 -> h0 !! l0 = Some g0 ->
            (if default false (def_get keyArgs ka_reverse)
             then GroupingSpec_reversed l0 else M_ret l0) h0 = (Ok s, h') ->
            heap_wf h' /\ is_Some (h' !! s)).
  { intros l0 h0 g0 Hwf0 Hl0. destruct (default false (def_get keyArgs ka_reverse)).
    - apply (reversed_wf h0 l0 g0 s h' Hwf0 Hl0).
    - intros [= <- <-]. split; [exact Hwf0|]. exists g0. exact Hl0. }
  unfold M_bind at 1.
  destruct (truthy (def_get keyArgs ka_flatteningMode)).
  - unfold M_bind at 1. unfold load. rewrite Hthis.
    destruct (bool_decide _ || bool_decide _).
    + destruct (Hwf this g Hthis) as [Hc _ _].
      destruct (constructed_levels g Hc) as (Hne & Hdims & Hlev & _).
      destruct (new_spec h (gs_levels g) (gs_type g)
                  (Some {| ka_flatteningMode := def_get keyArgs ka_flatteningMode;
                           ka_flattenRootLabel :=
                             Some (or_else (def_get keyArgs ka_flattenRootLabel) "");
                           ka_reverse := None |}) Hwf Hne Hdims Hlev)
        as (g1 & _ & Hnew & _ & _ & _ & _ & _ & Hwf1).
      rewrite Hnew. apply (Hfinish (length h) (h ++ [g1]) g1 Hwf1).
      apply list_lookup_middle. reflexivity.
    + apply (Hfinish this h g Hwf Hthis).
  - apply (Hfinish this h g Hwf Hthis).
Qed.

Lemma dimensionNames_wf h this g names h' :
  heap_wf h -> h !! this = Some g ->
  GroupingSpec_dimensionNames this h = (Ok names, h') ->
  heap_wf h' /\ heap_extends h h'.
Proof.
  intros Hwf Hthis. unfold GroupingSpec_dimensionNames, M_bind, load.
  rewrite Hthis. destruct (gs__dimNames g).
  - intros [= <- <-]. split; [exact Hwf|apply heap_extends_refl].
  - unfold update, M_ret. rewrite Hthis. intros [= <- <-].
    destruct (Hwf this g Hthis) as [Hc Hrev Hsingle]. split.
    + apply (heap_wf_update h this g); [exact Hwf|exact Hthis|reflexivity|].
      split; [exact (constructed_core g _ eq_refl Hc)|exact Hrev|exact Hsingle].
    + apply (heap_extends_update h this g); [exact Hthis|reflexivity].
Qed.

End StoreProperties.

(** ** Properties of the matcher *)

Section MatcherProperties.

Implicit Types (r : regex) (p : ascii -> bool) (s w rest : text) (cs : captures).

Lemma rep_greedy_sound {R : Type} p pos s (k : nat -> text -> option R) res :
  rep_greedy p pos s k = Some res ->
  exists w rest,
    s = w ++ rest /\ Forall (fun c => p c = true) w
    /\ k (pos + length w)%nat rest = Some res.
Proof.
  revert pos. induction s as [|c s IH]; intros pos H; simpl in H.
  - exists [], []. rewrite Nat.add_0_r. repeat split; [constructor|exact H].
  - destruct (p c) eqn:Hc.
    + destruct (rep_greedy p (S pos) s k) as [res'|] eqn:Hrec.
      * injection H as <-. destruct (IH _ Hrec) as (w & rest & -> & Hw & Hk).
        exists (c :: w), rest. simpl. rewrite Nat.add_succ_r.
        repeat split; [constructor; assumption|exact Hk].
      * exists [], (c :: s). rewrite Nat.add_0_r. repeat split; [constructor|exact H].
    + exists [], (c :: s). rewrite Nat.add_0_r. repeat split; [constructor|exact H].
Qed.

Lemma rep_lazy_sound {R : Type} p pos s (k : nat -> text -> option R) res :
  rep_lazy p pos s k = Some res ->
  exists w rest,
    s = w ++ rest /\ Forall (fun c => p c = true) w
    /\ k (pos + length w)%nat rest = Some res.
Proof.
  revert pos. induction s as [|c s IH]; intros pos H; simpl in H.
  - destruct (k pos []) as [res'|] eqn:Hk; [|discriminate].
    exists [], []. rewrite Nat.add_0_r. repeat split; [constructor|].
    rewrite Hk. exact H.
  - destruct (k pos (c :: s)) as [res'|] eqn:Hk.
    + exists [], (c :: s). rewrite Nat.add_0_r. repeat split; [constructor|].
      rewrite Hk. exact H.
    + destruct (p c) eqn:Hc; [|discriminate].
      destruct (IH _ H) as (w & rest & -> & Hw & Hk').
      exists (c :: w), rest. simpl. rewrite Nat.add_succ_r.
      repeat split; [constructor; assumption|exact Hk'].
Qed.

(** Whatever the matcher accepts is a match. *)
Lemma rmatch_sound {R : Type} r :
  forall pos s cs (k : nat -> text -> captures -> option R) res,
    rmatch r pos s cs k = Some res ->
    exists w rest cs',
      s = w ++ rest /\ matches r pos w rest cs cs'
      /\ k (pos + length w)%nat rest cs' = Some res.
Proof.
  induction r as [p|greedy p|r1 IH1 r2 IH2|r1 IH1 r2 IH2| |n r IH| |];
    intros pos s cs k res H; simpl in H.
  - destruct s as [|c s]; [discriminate|]. destruct (p c) eqn:Hc; [|discriminate].
    exists [c], s, cs. simpl. rewrite Nat.add_1_r.
    repeat split; [constructor; exact Hc|exact H].
  - assert (Hw : exists w rest, s = w ++ rest /\ Forall (fun c => p c = true) w
                                /\ k (pos + length w)%nat rest cs = Some res).
    { destruct greedy; [apply rep_greedy_sound in H|apply rep_lazy_sound in H];
        exact H. }
    destruct Hw as (w & rest & -> & Hw & Hk).
    exists w, rest, cs. repeat split; [constructor; exact Hw|exact Hk].
  - destruct (IH1 _ _ _ _ _ H) as (w1 & rest1 & cs1 & -> & Hm1 & H2).
    destruct (IH2 _ _ _ _ _ H2) as (w2 & rest & cs2 & -> & Hm2 & Hk).
    exists (w1 ++ w2), rest, cs2. rewrite <- app_assoc, length_app, Nat.add_assoc.
    repeat split; [|exact Hk]. econstructor; eassumption.
  - destruct (rmatch r1 pos s cs k) as [res'|] eqn:H1.
    + injection H as <-. destruct (IH1 _ _ _ _ _ H1) as (w & rest & cs' & -> & Hm & Hk).
      exists w, rest, cs'. repeat split; [apply matches_Alt_l; exact Hm|exact Hk].
    + destruct (IH2 _ _ _ _ _ H) as (w & rest & cs' & -> & Hm & Hk).
      exists w, rest, cs'. repeat split; [apply matches_Alt_r; exact Hm|exact Hk].
  - exists [], s, cs. rewrite Nat.add_0_r. repeat split; [constructor|exact H].
  - destruct (IH _ _ _ _ _ H) as (w & rest & cs' & -> & Hm & Hk).
    exists w, rest, ((n, w) :: cs'). repeat split; [constructor; exact Hm|].
    replace (pos + length w - pos)%nat with (length w) in Hk by lia.
    rewrite take_app_length in Hk. exact Hk.
  - destruct (Nat.eqb_spec pos 0) as [->|]; [|discriminate].
    exists [], s, cs. repeat split; [constructor|exact H].
  - destruct s; [|discriminate].
    exists [], [], cs. rewrite Nat.add_0_r. repeat split; [constructor|exact H].
Qed.

Lemma match_at_sound r pos s n cs :
  match_at r pos s = Some (n, cs) ->
  exists w rest, s = w ++ rest /\ n = length w /\ matches r pos w rest [] cs.
Proof.
  unfold match_at. intros H.
  destruct (rmatch_sound r _ _ _ _ _ H) as (w & rest & cs' & -> & Hm & Hk).
  injection Hk as <- <-. exists w, rest. repeat split; [lia|exact Hm].
Qed.

(** *** The dimension pattern *)

Lemma exec_from_Bol r pos s : exec_from (Seq Bol r) (S pos) s = None.
Proof.
  revert pos. induction s as [|c s IH]; intros pos; simpl; [reflexivity|].
  apply IH.
Qed.

Lemma exec_Bol r (s : string) :
  exec (Seq Bol r) s = snd <$> match_at (Seq Bol r) 0 (list_ascii_of_string s).
Proof.
  unfold exec. destruct (list_ascii_of_string s) as [|c cs]; simpl exec_from.
  - destruct (match_at _ _ _); reflexivity.
  - rewrite exec_from_Bol. destruct (match_at _ _ _); reflexivity.
Qed.

Ltac invert_matches :=
  repeat match goal with
  | H : matches (Seq _ _) _ _ _ _ _ |- _ => inversion H; subst; clear H
  | H : matches (Alt _ _) _ _ _ _ _ |- _ => inversion H; subst; clear H
  | H : matches (Cap _ _) _ _ _ _ _ |- _ => inversion H; subst; clear H
  | H : matches (Chr _) _ _ _ _ _ |- _ => inversion H; subst; clear H
  | H : matches (Rep _ _) _ _ _ _ _ |- _ => inversion H; subst; clear H
  | H : matches Empty _ _ _ _ _ |- _ => inversion H; subst; clear H
  | H : matches Bol _ _ _ _ _ |- _ => inversion H; subst; clear H
  | H : matches Eol _ _ _ _ _ |- _ => inversion H; subst; clear H
  end.

Lemma is_char_lower (x c : ascii) :
  is_char true x c = true -> lower c = lower x.
Proof.
  unfold is_char. intros H. apply Ascii.eqb_eq in H. symmetry. exact H.
Qed.

(** Every fragment the pattern accepts is a name, possibly followed by
    white space and a token that reads [asc] or [desc] up to case, with
    white space around. *)
Lemma matchDimSpec_sound (s : string) cs :
  exec groupSpec_matchDimSpec s = Some cs ->
  exists lw name tail,
    list_ascii_of_string s = lw ++ name ++ tail
    /\ Forall (fun c => is_space c = true) lw
    /\ name <> []
    /\ capture cs 1 = Some name
    /\ ((Forall (fun c => is_space c = true) tail /\ capture cs 2 = None)
        \/ exists ws tok tw,
            tail = ws ++ tok ++ tw
            /\ ws <> []
            /\ Forall (fun c => is_space c = true) ws
            /\ Forall (fun c => is_space c = true) tw
            /\ capture cs 2 = Some tok
            /\ (map lower tok = list_ascii_of_string "asc"
                \/ map lower tok = list_ascii_of_string "desc")).
Proof.
  unfold groupSpec_matchDimSpec. rewrite exec_Bol.
  destruct (match_at _ _ _) as [[n cs']|] eqn:Hm; [|discriminate].
  intros [= <-]. apply match_at_sound in Hm as (w & rest & Hs & _ & Hm).
  rewrite Hs. clear Hs.
  cbv [dimSpec_name dimSpec_order dimSpec_end lit fold_right list_ascii_of_string] in Hm.
  invert_matches.
  all: match goal with
       | |- exists lw name tail, ([] ++ ?a ++ ?b ++ ?t ++ ?tw ++ []) ++ [] = _ /\ _ =>
         exists a, b, (t ++ tw)
       end.
  all: split; [simpl; rewrite ?app_nil_r, <- ?app_assoc; reflexivity|].
  all: split; [assumption|].
  all: split; [discriminate|].
  all: split; [reflexivity|].
  3:{ left. split; [assumption|reflexivity]. }
  all: right.
  all: match goal with
       | |- exists ws tok tw, (?a ++ ?b) ++ ?c = _ /\ _ => exists a, b, c
       end.
  all: split; [rewrite <- app_assoc; reflexivity|].
  all: split; [discriminate|].
  all: split; [constructor; assumption|].
  all: split; [assumption|].
  all: split; [reflexivity|].
  all: repeat match goal with
              | H : is_char true _ _ = true |- _ => apply is_char_lower in H
              end.
  all: simpl map.
  all: repeat match goal with
              | H : lower _ = lower _ |- _ => rewrite H; clear H
              end.
  - left. reflexivity.
  - right. reflexivity.
Qed.

(** *** How the quantifiers search *)

Lemma rep_greedy_all {R : Type} p pos w s (k : nat -> text -> option R) res :
  Forall (fun c => p c = true) w -> stops p s ->
  k (pos + length w)%nat s = Some res ->
  rep_greedy p pos (w ++ s) k = Some res.
Proof.
  intros Hw Hs. revert pos. induction Hw as [|c w Hc _ IH]; intros pos Hk; simpl.
  - rewrite Nat.add_0_r in Hk. destruct s as [|c s]; simpl; [exact Hk|].
    simpl in Hs. rewrite Hs. exact Hk.
  - rewrite Hc, (IH (S pos)); [reflexivity|].
    simpl in Hk. rewrite Nat.add_succ_r in Hk. exact Hk.
Qed.

Lemma rep_greedy_none {R : Type} p (q : ascii -> Prop) pos w s
    (k : nat -> text -> option R) :
  Forall (fun c => p c = true /\ q c) w -> stops p s ->
  (forall pos' c s', q c -> k pos' (c :: s') = None) ->
  k (pos + length w)%nat s = None ->
  rep_greedy p pos (w ++ s) k = None.
Proof.
  intros Hw Hs Hq. revert pos.
  induction Hw as [|c w [Hc Hqc] _ IH]; intros pos Hk; simpl.
  - rewrite Nat.add_0_r in Hk. destruct s as [|c s]; simpl; [exact Hk|].
    simpl in Hs. rewrite Hs. exact Hk.
  - rewrite Hc, (IH (S pos)); [exact (Hq pos c _ Hqc)|].
    simpl in Hk. rewrite Nat.add_succ_r in Hk. exact Hk.
Qed.

Lemma rep_lazy_through {R : Type} p (q : ascii -> Prop) pos w s
    (k : nat -> text -> option R) :
  Forall (fun c => p c = true /\ q c) w ->
  (forall pos' c s', q c -> k pos' (c :: s') = None) ->
  rep_lazy p pos (w ++ s) k = rep_lazy p (pos + length w)%nat s k.
Proof.
  intros Hw Hq. revert pos.
  induction Hw as [|c w [Hc Hqc] _ IH]; intros pos; simpl app.
  - rewrite Nat.add_0_r. reflexivity.
  - simpl rep_lazy. rewrite (Hq pos c _ Hqc), Hc, (IH (S pos)).
    simpl. rewrite Nat.add_succ_r. reflexivity.
Qed.

Lemma rep_lazy_here {R : Type} p pos s (k : nat -> text -> option R) res :
  k pos s = Some res -> rep_lazy p pos s k = Some res.
Proof. intros Hk. destruct s; simpl; rewrite Hk; reflexivity. Qed.

(** *** Character classes *)

Lemma not_space_is_dot (c : ascii) : is_space c = false -> is_dot c = true.
Proof.
  unfold is_space, is_dot. intros H.
  destruct (Nat.eqb_spec (code c) 10) as [E|_];
    [rewrite E in H; discriminate|].
  destruct (Nat.eqb_spec (code c) 13) as [E|_];
    [rewrite E in H; discriminate|reflexivity].
Qed.

Lemma space_lower (c : ascii) : is_space c = true -> lower c = c.
Proof.
  unfold is_space, lower. intros H.
  destruct (Nat.leb_spec 65 (code c)) as [H65|_]; [|reflexivity].
  destruct (Nat.leb_spec (code c) 90) as [H90|_]; [|reflexivity].
  exfalso.
  destruct (Nat.leb_spec 9 (code c)) as [_|]; [|lia].
  destruct (Nat.leb_spec (code c) 13) as [|_]; [lia|].
  destruct (Nat.eqb_spec (code c) 32) as [|_]; [lia|].
  destruct (Nat.eqb_spec (code c) 160) as [|_]; [lia|discriminate].
Qed.

(** A character that reads as a letter up to case is not white space. *)
Lemma letter_not_space (x c : ascii) :
  is_space x = false -> lower x = x -> lower c = x -> is_space c = false.
Proof.
  intros Hx Hlx Hc. destruct (is_space c) eqn:Hs; [|reflexivity].
  rewrite (space_lower c Hs) in Hc. subst c. congruence.
Qed.

Lemma space_not_char (x c : ascii) :
  is_space x = false -> lower x = x -> is_space c = true -> is_char true x c = false.
Proof.
  intros Hx Hlx Hs. unfold is_char. rewrite Hlx, (space_lower c Hs).
  apply Ascii.eqb_neq. intros ->. congruence.
Qed.

(** *** The parts of the dimension pattern on clean input *)

Lemma rmatch_lit {R : Type} (x : string) :
  forall tok pos s cs (k : nat -> text -> captures -> option R),
    map lower tok = map lower (list_ascii_of_string x) ->
    rmatch (lit true x) pos (tok ++ s) cs k = k (pos + length tok)%nat s cs.
Proof.
  unfold lit. induction (list_ascii_of_string x) as [|x0 xs IH];
    intros tok pos s cs k Htok.
  - destruct tok; [|discriminate]. simpl. rewrite Nat.add_0_r. reflexivity.
  - destruct tok as [|c tok]; [discriminate|]. injection Htok as Hc Htok.
    simpl. unfold is_char at 1. rewrite Hc, Ascii.eqb_refl, (IH tok _ _ _ _ Htok).
    rewrite Nat.add_succ_r. reflexivity.
Qed.

Lemma rmatch_lit_fail {R : Type} (x0 : ascii) (x : string) c pos s cs
    (k : nat -> text -> captures -> option R) :
  lower c <> lower x0 ->
  rmatch (lit true (String x0 x)) pos (c :: s) cs k = None.
Proof.
  intros Hc. unfold lit. simpl. unfold is_char at 1.
  destruct (Ascii.eqb_spec (lower x0) (lower c)) as [E|_]; [|reflexivity].
  congruence.
Qed.

Lemma dimSpec_end_spaces {R : Type} pos tw cs
    (k : nat -> text -> captures -> option R) res :
  Forall (fun c => is_space c = true) tw ->
  k (pos + length tw)%nat [] cs = Some res ->
  rmatch dimSpec_end pos tw cs k = Some res.
Proof.
  intros Htw Hk. unfold dimSpec_end. cbn [rmatch].
  rewrite <- (app_nil_r tw) at 1.
  apply rep_greedy_all; [exact Htw|exact I|exact Hk].
Qed.

Lemma dimSpec_end_fail {R : Type} pos x s cs
    (k : nat -> text -> captures -> option R) :
  is_space x = false -> rmatch dimSpec_end pos (x :: s) cs k = None.
Proof. intros Hx. unfold dimSpec_end. simpl. rewrite Hx. reflexivity. Qed.

Lemma dimSpec_order_fail {R : Type} pos x s cs
    (k : nat -> text -> captures -> option R) :
  is_space x = false -> rmatch dimSpec_order pos (x :: s) cs k = None.
Proof. intros Hx. unfold dimSpec_order. simpl. rewrite Hx. reflexivity. Qed.

Lemma dimSpec_order_spaces {R : Type} pos tw cs
    (k : nat -> text -> captures -> option R) :
  Forall (fun c => is_space c = true) tw ->
  rmatch dimSpec_order pos tw cs k = None.
Proof.
  intros Htw. unfold dimSpec_order.
  destruct Htw as [|sp tw Hsp Htw]; cbn [rmatch]; [reflexivity|]. rewrite Hsp.
  rewrite <- (app_nil_r tw).
  apply (rep_greedy_none _ (fun c => is_space c = true)).
  - eapply Forall_impl; [exact Htw|]. intros c Hc. split; exact Hc.
  - exact I.
  - intros pos' c s' Hc.
    rewrite (rmatch_lit_fail "a" "sc"), (rmatch_lit_fail "d" "esc"); [reflexivity| |].
    + rewrite (space_lower c Hc). intros ->. discriminate.
    + rewrite (space_lower c Hc). intros ->. discriminate.
  - reflexivity.
Qed.

Lemma dimSpec_order_token {R : Type} pos ws tok tw cs
    (k : nat -> text -> captures -> option R) res :
  ws <> [] -> Forall (fun c => is_space c = true) ws ->
  map lower tok = list_ascii_of_string "asc"
  \/ map lower tok = list_ascii_of_string "desc" ->
  k (pos + length ws + length tok)%nat tw ((2%nat, tok) :: cs) = Some res ->
  rmatch dimSpec_order pos (ws ++ tok ++ tw) cs k = Some res.
Proof.
  intros Hne Hws Htok Hk. unfold dimSpec_order.
  destruct Hws as [|sp ws Hsp Hws]; [contradiction|].
  simpl app. cbn [rmatch]. rewrite Hsp.
  assert (Hstop : stops is_space (tok ++ tw)).
  { destruct tok as [|c tok]; [destruct Htok; discriminate|]. simpl.
    destruct Htok as [Htok|Htok]; injection Htok as Hc _.
    - exact (letter_not_space "a" c eq_refl eq_refl Hc).
    - exact (letter_not_space "d" c eq_refl eq_refl Hc). }
  apply rep_greedy_all; [exact Hws|exact Hstop|].
  replace (pos + length (sp :: ws) + length tok)%nat
    with (S pos + length ws + length tok)%nat in Hk by (simpl; lia).
  assert (Hcap : forall n, take (n + length tok - n) (tok ++ tw) = tok).
  { intros n. replace (n + length tok - n)%nat with (length tok) by lia.
    apply take_app_length. }
  destruct Htok as [Htok|Htok].
  - rewrite (rmatch_lit "asc") by exact Htok. rewrite Hcap, Hk. reflexivity.
  - assert (Hfail : forall (n0 : nat) (k0 : nat -> text -> captures -> option R),
               rmatch (lit true "asc") n0 (tok ++ tw) cs k0 = None).
    { intros n0 k0. destruct tok as [|c tok]; [discriminate|].
      apply (rmatch_lit_fail "a" "sc"). injection Htok as Hc _.
      rewrite Hc. discriminate. }
    rewrite Hfail, (rmatch_lit "desc") by exact Htok.
    rewrite Hcap, Hk. reflexivity.
Qed.

Lemma dimSpec_name_clean {R : Type} pos name tail cs
    (k : nat -> text -> captures -> option R) res :
  name <> [] -> Forall (fun c => is_space c = false) name ->
  (forall pos' x s' cs', is_space x = false -> k pos' (x :: s') cs' = None) ->
  k (pos + length name)%nat tail ((1%nat, name) :: cs) = Some res ->
  rmatch dimSpec_name pos (name ++ tail) cs k = Some res.
Proof.
  intros Hne Hname Hfail Hk. unfold dimSpec_name.
  destruct Hname as [|c nm Hc Hnm]; [contradiction|].
  simpl app. cbn [rmatch]. rewrite (not_space_is_dot c Hc).
  rewrite (rep_lazy_through is_dot (fun c => is_space c = false)).
  - apply rep_lazy_here.
    replace (S pos + length nm - pos)%nat with (S (length nm)) by lia.
    rewrite firstn_cons, take_app_length.
    replace (S pos + length nm)%nat with (pos + length (c :: nm))%nat by (simpl; lia).
    exact Hk.
  - eapply Forall_impl; [exact Hnm|]. intros x Hx.
    split; [exact (not_space_is_dot x Hx)|exact Hx].
  - intros pos' x s' Hx. apply Hfail. exact Hx.
Qed.

Lemma matchDimSpec_rest_fail {R : Type} pos x s cs
    (k : nat -> text -> captures -> option R) :
  is_space x = false ->
  rmatch (Seq (Alt dimSpec_order Empty) dimSpec_end) pos (x :: s) cs k = None.
Proof.
  intros Hx. cbn [rmatch].
  rewrite dimSpec_order_fail by exact Hx. apply dimSpec_end_fail. exact Hx.
Qed.

(** A name without white space, alone: the name is captured, no order. *)
Lemma matchDimSpec_name lw name tw :
  Forall (fun c => is_space c = true) lw ->
  name <> [] -> Forall (fun c => is_space c = false) name ->
  Forall (fun c => is_space c = true) tw ->
  match_at groupSpec_matchDimSpec 0 (lw ++ name ++ tw)
  = Some (length (lw ++ name ++ tw), [(1%nat, name)]).
Proof.
  intros Hlw Hne Hname Htw. unfold match_at, groupSpec_matchDimSpec.
  cbn [rmatch Nat.eqb].
  apply rep_greedy_all; [exact Hlw| |].
  { destruct Hname as [|c nm Hc _]; [contradiction|exact Hc]. }
  apply dimSpec_name_clean; [exact Hne|exact Hname| |].
  { intros pos' x s' cs' Hx. apply (matchDimSpec_rest_fail pos' x s' cs' _ Hx). }
  cbn [rmatch]. rewrite dimSpec_order_spaces by exact Htw.
  apply dimSpec_end_spaces; [exact Htw|].
  f_equal. f_equal. rewrite !length_app. lia.
Qed.

(** A name without white space, white space and a token: both are
    captured. *)
Lemma matchDimSpec_name_order lw name ws tok tw :
  Forall (fun c => is_space c = true) lw ->
  name <> [] -> Forall (fun c => is_space c = false) name ->
  ws <> [] -> Forall (fun c => is_space c = true) ws ->
  map lower tok = list_ascii_of_string "asc"
  \/ map lower tok = list_ascii_of_string "desc" ->
  Forall (fun c => is_space c = true) tw ->
  match_at groupSpec_matchDimSpec 0 (lw ++ name ++ ws ++ tok ++ tw)
  = Some (length (lw ++ name ++ ws ++ tok ++ tw), [(2%nat, tok); (1%nat, name)]).
Proof.
  intros Hlw Hne Hname Hnews Hws Htok Htw. unfold match_at, groupSpec_matchDimSpec.
  cbn [rmatch Nat.eqb].
  apply rep_greedy_all; [exact Hlw| |].
  { destruct Hname as [|c nm Hc _]; [contradiction|exact Hc]. }
  apply dimSpec_name_clean; [exact Hne|exact Hname| |].
  { intros pos' x s' cs' Hx. apply (matchDimSpec_rest_fail pos' x s' cs' _ Hx). }
  cbn [rmatch].
  erewrite dimSpec_order_token; [reflexivity|exact Hnews|exact Hws|exact Htok|].
  apply dimSpec_end_spaces; [exact Htw|].
  f_equal. f_equal. rewrite !length_app. lia.
Qed.

(** *** Expressions without [^] do not depend on the index *)

Lemma rep_greedy_shift {R : Type} p d s :
  forall pos (k1 k2 : nat -> text -> option R),
    (forall n s', k1 (n + d)%nat s' = k2 n s') ->
    rep_greedy p (pos + d) s k1 = rep_greedy p pos s k2.
Proof.
  induction s as [|c s IH]; intros pos k1 k2 Hk; simpl.
  - apply Hk.
  - change (S (pos + d)) with (S pos + d)%nat.
    rewrite (IH (S pos) k1 k2 Hk), Hk. reflexivity.
Qed.

Lemma rep_lazy_shift {R : Type} p d s :
  forall pos (k1 k2 : nat -> text -> option R),
    (forall n s', k1 (n + d)%nat s' = k2 n s') ->
    rep_lazy p (pos + d) s k1 = rep_lazy p pos s k2.
Proof.
  induction s as [|c s IH]; intros pos k1 k2 Hk; simpl.
  - rewrite Hk. reflexivity.
  - change (S (pos + d)) with (S pos + d)%nat.
    rewrite (IH (S pos) k1 k2 Hk), Hk. reflexivity.
Qed.

Lemma rmatch_shift {R : Type} r d :
  bol_free r = true ->
  forall pos s cs (k1 k2 : nat -> text -> captures -> option R),
    (forall n s' cs', k1 (n + d)%nat s' cs' = k2 n s' cs') ->
    rmatch r (pos + d) s cs k1 = rmatch r pos s cs k2.
Proof.
  induction r as [p|greedy p|r1 IH1 r2 IH2|r1 IH1 r2 IH2| |n r IH| |];
    intros Hfree pos s cs k1 k2 Hk; simpl in Hfree |- *.
  - destruct s as [|c s]; [reflexivity|]. destruct (p c); [|reflexivity].
    apply (Hk (S pos)).
  - destruct greedy; [apply rep_greedy_shift|apply rep_lazy_shift];
      intros n s'; apply Hk.
  - apply andb_true_iff in Hfree as [H1 H2].
    apply (IH1 H1). intros n s' cs'. apply (IH2 H2). exact Hk.
  - apply andb_true_iff in Hfree as [H1 H2].
    rewrite (IH1 H1 pos s cs k1 k2 Hk), (IH2 H2 pos s cs k1 k2 Hk). reflexivity.
  - apply Hk.
  - apply (IH Hfree). intros n0 s' cs'.
    replace (n0 + d - (pos + d))%nat with (n0 - pos)%nat by lia. apply Hk.
  - discriminate.
  - destruct s; [apply Hk|reflexivity].
Qed.

Lemma match_at_shift r pos s :
  bol_free r = true -> match_at r pos s = match_at r 0 s.
Proof.
  intros Hfree. unfold match_at.
  apply (rmatch_shift r pos Hfree 0%nat). intros n s' cs'.
  f_equal. f_equal. lia.
Qed.

Lemma split_loop_shift r skip q piece rest :
  bol_free r = true ->
  split_loop r skip q piece rest = split_loop r skip 0 piece rest.
Proof.
  intros Hfree. revert skip q piece.
  assert (H : forall skip q q' piece,
             split_loop r skip q piece rest = split_loop r skip q' piece rest).
  { induction rest as [|c rest IH]; intros skip q q' piece; simpl; [reflexivity|].
    destruct skip as [|skip]; [|apply IH].
    rewrite (match_at_shift r q _ Hfree), (match_at_shift r q' _ Hfree).
    destruct (match_at r 0 (c :: rest)) as [[[|n] cs]|].
    - destruct piece; [apply IH|f_equal; apply IH].
    - f_equal. apply IH.
    - apply IH. }
  intros skip q piece. apply H.
Qed.

Lemma split_loop_skip r rest :
  forall n q piece,
    (n <= length rest)%nat ->
    split_loop r n q piece rest = split_loop r 0 (q + n) piece (drop n rest).
Proof.
  induction rest as [|c rest IH]; intros n q piece Hn; simpl in Hn.
  - assert (n = 0%nat) as -> by lia. reflexivity.
  - destruct n as [|n].
    + rewrite Nat.add_0_r. reflexivity.
    + simpl. rewrite (IH n (S q) piece) by lia.
      rewrite Nat.add_succ_r. reflexivity.
Qed.

(** *** The separators *)

Lemma sep_match_here (c : ascii) q ws1 ws2 rest :
  is_space c = false ->
  Forall (fun x => is_space x = true) ws1 ->
  Forall (fun x => is_space x = true) ws2 ->
  stops is_space rest ->
  match_at (sep_regex c) q (ws1 ++ c :: ws2 ++ rest)
  = Some (S (length ws1 + length ws2), []).
Proof.
  intros Hc H1 H2 Hrest. unfold match_at, sep_regex. cbn [rmatch].
  apply rep_greedy_all; [exact H1|exact Hc|].
  unfold is_char. rewrite Ascii.eqb_refl.
  apply rep_greedy_all; [exact H2|exact Hrest|].
  f_equal. f_equal. lia.
Qed.

Lemma sep_match_none (c : ascii) q ws s :
  is_space c = false ->
  Forall (fun x => is_space x = true) ws ->
  match s with [] => True | x :: _ => is_space x = false /\ x <> c end ->
  match_at (sep_regex c) q (ws ++ s) = None.
Proof.
  intros Hc Hws Hs. unfold match_at, sep_regex. cbn [rmatch].
  apply (rep_greedy_none _ (fun x => is_space x = true)).
  - eapply Forall_impl; [exact Hws|]. intros x Hx. split; exact Hx.
  - destruct s as [|x s]; [exact I|exact (proj1 Hs)].
  - intros pos' x s' Hx. unfold is_char.
    destruct (Ascii.eqb_spec c x) as [->|_]; [congruence|reflexivity].
  - destruct s as [|x s]; [reflexivity|]. unfold is_char.
    destruct (Ascii.eqb_spec c x) as [->|_]; [|reflexivity].
    destruct Hs as [_ Hne]. contradiction.
Qed.

(** Any text is white space followed by nothing or by a character that
    is not white space. *)
Lemma leading_spaces (g : text) :
  exists ws g', g = ws ++ g' /\ Forall (fun x => is_space x = true) ws
                /\ stops is_space g'.
Proof.
  induction g as [|x g (ws & g' & -> & Hws & Hg')].
  - exists [], []. repeat split. constructor.
  - destruct (is_space x) eqn:Hx.
    + exists (x :: ws), g'. repeat split; [constructor; assumption|exact Hg'].
    + exists [], (x :: ws ++ g'). repeat split; [constructor|exact Hx].
Qed.

(** No separator starts at a character of a text without [c], unless
    what follows the text completes one after trailing white space. *)
Lemma sep_match_inside (c : ascii) q g tail :
  is_space c = false ->
  Forall (fun x => x <> c) g -> g <> [] ->
  tail = [] \/ stops is_space (rev g) ->
  match_at (sep_regex c) q (g ++ tail) = None.
Proof.
  intros Hc Hg Hne Htail.
  destruct (leading_spaces g) as (ws & g' & -> & Hws & Hg').
  rewrite <- app_assoc. apply sep_match_none; [exact Hc|exact Hws|].
  apply Forall_app in Hg as [_ Hg].
  destruct g' as [|x g']; simpl.
  - rewrite app_nil_r in Htail, Hne. destruct Htail as [->|Hstop]; [exact I|].
    exfalso. destruct (rev ws) as [|y ys] eqn:Hrev.
    + apply (f_equal (@rev ascii)) in Hrev. rewrite rev_involutive in Hrev.
      contradiction.
    + simpl in Hstop.
      assert (Hy : y ∈ rev ws) by (rewrite Hrev; apply list_elem_of_here).
      rewrite list_elem_of_In, <- in_rev, <- list_elem_of_In in Hy.
      rewrite Forall_forall in Hws. rewrite (Hws y Hy) in Hstop. discriminate.
  - apply Forall_cons in Hg as [Hx _]. split; [exact Hg'|exact Hx].
Qed.

(** *** Splitting *)

Lemma stops_rev_tail p (y : ascii) (f : text) :
  stops p (rev (y :: f)) -> stops p (rev f).
Proof. simpl rev. destruct (rev f); simpl; [intros _; exact I|exact id]. Qed.

Lemma split_loop_last (c : ascii) f :
  is_space c = false -> Forall (fun x => x <> c) f ->
  forall q piece, split_loop (sep_regex c) 0 q piece f = [piece ++ f].
Proof.
  intros Hc Hf. induction f as [|y f IH]; intros q piece; simpl.
  - rewrite app_nil_r. reflexivity.
  - pose proof (sep_match_inside c q (y :: f) [] Hc Hf) as Hnone.
    rewrite app_nil_r in Hnone. rewrite Hnone by (discriminate || left; reflexivity).
    apply Forall_cons in Hf as [_ Hf].
    rewrite (IH Hf), <- app_assoc. reflexivity.
Qed.

Lemma split_loop_cons (c : ascii) f ws1 ws2 rest :
  is_space c = false ->
  Forall (fun x => x <> c) f -> stops is_space (rev f) ->
  Forall (fun x => is_space x = true) ws1 ->
  Forall (fun x => is_space x = true) ws2 ->
  stops is_space rest ->
  forall q piece,
    split_loop (sep_regex c) 0 q piece (f ++ ws1 ++ c :: ws2 ++ rest)
    = (piece ++ f) :: split_loop (sep_regex c) 0 0 [] rest.
Proof.
  intros Hc Hf Hend H1 H2 Hrest.
  induction f as [|y f IH]; intros q piece.
  - rewrite app_nil_r. simpl app.
    pose proof (sep_match_here c q ws1 ws2 rest Hc H1 H2 Hrest) as Hhere.
    assert (Hsep : exists z sepw,
               ws1 ++ c :: ws2 ++ rest = z :: sepw ++ rest
               /\ length sepw = (length ws1 + length ws2)%nat).
    { destruct ws1 as [|sp ws1].
      - exists c, ws2. split; reflexivity.
      - exists sp, (ws1 ++ c :: ws2). split.
        + simpl. rewrite <- app_assoc. reflexivity.
        + rewrite length_app. simpl. lia. }
    destruct Hsep as (z & sepw & Hsep & Hlen).
    rewrite Hsep in Hhere |- *. simpl split_loop. rewrite Hhere. f_equal.
    rewrite split_loop_skip by (rewrite length_app; lia).
    rewrite <- Hlen, drop_app_length. apply split_loop_shift. reflexivity.
  - simpl app. simpl split_loop.
    pose proof (sep_match_inside c q (y :: f) (ws1 ++ c :: ws2 ++ rest) Hc Hf) as Hnone.
    simpl app in Hnone. rewrite Hnone by (discriminate || right; exact Hend).
    apply Forall_cons in Hf as [_ Hf].
    rewrite (IH Hf (stops_rev_tail _ _ _ Hend)), <- app_assoc. reflexivity.
Qed.

(** A text without the separator character is one fragment. *)
Lemma split_text_last (c : ascii) f :
  is_space c = false -> Forall (fun x => x <> c) f ->
  split_text (sep_regex c) f = [f].
Proof.
  intros Hc Hf. destruct f as [|y f].
  - reflexivity.
  - unfold split_text. apply (split_loop_last c (y :: f) Hc Hf).
Qed.

(** A fragment that has no separator character and does not end in
    white space, then a separator with white space around it: the
    fragment is split off, and what follows is split in turn. *)
Lemma split_text_cons (c : ascii) f ws1 ws2 rest :
  is_space c = false ->
  Forall (fun x => x <> c) f -> stops is_space (rev f) ->
  Forall (fun x => is_space x = true) ws1 ->
  Forall (fun x => is_space x = true) ws2 ->
  stops is_space rest ->
  split_text (sep_regex c) (f ++ ws1 ++ c :: ws2 ++ rest)
  = f :: split_text (sep_regex c) rest.
Proof.
  intros Hc Hf Hend H1 H2 Hrest.
  assert (Hsplit : split_loop (sep_regex c) 0 0 [] (f ++ ws1 ++ c :: ws2 ++ rest)
                   = f :: split_loop (sep_regex c) 0 0 [] rest).
  { apply (split_loop_cons c f ws1 ws2 rest Hc Hf Hend H1 H2 Hrest 0%nat []). }
  assert (Hrest' : split_loop (sep_regex c) 0 0 [] rest = split_text (sep_regex c) rest).
  { destruct rest as [|x rest]; reflexivity. }
  rewrite <- Hrest', <- Hsplit. unfold split_text.
  destruct (f ++ ws1 ++ c :: ws2 ++ rest) as [|z zs] eqn:E; [|reflexivity].
  destruct f; [destruct ws1|]; discriminate.
Qed.

(** *** Written lists *)

Lemma stops_app p (f g : text) : f <> [] -> stops p f -> stops p (f ++ g).
Proof. destruct f; [contradiction|]. intros _ H. exact H. Qed.

Lemma stops_rev_app p (f g : text) :
  g <> [] -> stops p (rev g) -> stops p (rev (f ++ g)).
Proof.
  intros Hne Hg. rewrite rev_app_distr. apply stops_app; [|exact Hg].
  intros E. apply (f_equal (@rev ascii)) in E. rewrite rev_involutive in E.
  contradiction.
Qed.

Lemma Forall_stops p (f : text) :
  Forall (fun c => p c = false) f -> stops p f /\ stops p (rev f).
Proof.
  intros Hf. split.
  - destruct Hf; [exact I|assumption].
  - apply Forall_rev in Hf. destruct Hf; [exact I|assumption].
Qed.

Lemma render_list_cons sep (x y : text) ys :
  render_list sep (x :: y :: ys) = x ++ sep ++ render_list sep (y :: ys).
Proof. reflexivity. Qed.

Lemma render_list_nonempty sep (x : text) xs :
  x <> [] -> render_list sep (x :: xs) <> [].
Proof.
  intros Hx. destruct xs; [exact Hx|]. rewrite render_list_cons.
  destruct x; [contradiction|discriminate].
Qed.

Lemma Forall_render_list (P : ascii -> Prop) sep (frags : list text) :
  Forall P sep -> Forall (Forall P) frags -> Forall P (render_list sep frags).
Proof.
  intros Hsep Hfrags. induction Hfrags as [|x xs Hx Hxs IH]; [constructor|].
  destruct xs as [|y ys]; [exact Hx|]. rewrite render_list_cons.
  repeat (apply Forall_app; split); assumption.
Qed.

Lemma stops_render_list (c : ascii) pad (frags : list text) :
  is_space c = false -> Forall (stops is_space) frags ->
  stops is_space (render_list (c :: pad) frags).
Proof.
  intros Hc Hfrags. destruct Hfrags as [|x xs Hx Hxs]; [exact I|].
  destruct xs as [|y ys]; [exact Hx|]. rewrite render_list_cons.
  destruct x; [exact Hc|exact Hx].
Qed.

Lemma stops_rev_render_list p sep (frags : list text) :
  Forall (fun f => f <> [] /\ stops p (rev f)) frags ->
  stops p (rev (render_list sep frags)).
Proof.
  intros Hfrags. induction Hfrags as [|x xs [Hne Hx] Hxs IH]; [exact I|].
  destruct xs as [|y ys]; [exact Hx|]. rewrite render_list_cons, app_assoc.
  apply stops_rev_app; [|exact IH].
  apply Forall_cons in Hxs as [[Hy _] _]. apply render_list_nonempty. exact Hy.
Qed.

(** Splitting a list written with separators gives the list back. *)
Lemma split_render_list (c : ascii) pad (frags : list text) :
  is_space c = false -> Forall (fun x => is_space x = true) pad ->
  frags <> [] -> Forall (tidy c) frags ->
  split_text (sep_regex c) (render_list (c :: pad) frags) = frags.
Proof.
  intros Hc Hpad Hne Hfrags.
  induction Hfrags as [|x xs (Hx & Hstart & Hend) Hxs IH]; [contradiction|].
  destruct xs as [|y ys].
  - apply split_text_last; assumption.
  - rewrite render_list_cons.
    change (x ++ (c :: pad) ++ render_list (c :: pad) (y :: ys))
      with (x ++ [] ++ c :: pad ++ render_list (c :: pad) (y :: ys)).
    rewrite split_text_cons; try assumption.
    + rewrite IH by discriminate. reflexivity.
    + constructor.
    + apply stops_render_list; [exact Hc|].
      eapply Forall_impl; [exact Hxs|]. intros f (_ & Hf & _). exact Hf.
Qed.

(** *** Written dimensions and levels *)

Lemma letter_plain (x c : ascii) :
  is_space x = false -> lower x = x -> x <> ","%char -> x <> "|"%char ->
  lower c = x ->
  is_space c = false /\ c <> ","%char /\ c <> "|"%char.
Proof.
  intros Hx Hlx Hcomma Hpipe Hc. split; [exact (letter_not_space x c Hx Hlx Hc)|].
  split; intros ->; [apply Hcomma|apply Hpipe]; rewrite <- Hc; reflexivity.
Qed.

Lemma token_plain (tok : text) :
  map lower tok = list_ascii_of_string "asc"
  \/ map lower tok = list_ascii_of_string "desc" ->
  tok <> []
  /\ Forall (fun c => is_space c = false /\ c <> ","%char /\ c <> "|"%char) tok.
Proof.
  intros [H|H].
  - destruct tok as [|c1 [|c2 [|c3 [|c4 tok]]]]; try discriminate.
    injection H as H1 H2 H3. split; [discriminate|].
    repeat constructor;
      (eapply letter_plain; [| | | |eassumption]; [reflexivity..|discriminate|discriminate]).
  - destruct tok as [|c1 [|c2 [|c3 [|c4 [|c5 tok]]]]]; try discriminate.
    injection H as H1 H2 H3 H4. split; [discriminate|].
    repeat constructor;
      (eapply letter_plain; [| | | |eassumption]; [reflexivity..|discriminate|discriminate]).
Qed.

Lemma space_plain (pad : text) (c : ascii) :
  is_space c = false -> Forall (fun x => is_space x = true) pad ->
  Forall (fun x => x <> c) pad.
Proof.
  intros Hc Hpad. eapply Forall_impl; [exact Hpad|].
  intros x Hx ->. congruence.
Qed.

Lemma render_dim_plain gap (d : written_dim) (c : ascii) :
  c = ","%char \/ c = "|"%char ->
  Forall (fun x => is_space x = true) gap -> well_written d ->
  render_dim gap d <> [] /\ tidy c (render_dim gap d).
Proof.
  intros Hc Hgap (Hne & Hname & Htok). unfold render_dim, tidy.
  assert (Hsp : is_space c = false) by (destruct Hc as [-> | ->]; reflexivity).
  assert (Hplain : forall f,
             Forall (fun x => is_space x = false /\ x <> ","%char /\ x <> "|"%char) f ->
             Forall (fun x => x <> c) f /\ Forall (fun x => is_space x = false) f).
  { intros f Hf. split; (eapply Forall_impl; [exact Hf|]); intros x (H1 & H2 & H3);
      [destruct Hc as [-> | ->]|]; assumption. }
  destruct (Hplain _ Hname) as [Hname_c Hname_sp].
  destruct (Forall_stops is_space _ Hname_sp) as [Hstart Hend].
  destruct (snd d) as [tok|].
  - destruct (token_plain tok Htok) as [Htokne Htok'].
    destruct (Hplain _ Htok') as [Htok_c Htok_sp].
    destruct (Forall_stops is_space _ Htok_sp) as [_ Htok_end].
    split; [destruct (fst d); [contradiction|discriminate]|].
    split; [|split].
    + repeat (apply Forall_app; split); try assumption.
      exact (space_plain gap c Hsp Hgap).
    + apply stops_app; assumption.
    + rewrite app_assoc. apply stops_rev_app; assumption.
  - split; [exact Hne|]. repeat split; assumption.
Qed.

Lemma render_level_tidy pad gap (dims : list written_dim) :
  Forall (fun x => is_space x = true) pad ->
  Forall (fun x => is_space x = true) gap ->
  Forall well_written dims ->
  tidy ","%char (render_level pad gap dims).
Proof.
  intros Hpad Hgap Hdims. unfold render_level, tidy.
  assert (Hfrags : forall c, c = ","%char \/ c = "|"%char ->
            Forall (fun f => f <> [] /\ tidy c f) (map (render_dim gap) dims)).
  { intros c Hc. apply Forall_fmap. eapply Forall_impl; [exact Hdims|].
    intros d Hd. exact (render_dim_plain gap d c Hc Hgap Hd). }
  split; [|split].
  - apply Forall_render_list.
    + constructor; [discriminate|]. exact (space_plain pad ","%char eq_refl Hpad).
    + eapply Forall_impl; [exact (Hfrags ","%char (or_introl eq_refl))|].
      intros f (_ & Hf & _). exact Hf.
  - apply stops_render_list; [reflexivity|].
    eapply Forall_impl; [exact (Hfrags ","%char (or_introl eq_refl))|].
    intros f (_ & _ & Hf & _). exact Hf.
  - apply stops_rev_render_list.
    eapply Forall_impl; [exact (Hfrags ","%char (or_introl eq_refl))|].
    intros f (Hne & _ & _ & Hf). split; assumption.
Qed.

(** *** Whatever is a match, the matcher accepts *)

Lemma rep_greedy_here {R : Type} p pos s (k : nat -> text -> option R) :
  is_Some (k pos s) -> is_Some (rep_greedy p pos s k).
Proof.
  intros Hk. destruct s as [|c s]; simpl; [exact Hk|].
  destruct (p c); [|exact Hk].
  destruct (rep_greedy p (S pos) s k); [eexists; reflexivity|exact Hk].
Qed.

Lemma rep_greedy_complete {R : Type} p pos w rest (k : nat -> text -> option R) :
  Forall (fun c => p c = true) w -> is_Some (k (pos + length w)%nat rest) ->
  is_Some (rep_greedy p pos (w ++ rest) k).
Proof.
  intros Hw. revert pos. induction Hw as [|c w Hc _ IH]; intros pos Hk.
  - rewrite Nat.add_0_r in Hk. exact (rep_greedy_here p pos rest k Hk).
  - simpl. rewrite Hc.
    destruct (IH (S pos)) as [res Hres].
    { simpl in Hk. rewrite Nat.add_succ_r in Hk. exact Hk. }
    rewrite Hres. eexists. reflexivity.
Qed.

Lemma rep_lazy_complete {R : Type} p pos w rest (k : nat -> text -> option R) :
  Forall (fun c => p c = true) w -> is_Some (k (pos + length w)%nat rest) ->
  is_Some (rep_lazy p pos (w ++ rest) k).
Proof.
  intros Hw. revert pos. induction Hw as [|c w Hc _ IH]; intros pos Hk.
  - rewrite Nat.add_0_r in Hk. destruct Hk as [res Hres].
    exists res. exact (rep_lazy_here p pos rest k res Hres).
  - simpl. destruct (k pos (c :: w ++ rest)); [eexists; reflexivity|].
    rewrite Hc. apply IH. simpl in Hk. rewrite Nat.add_succ_r in Hk. exact Hk.
Qed.

Lemma rmatch_complete {R : Type} r pos w rest cs cs' :
  matches r pos w rest cs cs' ->
  forall k : nat -> text -> captures -> option R,
    is_Some (k (pos + length w)%nat rest cs') ->
    is_Some (rmatch r pos (w ++ rest) cs k).
Proof.
  induction 1 as [p c pos rest cs Hc|greedy p w pos rest cs Hw
                 |r1 r2 w1 w2 pos rest cs cs1 cs2 _ IH1 _ IH2
                 |r1 r2 w pos rest cs cs' _ IH|r1 r2 w pos rest cs cs' _ IH
                 |pos rest cs|n r w pos rest cs cs' _ IH|rest cs|pos cs];
    intros k Hk; simpl.
  - rewrite Hc. simpl in Hk. rewrite Nat.add_1_r in Hk. exact Hk.
  - destruct greedy; [apply rep_greedy_complete|apply rep_lazy_complete]; assumption.
  - rewrite <- app_assoc. apply IH1, IH2.
    rewrite length_app, Nat.add_assoc in Hk. exact Hk.
  - destruct (IH k Hk) as [res Hres]. rewrite Hres. eexists. reflexivity.
  - destruct (rmatch r1 pos (w ++ rest) cs k); [eexists; reflexivity|].
    exact (IH k Hk).
  - rewrite Nat.add_0_r in Hk. exact Hk.
  - apply IH.
    replace (pos + length w - pos)%nat with (length w) by lia.
    rewrite take_app_length. exact Hk.
  - exact Hk.
  - rewrite Nat.add_0_r in Hk. exact Hk.
Qed.

Lemma match_at_complete r pos w rest cs :
  matches r pos w rest [] cs -> is_Some (match_at r pos (w ++ rest)).
Proof.
  intros Hm. unfold match_at. apply (rmatch_complete r pos w rest [] cs Hm).
  eexists. reflexivity.
Qed.

Lemma matches_seq r1 r2 w w1 w2 pos rest cs cs1 cs2 :
  w = w1 ++ w2 ->
  matches r1 pos w1 (w2 ++ rest) cs cs1 ->
  matches r2 (pos + length w1)%nat w2 rest cs1 cs2 ->
  matches (Seq r1 r2) pos w rest cs cs2.
Proof. intros ->. apply matches_Seq. Qed.

Lemma matches_lit3 (x1 x2 x3 : ascii) (tok : text) pos rest cs :
  map lower tok = map lower [x1; x2; x3] ->
  matches (Seq (Chr (is_char true x1)) (Seq (Chr (is_char true x2))
             (Seq (Chr (is_char true x3)) Empty))) pos tok rest cs cs.
Proof.
  destruct tok as [|c1 [|c2 [|c3 [|]]]]; try discriminate.
  intros [= H1 H2 H3].
  eapply (matches_seq _ _ _ [c1] [c2; c3]); [reflexivity| |].
  { constructor. unfold is_char. rewrite H1. apply Ascii.eqb_refl. }
  eapply (matches_seq _ _ _ [c2] [c3]); [reflexivity| |].
  { constructor. unfold is_char. rewrite H2. apply Ascii.eqb_refl. }
  eapply (matches_seq _ _ _ [c3] []); [reflexivity| |].
  { constructor. unfold is_char. rewrite H3. apply Ascii.eqb_refl. }
  constructor.
Qed.

Lemma matches_lit4 (x1 x2 x3 x4 : ascii) (tok : text) pos rest cs :
  map lower tok = map lower [x1; x2; x3; x4] ->
  matches (Seq (Chr (is_char true x1)) (Seq (Chr (is_char true x2))
             (Seq (Chr (is_char true x3)) (Seq (Chr (is_char true x4)) Empty))))
          pos tok rest cs cs.
Proof.
  destruct tok as [|c1 [|c2 [|c3 [|c4 [|]]]]]; try discriminate.
  intros [= H1 H2 H3 H4].
  eapply (matches_seq _ _ _ [c1] [c2; c3; c4]); [reflexivity| |].
  { constructor. unfold is_char. rewrite H1. apply Ascii.eqb_refl. }
  eapply (matches_seq _ _ _ [c2] [c3; c4]); [reflexivity| |].
  { constructor. unfold is_char. rewrite H2. apply Ascii.eqb_refl. }
  eapply (matches_seq _ _ _ [c3] [c4]); [reflexivity| |].
  { constructor. unfold is_char. rewrite H3. apply Ascii.eqb_refl. }
  eapply (matches_seq _ _ _ [c4] []); [reflexivity| |].
  { constructor. unfold is_char. rewrite H4. apply Ascii.eqb_refl. }
  constructor.
Qed.

(** Every text of the shape is a match of the dimension pattern. *)
Lemma matchDimSpec_matches s :
  dimSpec_shape s -> exists cs, matches groupSpec_matchDimSpec 0 s [] [] cs.
Proof.
  intros (lw & name & tail & -> & Hlw & Hne & Hname & Htail).
  destruct name as [|c name]; [contradiction|].
  apply Forall_cons in Hname as [Hc Hname].
  assert (Hn : forall rest cs,
             matches dimSpec_name (0 + length lw) (c :: name) rest cs
                     ((1%nat, c :: name) :: cs)).
  { intros rest cs. constructor.
    eapply (matches_seq _ _ _ [c] name); [reflexivity|constructor; exact Hc|].
    constructor. exact Hname. }
  destruct Htail as [Htail|(ws & tok & tw & -> & Hws & Hsp & Htw & Htok)].
  - eexists. unfold groupSpec_matchDimSpec.
    eapply (matches_seq _ _ _ [] (lw ++ (c :: name) ++ tail)); [reflexivity|constructor|].
    eapply (matches_seq _ _ _ lw ((c :: name) ++ tail)); [reflexivity|constructor; exact Hlw|].
    eapply (matches_seq _ _ _ (c :: name) tail); [reflexivity|apply Hn|].
    eapply (matches_seq _ _ _ [] tail); [reflexivity|apply matches_Alt_r; constructor|].
    eapply (matches_seq _ _ _ tail []); [symmetry; apply app_nil_r|constructor; exact Htail|].
    constructor.
  - destruct ws as [|x ws]; [contradiction|].
    apply Forall_cons in Hsp as [Hx Hsp].
    eexists. unfold groupSpec_matchDimSpec.
    eapply (matches_seq _ _ _ [] (lw ++ (c :: name) ++ (x :: ws) ++ tok ++ tw));
      [reflexivity|constructor|].
    eapply (matches_seq _ _ _ lw ((c :: name) ++ (x :: ws) ++ tok ++ tw));
      [reflexivity|constructor; exact Hlw|].
    eapply (matches_seq _ _ _ (c :: name) ((x :: ws) ++ tok ++ tw));
      [reflexivity|apply Hn|].
    eapply (matches_seq _ _ _ ((x :: ws) ++ tok) tw);
      [rewrite <- app_assoc; reflexivity| |].
    + apply matches_Alt_l. unfold dimSpec_order.
      eapply (matches_seq _ _ _ (x :: ws) tok); [reflexivity| |].
      * eapply (matches_seq _ _ _ [x] ws); [reflexivity|constructor; exact Hx|].
        constructor. exact Hsp.
      * constructor. destruct Htok as [Htok|Htok].
        { apply matches_Alt_l. apply matches_lit3. exact Htok. }
        { apply matches_Alt_r. apply matches_lit4. exact Htok. }
    + eapply (matches_seq _ _ _ tw []); [symmetry; apply app_nil_r|constructor; exact Htw|].
      constructor.
Qed.

(** The dimension pattern accepts exactly the texts of the shape. *)
Lemma matchDimSpec_shape (s : string) :
  is_Some (exec groupSpec_matchDimSpec s) <-> dimSpec_shape (list_ascii_of_string s).
Proof.
  split.
  - intros [cs Hexec]. revert Hexec.
    unfold groupSpec_matchDimSpec. rewrite exec_Bol.
    destruct (match_at _ _ _) as [[n cs']|] eqn:Hm; [|discriminate].
    intros _. apply match_at_sound in Hm as (w & rest & Hs & _ & Hm).
    rewrite Hs. clear Hs.
    cbv [dimSpec_name dimSpec_order dimSpec_end lit fold_right list_ascii_of_string] in Hm.
    invert_matches.
    all: match goal with
         | |- dimSpec_shape (([] ++ ?a ++ ?b ++ ?t ++ ?tw ++ []) ++ []) =>
           exists a, b, (t ++ tw)
         end.
    all: split; [simpl; rewrite ?app_nil_r, <- ?app_assoc; reflexivity|].
    all: split; [assumption|].
    all: split; [discriminate|].
    all: split; [constructor; assumption|].
    3:{ left. assumption. }
    all: right.
    all: match goal with
         | |- exists ws tok tw, (?a ++ ?b) ++ ?c = _ /\ _ => exists a, b, c
         end.
    all: split; [rewrite <- app_assoc; reflexivity|].
    all: split; [discriminate|].
    all: split; [constructor; assumption|].
    all: split; [assumption|].
    all: repeat match goal with
                | H : is_char true _ _ = true |- _ => apply is_char_lower in H
                end.
    all: simpl map.
    all: repeat match goal with
                | H : lower _ = lower _ |- _ => rewrite H; clear H
                end.
    + left. reflexivity.
    + right. reflexivity.
  - intros Hshape. destruct (matchDimSpec_matches _ Hshape) as [cs Hm].
    unfold groupSpec_matchDimSpec in *. rewrite exec_Bol.
    pose proof (match_at_complete _ 0 _ [] cs Hm) as [res Hres].
    rewrite app_nil_r in Hres. rewrite Hres. eexists. reflexivity.
Qed.

(** *** Every text splits *)

Lemma spaces_prefix s :
  exists ws rest,
    s = ws ++ rest /\ Forall (fun x => is_space x = true) ws /\ stops is_space rest.
Proof.
  induction s as [|x s (ws & rest & E & Hws & Hrest)].
  - exists [], []. split; [reflexivity|]. split; [constructor|exact I].
  - destruct (is_space x) eqn:Hx.
    + exists (x :: ws), rest. split; [rewrite E; reflexivity|].
      split; [constructor; assumption|exact Hrest].
    + exists [], (x :: s). split; [reflexivity|]. split; [constructor|exact Hx].
Qed.

Lemma spaces_suffix s :
  exists f ws,
    s = f ++ ws /\ Forall (fun x => is_space x = true) ws /\ stops is_space (rev f).
Proof.
  destruct (spaces_prefix (rev s)) as (ws & rest & E & Hws & Hrest).
  exists (rev rest), (rev ws). split.
  - rewrite <- rev_app_distr, <- E, rev_involutive. reflexivity.
  - split; [|rewrite rev_involutive; exact Hrest].
    apply Forall_forall. intros x Hx. rewrite Forall_forall in Hws.
    apply Hws. apply list_elem_of_In, in_rev, list_elem_of_In. exact Hx.
Qed.

Lemma split_decompose (c : ascii) s :
  c ∈ s ->
  exists f ws1 ws2 rest,
    s = f ++ ws1 ++ c :: ws2 ++ rest
    /\ Forall (fun x => x <> c) f /\ stops is_space (rev f)
    /\ Forall (fun x => is_space x = true) ws1
    /\ Forall (fun x => is_space x = true) ws2
    /\ stops is_space rest.
Proof.
  intros Hin. apply list_elem_of_split_l in Hin as (l1 & l2 & -> & Hnot).
  destruct (spaces_suffix l1) as (f & ws1 & -> & Hws1 & Hf).
  destruct (spaces_prefix l2) as (ws2 & rest & -> & Hws2 & Hrest).
  exists f, ws1, ws2, rest. split; [rewrite <- app_assoc; reflexivity|].
  split; [|repeat (split; [assumption|]); exact Hrest].
  apply Forall_forall. intros x Hx ->. apply Hnot, elem_of_app. left. exact Hx.
Qed.

(** [split] computes the fragments around the separators. *)
Lemma split_text_of (c : ascii) s :
  is_space c = false -> split_of c s (split_text (sep_regex c) s).
Proof.
  intros Hc. remember (length s) as n eqn:Hn. revert s Hn.
  induction n as [n IH] using lt_wf_ind. intros s ->.
  destruct (decide (c ∈ s)) as [Hin|Hnot].
  - destruct (split_decompose c s Hin)
      as (f & ws1 & ws2 & rest & -> & Hf & Hend & H1 & H2 & Hrest).
    rewrite (split_text_cons c f ws1 ws2 rest Hc Hf Hend H1 H2 Hrest).
    apply split_of_cons; try assumption.
    apply (IH (length rest)); [|reflexivity].
    rewrite !length_app. simpl. rewrite length_app. lia.
  - assert (Hf : Forall (fun x => x <> c) s).
    { apply Forall_forall. intros x Hx ->. contradiction. }
    rewrite (split_text_last c s Hc Hf). apply split_of_last. exact Hf.
Qed.

Lemma count_occ_none (c : ascii) f :
  Forall (fun x => x <> c) f -> count_occ ascii_dec f c = 0%nat.
Proof.
  induction 1 as [|x f Hx _ IH]; simpl; [reflexivity|].
  destruct (ascii_dec x c); [contradiction|exact IH].
Qed.

Lemma count_occ_spaces (c : ascii) ws :
  is_space c = false -> Forall (fun x => is_space x = true) ws ->
  count_occ ascii_dec ws c = 0%nat.
Proof.
  intros Hc Hws. apply count_occ_none.
  eapply Forall_impl; [exact Hws|]. intros x Hx ->. congruence.
Qed.

Lemma split_of_length (c : ascii) s fragments :
  is_space c = false -> split_of c s fragments ->
  length fragments = S (count_occ ascii_dec s c).
Proof.
  intros Hc. induction 1 as [f Hf|f ws1 ws2 rest fragments Hf _ H1 H2 _ _ IH]; simpl.
  - rewrite (count_occ_none c f Hf). reflexivity.
  - rewrite IH, !count_occ_app. simpl. rewrite count_occ_app.
    rewrite (count_occ_none c f Hf), (count_occ_spaces c ws1 Hc H1),
      (count_occ_spaces c ws2 Hc H2).
    destruct (ascii_dec c c); [reflexivity|contradiction].
Qed.

Lemma split_of_plain (c : ascii) s fragments :
  split_of c s fragments -> Forall (Forall (fun x => x <> c)) fragments.
Proof.
  induction 1; constructor; (assumption || constructor).
Qed.

Lemma split_of_head (c : ascii) s f fragments :
  split_of c s (f :: fragments) -> stops is_space s -> stops is_space f.
Proof.
  intros H Hs. inversion H; subst; [exact Hs|].
  match goal with |- stops _ ?x => destruct x; [exact I|exact Hs] end.
Qed.

Lemma split_of_trimmed (c : ascii) s fragments :
  split_of c s fragments ->
  forall i f,
    fragments !! i = Some f ->
    ((0 < i)%nat -> stops is_space f)
    /\ ((S i < length fragments)%nat -> stops is_space (rev f)).
Proof.
  induction 1 as [f0 Hf|f0 ws1 ws2 rest fragments Hf Hend H1 H2 Hrest Hsplit IH];
    intros i f Hi.
  - destruct i; [|discriminate]. simpl. split; lia.
  - destruct i as [|j]; simpl in Hi.
    + injection Hi as <-. split; [lia|]. intros _. exact Hend.
    + destruct (IH j f Hi) as [Hstart Hstop]. split.
      * intros _. destruct j as [|j]; [|apply Hstart; lia].
        destruct fragments as [|f1 fragments]; [discriminate|].
        injection Hi as <-. exact (split_of_head c rest f1 fragments Hsplit Hrest).
      * intros Hlt. apply Hstop. simpl in Hlt. lia.
Qed.

(** X14: the fragments of [split]. For a separator character that is
    not white space, as the comma and the pipe, a text with [n]
    occurrences of it splits into [n + 1] fragments, empty ones
    included; no fragment has the character; and the white space next
    to a separator is dropped: only the first fragment may start with
    white space and only the last may end with it. *)
Theorem split_fragments (c : ascii) (s : string) :
  is_space c = false ->
  let fragments := map list_ascii_of_string (split (sep_regex c) s) in
  length fragments = S (count_occ ascii_dec (list_ascii_of_string s) c)
  /\ Forall (Forall (fun x => x <> c)) fragments
  /\ forall i f,
       fragments !! i = Some f ->
       ((0 < i)%nat -> stops is_space f)
       /\ ((S i < length fragments)%nat -> stops is_space (rev f)).
Proof.
  intros Hc fragments.
  assert (E : fragments = split_text (sep_regex c) (list_ascii_of_string s)).
  { unfold fragments, split. rewrite map_map.
    erewrite map_ext; [apply map_id|].
    intros f. apply list_ascii_of_string_of_list_ascii. }
  pose proof (split_text_of c (list_ascii_of_string s) Hc) as Hsplit.
  rewrite <- E in Hsplit. split; [exact (split_of_length c _ _ Hc Hsplit)|].
  split; [exact (split_of_plain c _ _ Hsplit)|exact (split_of_trimmed c _ _ Hsplit)].
Qed.

(** *** Empty places between pipes *)




End MatcherProperties.

(** ** Properties of parsing *)

Section ParseProperties.

Context {Atom : Type}.

Implicit Types (h : heap Atom) (type : ComplexType Atom).

(** C5, amended: construction fails with an argument-required error
    when [levelSpecs] or [complexType] is absent, and with an
    argument-invalid error when no level remains once the levels
    without dimensions are filtered out; consequently
    [GroupingSpec.parse] of an empty array fails with ArgumentInvalid,
    whereas [parse] of an empty string fails with ArgumentRequired, the
    empty string counting as a missing [specText]; [parse] also fails
    argument-required when [specText] or [type] is missing. *)
Theorem construction_errors (given : list (GroupingLevelSpec Atom))
    (complexType : option (ComplexType Atom)) type (keyArgs : option KeyArgs)
    (specText : option SpecText) h :
  GroupingSpec_init None complexType keyArgs = Err (ArgumentRequired "levelSpecs")
  /\ GroupingSpec_init (Some given) None keyArgs = Err (ArgumentRequired "complexType")
  /\ (filter (fun l => (0 < length (ls_dimensions l))%nat) given = [] ->
      GroupingSpec_init (Some given) (Some type) keyArgs =
      Err (ArgumentInvalid "levelSpecs" "Must have at least one element." []))
  /\ GroupingSpec_parse (Some (SpecArray [])) (Some type) h =
     (Err (ArgumentInvalid "levelSpecs" "Must have at least one element." []), h)
  /\ GroupingSpec_parse (Some (SpecString "")) complexType h =
     (Err (ArgumentRequired "groupingSpecText"), h)
  /\ GroupingSpec_parse None complexType h =
     (Err (ArgumentRequired "groupingSpecText"), h)
  /\ (specText_truthy specText = true ->
      GroupingSpec_parse specText None h = (Err (ArgumentRequired "type"), h)).
Proof.
  split; [reflexivity|]. split; [reflexivity|]. split.
  { intros Hnone. rewrite init_unfold. cbv zeta. rewrite Hnone. reflexivity. }
  split; [reflexivity|]. split; [reflexivity|]. split; [reflexivity|].
  intros Htruthy. unfold GroupingSpec_parse. rewrite Htruthy. reflexivity.
Qed.

Lemma mapM_result_Forall {A B : Type} (f : A -> result B) (P : B -> Prop)
    (xs : list A) (ys : list B) :
  (forall x y, f x = Ok y -> P y) -> mapM f xs = Ok ys -> Forall P ys.
Proof.
  intros Hf. revert ys. induction xs as [|x xs IH]; intros ys Hys; simpl in Hys.
  - injection Hys as <-. constructor.
  - destruct (f x) as [y|e] eqn:Hy; [|discriminate]. simpl in Hys.
    destruct (mapM f xs) as [ys'|e]; [|discriminate]. simpl in Hys.
    injection Hys as <-. constructor; [exact (Hf x y Hy)|exact (IH ys' eq_refl)].
Qed.

Lemma parseDimSpec_wf type (dimSpecText : string) d :
  parseDimSpec type dimSpecText = Ok d -> dimSpec_wf d.
Proof.
  unfold parseDimSpec. destruct (exec groupSpec_matchDimSpec dimSpecText); [|discriminate].
  destruct (ct_dimensions type _) as [dimType|e]; [|discriminate].
  simpl. intros [= <-]. reflexivity.
Qed.

(** A successful [parse] allocates one object and keeps the store well
    formed. *)
Lemma parse_wf h (specText : option SpecText) (type : option (ComplexType Atom)) l h' :
  heap_wf h -> GroupingSpec_parse specText type h = (Ok l, h') ->
  heap_wf h' /\ l = length h /\ exists g, h' = h ++ [g].
Proof.
  intros Hwf. unfold GroupingSpec_parse.
  destruct (specText_truthy specText); [|discriminate].
  destruct type as [type|]; [|discriminate]. simpl negb. cbv iota.
  unfold M_bind, lift.
  destruct (mapM _ _) as [levelSpecs|e] eqn:Hlevels; [|discriminate].
  unfold GroupingSpec_new, M_bind, lift, alloc.
  destruct (GroupingSpec_init _ _ _) as [g|e] eqn:Hinit; [|discriminate].
  intros [= <- <-]. split; [|split; [reflexivity|exists g; reflexivity]].
  pose proof Hinit as Hinv. apply init_Ok_inv in Hinv as (Hl & _ & Ht & _ & _ & _ & Hclear).
  apply heap_wf_alloc; [exact Hwf| |exact Hclear].
  split.
  - rewrite Hl. apply Forall_forall. intros level Hlevel.
    apply list_elem_of_filter in Hlevel as [_ Hlevel]. revert level Hlevel.
    apply Forall_forall.
    refine (mapM_result_Forall _ _ _ _ _ Hlevels).
    intros levelText level Hlevel.
    destruct (groupSpec_parseGroupingLevel levelText type)
      as [dimSpecs|e] eqn:Hdims; [|discriminate].
    simpl in Hlevel. injection Hlevel as <-. apply init_levelSpec_wf.
    exact (mapM_result_Forall _ _ _ _ (parseDimSpec_wf type) Hdims).
  - exists levelSpecs, None. rewrite Ht, Hclear. exact Hinit.
Qed.

(** *** Dimension fragments *)

Lemma toLowerCase_text (tok : text) :
  toLowerCase (string_of_list_ascii tok) = string_of_list_ascii (map lower tok).
Proof. unfold toLowerCase. rewrite list_ascii_of_string_of_list_ascii. reflexivity. Qed.

Lemma exec_matchDimSpec (s : text) :
  exec groupSpec_matchDimSpec (string_of_list_ascii s)
  = snd <$> match_at groupSpec_matchDimSpec 0 s.
Proof.
  unfold groupSpec_matchDimSpec. rewrite exec_Bol, list_ascii_of_string_of_list_ascii.
  reflexivity.
Qed.

(** Every fragment accepted as a dimension is a name, possibly followed
    by a token; the order is reversed exactly when the token reads
    [desc]. *)
Lemma parseDimSpec_sound type (dimSpecText : string) d :
  parseDimSpec type dimSpecText = Ok d ->
  exists lw name tail dimType,
    list_ascii_of_string dimSpecText = lw ++ name ++ tail
    /\ Forall (fun c => is_space c = true) lw
    /\ name <> []
    /\ ct_dimensions type (string_of_list_ascii name) = Ok dimType
    /\ ((Forall (fun c => is_space c = true) tail
         /\ d = GroupingDimensionSpec_init dimType false)
        \/ exists ws tok tw,
            tail = ws ++ tok ++ tw
            /\ ws <> []
            /\ Forall (fun c => is_space c = true) ws
            /\ Forall (fun c => is_space c = true) tw
            /\ ((map lower tok = list_ascii_of_string "asc"
                 /\ d = GroupingDimensionSpec_init dimType false)
                \/ (map lower tok = list_ascii_of_string "desc"
                    /\ d = GroupingDimensionSpec_init dimType true))).
Proof.
  unfold parseDimSpec.
  destruct (exec groupSpec_matchDimSpec dimSpecText) as [cs|] eqn:Hexec; [|discriminate].
  destruct (matchDimSpec_sound dimSpecText cs Hexec)
    as (lw & name & tail & Htext & Hlw & Hne & Hname & Horder).
  unfold capture_string. rewrite Hname. simpl default.
  destruct (ct_dimensions type (string_of_list_ascii name)) as [dimType|e] eqn:Hdim;
    [|discriminate].
  simpl. intros [= <-]. exists lw, name, tail, dimType.
  repeat (split; [assumption|]).
  destruct Horder as [[Htail Hnone]|(ws & tok & tw & -> & Hws & Hsp & Htw & Htok & Hlower)].
  - left. split; [exact Htail|]. rewrite Hnone. reflexivity.
  - right. exists ws, tok, tw. split; [reflexivity|].
    repeat (split; [assumption|]).
    rewrite Htok. simpl fmap. rewrite or_else_Some, toLowerCase_text.
    destruct Hlower as [H|H]; rewrite H; [left|right]; split; reflexivity.
Qed.



(** *** Written specifications *)


Lemma string_of_text_nonempty (f : text) : f <> [] -> string_of_list_ascii f <> "".
Proof. destruct f; [contradiction|discriminate]. Qed.

Lemma split_string r (s : text) :
  split r (string_of_list_ascii s) = map string_of_list_ascii (split_text r s).
Proof. unfold split. rewrite list_ascii_of_string_of_list_ascii. reflexivity. Qed.




(** *** Syntax errors and unknown names *)

(** X15: which fragments are dimensions. A fragment made of white
    space, a name of characters other than line terminators, possibly
    white space and a token that reads [asc] or [desc] up to case, and
    white space, is accepted: the complex type is asked for a name
    that is not empty, and only what it throws can make the fragment
    fail. Every other fragment fails with ArgumentInvalid, the message
    quoting the fragment, and the complex type is not asked. *)
Theorem parseDimSpec_syntax type (dimSpecText : string) :
  (dimSpec_shape (list_ascii_of_string dimSpecText) ->
   exists (name : string) (reverse : bool),
     name <> ""
     /\ parseDimSpec type dimSpecText
        = (dimType ← ct_dimensions type name;
           Ok (GroupingDimensionSpec_init dimType reverse)))
  /\ (~ dimSpec_shape (list_ascii_of_string dimSpecText) ->
      forall type' : ComplexType Atom,
        parseDimSpec type' dimSpecText
        = Err (ArgumentInvalid "groupLevelText" "Invalid grouping level syntax '{0}'."
                               [dimSpecText])).
Proof.
  split.
  - intros Hshape. apply matchDimSpec_shape in Hshape as [cs Hexec].
    destruct (matchDimSpec_sound dimSpecText cs Hexec)
      as (lw & name & tail & _ & _ & Hne & Hname & _).
    exists (string_of_list_ascii name),
           (String.eqb (toLowerCase (or_else (capture_string cs 2) "")) "desc").
    split; [apply string_of_text_nonempty; exact Hne|].
    unfold parseDimSpec. rewrite Hexec. unfold capture_string.
    rewrite Hname. reflexivity.
  - intros Hnot type'. unfold parseDimSpec.
    destruct (exec groupSpec_matchDimSpec dimSpecText) as [cs|] eqn:Hexec;
      [|reflexivity].
    exfalso. apply Hnot, matchDimSpec_shape. exists cs. exact Hexec.
Qed.

Lemma filter_Forall {A : Type} (P Q : A -> Prop) `{forall x, Decision (P x)} (xs : list A) :
  Forall Q xs -> Forall Q (filter P xs).
Proof.
  intros HQ. apply Forall_forall. intros x Hx.
  apply list_elem_of_filter in Hx as [_ Hx]. rewrite Forall_forall in HQ. exact (HQ x Hx).
Qed.

(** X16: [parse] is all or nothing. When it throws, the store is as
    it was. When it returns, exactly one object was allocated, at the
    end of the store, and it is returned; its type is the complex
    type given, its flattening mode is null, its root label is empty,
    no cache slot is set, and every dimension specification was made
    by the constructor from a dimension type that the complex type
    gave for a non-empty name. *)
Theorem parse_allocates (specText : option SpecText) (type : option (ComplexType Atom)) h :
  match GroupingSpec_parse specText type h with
  | (Err _, h') => h' = h
  | (Ok l, h') =>
    l = length h
    /\ exists g ty,
        h' = h ++ [g]
        /\ type = Some ty
        /\ gs_type g = ty
        /\ gs_flatteningMode g = None
        /\ gs_flattenRootLabel g = ""
        /\ clear_caches g = g
        /\ Forall (fun d => exists (name : string) dimType (reverse : bool),
                      name <> ""
                      /\ ct_dimensions ty name = Ok dimType
                      /\ d = GroupingDimensionSpec_init dimType reverse)
                  (GroupingSpec_dimensions g)
  end.
Proof.
  unfold GroupingSpec_parse.
  destruct (specText_truthy specText); [|reflexivity].
  destruct type as [type|]; [|reflexivity]. simpl negb. cbv iota.
  unfold M_bind, lift.
  destruct (mapM _ _) as [levelSpecs|e] eqn:Hlevels; [|reflexivity].
  unfold GroupingSpec_new, M_bind, lift, alloc.
  destruct (GroupingSpec_init _ _ _) as [g|e] eqn:Hinit; [|reflexivity].
  split; [reflexivity|]. exists g, type. split; [reflexivity|]. split; [reflexivity|].
  apply init_Ok_inv in Hinit as (Hl & _ & Ht & Hm & Hlab & _ & Hclear).
  split; [exact Ht|]. split; [exact Hm|]. split; [exact Hlab|]. split; [exact Hclear|].
  unfold GroupingSpec_dimensions. rewrite Hl.
  apply Forall_concat, Forall_fmap, filter_Forall.
  refine (mapM_result_Forall _ _ _ _ _ Hlevels).
  intros levelText level Hlevel.
  destruct (groupSpec_parseGroupingLevel levelText type) as [dimSpecs|e] eqn:Hdims;
    [|discriminate].
  simpl in Hlevel. injection Hlevel as <-. simpl.
  refine (mapM_result_Forall _ _ _ _ _ Hdims).
  intros dimSpecText d Hd.
  destruct (parseDimSpec_sound type dimSpecText d Hd)
    as (lw & name & tail & dimType & _ & _ & Hne & Hdim & Hcase).
  exists (string_of_list_ascii name), dimType.
  destruct Hcase as [[_ ->]|(ws & tok & tw & _ & _ & _ & _ & [[_ ->]|[_ ->]])];
    eexists; (split; [apply string_of_text_nonempty; exact Hne|]);
    (split; [exact Hdim|reflexivity]).
Qed.

Lemma mapM_result_ext {A B C : Type} (f : B -> result C) (g : A -> B)
    (k : A -> result C) (xs : list A) :
  Forall (fun x => f (g x) = k x) xs -> mapM f (map g xs) = mapM k xs.
Proof.
  induction 1 as [|x xs Hx _ IH]; simpl; [reflexivity|].
  rewrite Hx, IH. reflexivity.
Qed.

Lemma mapM_result_Ok {A B : Type} (f : A -> result B) (xs : list A) :
  Forall (fun x => exists y, f x = Ok y) xs -> exists ys, mapM f xs = Ok ys.
Proof.
  induction 1 as [|x xs [y Hy] _ [ys IH]]; simpl; [eexists; reflexivity|].
  rewrite Hy. simpl. rewrite IH. eexists. reflexivity.
Qed.

Lemma mapM_result_err {A B : Type} (f : A -> result B) (xs : list A) (x : A)
    (ys : list A) (e : error) :
  Forall (fun x => exists y, f x = Ok y) xs -> f x = Err e ->
  mapM f (xs ++ x :: ys) = Err e.
Proof.
  intros Hxs Hx. induction Hxs as [|x0 xs [y Hy] _ IH]; simpl.
  - rewrite Hx. reflexivity.
  - rewrite Hy. simpl. rewrite IH. reflexivity.
Qed.

(** A written dimension resolves its name, whatever the type answers. *)
Lemma parseDimSpec_written_any type gap (d : written_dim) :
  gap <> [] -> Forall (fun x => is_space x = true) gap -> well_written d ->
  parseDimSpec type (string_of_list_ascii (render_dim gap d))
  = (dimType ← ct_dimensions type (string_of_list_ascii (fst d));
     Ok (GroupingDimensionSpec_init dimType (written_reverse d))).
Proof.
  intros Hne Hgap (Hname & Hchars & Htok).
  assert (Hsp : Forall (fun c => is_space c = false) (fst d)).
  { eapply Forall_impl; [exact Hchars|]. intros c (Hc & _). exact Hc. }
  unfold parseDimSpec, render_dim, written_reverse. rewrite exec_matchDimSpec.
  destruct (snd d) as [tok|].
  - pose proof (matchDimSpec_name_order [] (fst d) gap tok [] (List.Forall_nil _)
                  Hname Hsp Hne Hgap Htok (List.Forall_nil _)) as Hm.
    rewrite !app_nil_r in Hm. change ([] ++ fst d ++ gap ++ tok) with (fst d ++ gap ++ tok) in Hm.
    rewrite Hm. unfold capture_string. cbn [fmap option_fmap option_map snd].
    change (capture [(2%nat, tok); (1%nat, fst d)] 1) with (Some (fst d)).
    change (capture [(2%nat, tok); (1%nat, fst d)] 2) with (Some tok).
    cbn [fmap option_fmap option_map default from_option id].
    rewrite or_else_Some, toLowerCase_text.
    destruct (ct_dimensions type (string_of_list_ascii (fst d))); [|reflexivity].
    simpl. destruct Htok as [H|H]; rewrite H; reflexivity.
  - pose proof (matchDimSpec_name [] (fst d) [] (List.Forall_nil _) Hname Hsp
                  (List.Forall_nil _)) as Hm.
    rewrite !app_nil_r in Hm. change ([] ++ fst d) with (fst d) in Hm.
    rewrite Hm. simpl.
    destruct (ct_dimensions type (string_of_list_ascii (fst d))); reflexivity.
Qed.

Lemma parseGroupingLevel_written_any type pad gap (dims : list written_dim) :
  Forall (fun x => is_space x = true) pad ->
  gap <> [] -> Forall (fun x => is_space x = true) gap ->
  Forall well_written dims ->
  groupSpec_parseGroupingLevel (string_of_list_ascii (render_level pad gap dims)) type
  = mapM (fun d => dimType ← ct_dimensions type (string_of_list_ascii (fst d));
                   Ok (GroupingDimensionSpec_init dimType (written_reverse d)))
         dims.
Proof.
  intros Hpad Hne Hgap Hdims. unfold groupSpec_parseGroupingLevel.
  rewrite split_string. destruct dims as [|d dims]; [reflexivity|].
  unfold render_level. rewrite split_render_list; [|reflexivity|exact Hpad|discriminate|].
  2:{ apply Forall_fmap. eapply Forall_impl; [exact Hdims|]. intros d0 Hd0.
      exact (proj2 (render_dim_plain gap d0 "|"%char (or_intror eq_refl) Hgap Hd0)). }
  rewrite map_map, filter_all.
  2:{ apply Forall_fmap. eapply Forall_impl; [exact Hdims|]. intros d0 Hd0.
      apply string_of_text_nonempty.
      exact (proj1 (render_dim_plain gap d0 "|"%char (or_intror eq_refl) Hgap Hd0)). }
  apply mapM_result_ext.
  eapply Forall_impl; [exact Hdims|]. intros d0 Hd0.
  exact (parseDimSpec_written_any type gap d0 Hne Hgap Hd0).
Qed.

Lemma render_list_nil sep (xs : list text) :
  sep <> [] -> render_list sep xs = [] -> Forall (fun x => x = []) xs.
Proof.
  intros Hsep. destruct xs as [|x [|y ys]]; intros E.
  - constructor.
  - constructor; [exact E|constructor].
  - rewrite render_list_cons in E. apply app_eq_nil in E as [_ E].
    apply app_eq_nil in E as [E _]. contradiction.
Qed.

(** X17: an unknown dimension name. When a specification is written
    from names without white space and the complex type throws for one
    of them, having answered for all the names before it in reading
    order, [parse] throws that very error, whatever comes after the
    name, and the store is as it was. *)
Theorem parse_unresolved_name type (pad_level pad_dim gap : text)
    (levels_before : list (list written_dim)) (dims_before : list written_dim)
    (d : written_dim) (dims_after : list written_dim)
    (levels_after : list (list written_dim)) (e : error) h :
  Forall (fun x => is_space x = true) pad_level ->
  Forall (fun x => is_space x = true) pad_dim ->
  gap <> [] -> Forall (fun x => is_space x = true) gap ->
  Forall (Forall well_written)
         (levels_before ++ (dims_before ++ d :: dims_after) :: levels_after) ->
  Forall (Forall (fun d0 : written_dim => exists dimType,
                      ct_dimensions type (string_of_list_ascii (fst d0)) = Ok dimType))
         levels_before ->
  Forall (fun d0 : written_dim => exists dimType,
              ct_dimensions type (string_of_list_ascii (fst d0)) = Ok dimType)
         dims_before ->
  ct_dimensions type (string_of_list_ascii (fst d)) = Err e ->
  GroupingSpec_parse
    (Some (SpecString
             (string_of_list_ascii
                (render_spec pad_level pad_dim gap
                   (levels_before ++ (dims_before ++ d :: dims_after) :: levels_after)))))
    (Some type) h
  = (Err e, h).
Proof.
  intros Hpl Hpd Hne Hgap Hlevels Hbefore Hdims Herr.
  set (levels := levels_before ++ (dims_before ++ d :: dims_after) :: levels_after) in *.
  set (resolve := fun d0 : written_dim =>
         dimType ← ct_dimensions type (string_of_list_ascii (fst d0));
         Ok (GroupingDimensionSpec_init dimType (written_reverse d0))).
  assert (Hd : well_written d).
  { rewrite Forall_forall in Hlevels.
    assert (Hin : dims_before ++ d :: dims_after ∈ levels).
    { apply elem_of_app. right. apply list_elem_of_here. }
    pose proof (Hlevels _ Hin) as Hlevel. rewrite Forall_forall in Hlevel.
    apply Hlevel, elem_of_app. right. apply list_elem_of_here. }
  assert (Htext : render_spec pad_level pad_dim gap levels <> []).
  { intros E. apply render_list_nil in E; [|discriminate].
    rewrite Forall_forall in E.
    assert (Hnil : render_level pad_dim gap (dims_before ++ d :: dims_after) = []).
    { apply E, list_elem_of_fmap. eexists. split; [reflexivity|].
      apply elem_of_app. right. apply list_elem_of_here. }
    apply render_list_nil in Hnil; [|discriminate].
    rewrite Forall_forall in Hnil.
    assert (Hdnil : render_dim gap d = []).
    { apply Hnil, list_elem_of_fmap. eexists. split; [reflexivity|].
      apply elem_of_app. right. apply list_elem_of_here. }
    exact (proj1 (render_dim_plain gap d ","%char (or_introl eq_refl) Hgap Hd) Hdnil). }
  unfold GroupingSpec_parse.
  assert (Htruthy : specText_truthy
            (Some (SpecString (string_of_list_ascii
                                 (render_spec pad_level pad_dim gap levels)))) = true).
  { simpl. apply negb_true_iff, String.eqb_neq, string_of_text_nonempty, Htext. }
  rewrite Htruthy. cbn [negb]. rewrite split_string. unfold render_spec.
  rewrite split_render_list; [|reflexivity|exact Hpl| |].
  2:{ unfold levels. destruct levels_before; discriminate. }
  2:{ apply Forall_fmap. eapply Forall_impl; [exact Hlevels|]. intros dims Hwritten.
      exact (render_level_tidy pad_dim gap dims Hpd Hgap Hwritten). }
  rewrite map_map.
  rewrite (mapM_result_ext _ _
             (fun dims => dimSpecs ← mapM resolve dims;
                          Ok (GroupingLevelSpec_init dimSpecs))).
  2:{ eapply Forall_impl; [exact Hlevels|]. intros dims Hwritten. simpl.
      rewrite (parseGroupingLevel_written_any type pad_dim gap dims Hpd Hne Hgap Hwritten).
      reflexivity. }
  unfold levels. rewrite (mapM_result_err _ _ _ _ e); [reflexivity| |].
  - eapply Forall_impl; [exact Hbefore|]. intros dims Hres.
    destruct (mapM_result_Ok resolve dims) as [dimSpecs Hok].
    { eapply Forall_impl; [exact Hres|]. intros d0 [dimType Hd0].
      unfold resolve. cbv beta. rewrite Hd0. eexists. reflexivity. }
    rewrite Hok. eexists. reflexivity.
  - rewrite (mapM_result_err resolve _ _ _ e); [reflexivity| |].
    + eapply Forall_impl; [exact Hdims|]. intros d0 [dimType Hd0].
      unfold resolve. cbv beta. rewrite Hd0. eexists. reflexivity.
    + unfold resolve. cbv beta. rewrite Herr. reflexivity.
Qed.

(** *** Empty fragments *)



End ParseProperties.


(** ** Further properties of the derived variants *)

Section DerivedProperties.

Context {Atom : Type}.

Implicit Types (g : GroupingSpec Atom) (h : heap Atom) (this : loc).
Implicit Types (levels : list (GroupingLevelSpec Atom)).
Implicit Types (d : GroupingDimensionSpec Atom).
Implicit Types (keyArgs : option KeyArgs).

Abbreviation has_dimensions := (fun l : GroupingLevelSpec Atom => (0 < length (ls_dimensions l))%nat).

(** The derived fields of an object made by the constructor. *)
Lemma constructed_derived g :
  constructed g ->
  gs_depth g = length (gs_levels g)
  /\ gs_hasCompositeLevels g
     = existsb (fun l => (1 <? length (ls_dimensions l))%nat) (gs_levels g)
  /\ gs_isSingleDimension g
     = (length (gs_levels g) =? 1)%nat && negb (gs_hasCompositeLevels g)
  /\ gs_firstDimension g
     = (gs_levels g !! 0%nat ≫= fun l => ls_dimensions l !! 0%nat)
  /\ gs_id g = default "" (gs_flatteningMode g) +:+ "##" +:+
               gs_flattenRootLabel g +:+ "##" +:+
               join "||" (map ls_id (gs_levels g)).
Proof.
  intros [_ (given & keyArgs & Hinit)].
  rewrite init_unfold in Hinit. cbv zeta in Hinit.
  destruct (Nat.eqb_spec (length (filter (fun l => (0 < length (ls_dimensions l))%nat)
                                          given)) 0) as [|Hlen]; [discriminate|].
  assert (E := f_equal (fun r => match r with Ok x => x | Err _ => g end) Hinit).
  cbv beta iota in E. clear Hinit.
  pose proof (f_equal gs_levels E) as Hlev.
  pose proof (f_equal gs_depth E) as Hdepth.
  pose proof (f_equal gs_hasCompositeLevels E) as Hcomp.
  pose proof (f_equal gs_isSingleDimension E) as Hdim.
  pose proof (f_equal gs_firstDimension E) as Hfirst.
  pose proof (f_equal gs_flatteningMode E) as Hmode.
  pose proof (f_equal gs_flattenRootLabel E) as Hlab.
  pose proof (f_equal gs_id E) as Hid.
  clear E. simpl in Hlev, Hdepth, Hcomp, Hdim, Hfirst, Hmode, Hlab, Hid.
  rewrite Hlev in *. rewrite Hcomp in Hdim.
  split; [congruence|]. split; [congruence|]. split; [congruence|].
  split.
  { rewrite <- Hfirst. destruct (Nat.ltb_spec 0 (length (gs_levels g))); [reflexivity|lia]. }
  rewrite <- Hid, <- Hmode, <- Hlab, or_else_default. reflexivity.
Qed.

Lemma new_run h levels (type : ComplexType Atom) keyArgs :
  levels <> [] -> Forall has_dimensions levels ->
  exists g',
    GroupingSpec_init (Some levels) (Some type) keyArgs = Ok g'
    /\ GroupingSpec_new (Some levels) (Some type) keyArgs h
       = (Ok (length h), h ++ [g'])
    /\ gs_levels g' = levels
    /\ gs_flatteningMode g' =
       (if truthy (def_get keyArgs ka_flatteningMode)
        then def_get keyArgs ka_flatteningMode else None)
    /\ gs_flattenRootLabel g' = or_else (def_get keyArgs ka_flattenRootLabel) "".
Proof.
  intros Hne Hall.
  destruct (init_all_retained levels type keyArgs Hne Hall)
    as (g' & Hinit & Hl & _ & Hm & Hlab & _).
  exists g'. split; [exact Hinit|]. split.
  { unfold GroupingSpec_new, M_bind, lift, alloc. rewrite Hinit. reflexivity. }
  repeat split; assumption.
Qed.

(** X1: on an object of a well-formed store [isDiscrete] never throws:
    the grouping is discrete unless it has exactly one dimension in
    all, and then it is as discrete as the type of that dimension. *)
Theorem isDiscrete_dimensions h this g :
  heap_wf h -> h !! this = Some g ->
  GroupingSpec_isDiscrete g =
  Ok (match GroupingSpec_dimensions g with
      | [d] => dt_isDiscrete (ds_type d)
      | _ => true
      end).
Proof.
  intros Hwf Hthis. destruct (Hwf this g Hthis) as [Hc _ _].
  destruct (constructed_levels g Hc) as (Hne & Hdims & _).
  destruct (constructed_derived g Hc) as (_ & Hcomp & Hsd & Hfirst & _).
  unfold GroupingSpec_isDiscrete, GroupingSpec_dimensions.
  rewrite Hsd, Hfirst, Hcomp.
  destruct (gs_levels g) as [|l [|l' levels]]; [contradiction| |].
  - apply Forall_cons in Hdims as [Hl _]. simpl.
    destruct (ls_dimensions l) as [|d [|d' ds]]; simpl in *;
      [lia|reflexivity|reflexivity].
  - apply Forall_cons in Hdims as [Hl Hdims]. apply Forall_cons in Hdims as [Hl' _].
    destruct (ls_dimensions l) as [|d ds] eqn:El; simpl in Hl; [lia|].
    destruct (ls_dimensions l') as [|d' ds'] eqn:El'; simpl in Hl'; [lia|].
    simpl. rewrite El, El'. destruct ds; reflexivity.
Qed.

(** The names are computed on the first call and read from the cache
    from then on. *)
Lemma dimensionNames_first h this g :
  h !! this = Some g -> gs__dimNames g = None ->
  GroupingSpec_dimensionNames this h
  = (Ok (map ds_name (GroupingSpec_dimensions g)),
     <[this := set__dimNames (map ds_name (GroupingSpec_dimensions g)) g]> h).
Proof.
  intros Hthis Hnone. unfold GroupingSpec_dimensionNames, M_bind, load, update, M_ret.
  rewrite Hthis, Hnone, Hthis. reflexivity.
Qed.

Lemma dimensionNames_cached h this g names :
  h !! this = Some g -> gs__dimNames g = Some names ->
  GroupingSpec_dimensionNames this h = (Ok names, h).
Proof.
  intros Hthis Hsome. unfold GroupingSpec_dimensionNames, M_bind, load, M_ret.
  rewrite Hthis, Hsome. reflexivity.
Qed.

(** X2: [dimensionNames] is memoized. With no names cached yet, the
    first call returns the names of the dimensions of all levels, in
    level order then within-level order, and stores that list in the
    [_dimNames] slot of the receiver, changing nothing else of the
    store; every later call, and [view], which hands the names to
    [complex.view], gets that same list from the cache and leaves the
    store as it is. Whatever list the slot holds is what a call
    returns, the levels not being read again. *)
Theorem dimensionNames_memoized {V : Type} h this g
    (complex_view : list string -> result V) :
  h !! this = Some g -> gs__dimNames g = None ->
  let names := map ds_name (concat (map ls_dimensions (gs_levels g))) in
  (exists h' g1,
     GroupingSpec_dimensionNames this h = (Ok names, h')
     /\ h' !! this = Some g1
     /\ gs__dimNames g1 = Some names
     /\ clear_caches g1 = clear_caches g
     /\ gs__reverseGrouping g1 = gs__reverseGrouping g
     /\ gs__singleLevelGrouping g1 = gs__singleLevelGrouping g
     /\ heap_extends h h'
     /\ length h' = length h
     /\ (forall l, l <> this -> h' !! l = h !! l)
     /\ GroupingSpec_dimensionNames this h' = (Ok names, h')
     /\ GroupingSpec_view this complex_view h' = (complex_view names, h'))
  /\ (forall h0 g0 (cached : list string),
        h0 !! this = Some g0 -> gs__dimNames g0 = Some cached ->
        GroupingSpec_dimensionNames this h0 = (Ok cached, h0)
        /\ GroupingSpec_view this complex_view h0 = (complex_view cached, h0)).
Proof.
  intros Hthis Hnone names. split.
  - pose proof (lookup_lt_Some _ _ _ Hthis) as Hlt.
    exists (<[this := set__dimNames names g]> h), (set__dimNames names g).
    split; [exact (dimensionNames_first h this g Hthis Hnone)|].
    split; [apply list_lookup_insert_eq; exact Hlt|].
    split; [reflexivity|]. split; [reflexivity|]. split; [reflexivity|].
    split; [reflexivity|].
    split; [exact (heap_extends_update h this g (set__dimNames names g) Hthis eq_refl)|].
    split; [apply length_insert|].
    split; [intros l Hl; apply list_lookup_insert_ne; congruence|].
    assert (Hagain : GroupingSpec_dimensionNames this (<[this := set__dimNames names g]> h)
                     = (Ok names, <[this := set__dimNames names g]> h)).
    { apply (dimensionNames_cached _ this (set__dimNames names g));
        [apply list_lookup_insert_eq; exact Hlt|reflexivity]. }
    split; [exact Hagain|].
    unfold GroupingSpec_view, M_bind, lift. rewrite Hagain. reflexivity.
  - intros h0 g0 cached Hg0 Hcached.
    pose proof (dimensionNames_cached h0 this g0 cached Hg0 Hcached) as Hread.
    split; [exact Hread|].
    unfold GroupingSpec_view, M_bind, lift. rewrite Hread. reflexivity.
Qed.

Lemma length_append (s1 s2 : string) :
  String.length (s1 +:+ s2) = (String.length s1 + String.length s2)%nat.
Proof. induction s1 as [|c s1 IH]; simpl; [reflexivity|rewrite IH; reflexivity]. Qed.

Lemma append_inv_l (s t1 t2 : string) : s +:+ t1 = s +:+ t2 -> t1 = t2.
Proof.
  induction s as [|c s IH]; simpl; [exact id|].
  intros [= H]. exact (IH H).
Qed.

Lemma existsb_reversed_levels levels :
  existsb (fun l => (1 <? length (ls_dimensions l))%nat) (reversed_levels levels)
  = existsb (fun l => (1 <? length (ls_dimensions l))%nat) levels.
Proof.
  induction levels as [|l levels IH]; simpl; [reflexivity|].
  rewrite length_map, <- IH. reflexivity.
Qed.

(** After [reversed] the slot of the receiver holds the result. *)
Lemma reversed_cached h this g :
  heap_wf h -> h !! this = Some g ->
  exists r h' g1,
    GroupingSpec_reversed this h = (Ok r, h')
    /\ h' !! this = Some g1
    /\ gs__reverseGrouping g1 = Some r
    /\ (length h' <= S (length h))%nat.
Proof.
  intros Hwf Hthis. destruct (Hwf this g Hthis) as [Hc _ _].
  unfold GroupingSpec_reversed, M_bind, load. rewrite Hthis.
  destruct (gs__reverseGrouping g) as [r|] eqn:Hcache.
  - exists r, h, g. split; [reflexivity|]. split; [exact Hthis|].
    split; [exact Hcache|lia].
  - destruct (constructed_levels g Hc) as (Hne & Hdims & _).
    destruct (new_run h (reversed_levels (gs_levels g)) (gs_type g) (derived_keyArgs g))
      as (g' & _ & Hnew & _).
    { destruct (gs_levels g); [contradiction|discriminate]. }
    { exact (reversed_levels_dimensions _ Hdims). }
    change (GroupingSpec_new _ _ _ h) with
      (GroupingSpec_new (Some (reversed_levels (gs_levels g))) (Some (gs_type g))
                        (derived_keyArgs g) h).
    rewrite Hnew. unfold update, M_ret.
    rewrite (lookup_app_l_Some _ [g'] _ _ Hthis).
    pose proof (lookup_lt_Some _ _ _ Hthis) as Hlt.
    eexists _, _, _. split; [reflexivity|]. split.
    { apply list_lookup_insert_eq. rewrite length_app. simpl. lia. }
    split; [reflexivity|]. rewrite length_insert, length_app. simpl. lia.
Qed.

(** X3: [reversed] is memoized. On a well-formed store the first call
    returns a specification other than the receiver and allocates at
    most one object; a second call returns the very same instance and
    leaves the store as the first call left it. *)
Theorem reversed_memoized h this g :
  heap_wf h -> h !! this = Some g ->
  exists r h',
    GroupingSpec_reversed this h = (Ok r, h')
    /\ r <> this
    /\ (length h' <= S (length h))%nat
    /\ GroupingSpec_reversed this h' = (Ok r, h').
Proof.
  intros Hwf Hthis.
  destruct (reversed_cached h this g Hwf Hthis) as (r & h' & g1 & Hrun & Hg1 & Hslot & Hlen).
  destruct (reversed_spec h this g Hwf Hthis) as (r0 & h0 & _ & Hrun0 & _ & _ & Hlt & _).
  rewrite Hrun in Hrun0. injection Hrun0 as <- <-.
  exists r, h'. split; [exact Hrun|]. split; [lia|]. split; [exact Hlen|].
  unfold GroupingSpec_reversed, M_bind, load, M_ret. rewrite Hg1, Hslot. reflexivity.
Qed.

Lemma reversed_dimensions levels :
  Forall levelSpec_wf levels ->
  Forall2 (fun level level' =>
             Forall2 (fun d d' => ds_type d' = ds_type d /\ ds_name d' = ds_name d
                                  /\ ds_reverse d' = negb (ds_reverse d))
                     (ls_dimensions level) (ls_dimensions level'))
          levels (reversed_levels levels).
Proof.
  intros Hlev. unfold reversed_levels.
  apply Forall2_fmap_r, Forall_Forall2_diag.
  eapply Forall_impl; [exact Hlev|]. intros l [_ Hd]. simpl.
  apply Forall2_fmap_r, Forall_Forall2_diag.
  eapply Forall_impl; [exact Hd|]. intros d Hwfd. simpl.
  split; [reflexivity|]. split; [|reflexivity].
  rewrite Hwfd at 2. reflexivity.
Qed.

(** X4: what [reversed] keeps and what it drops. The reversed
    specification has the type, the depth, the single-level, composite
    and single-dimension flags and the flattening mode of the receiver,
    and level by level the same dimensions, by type and name, each with
    the opposite order; but its root label is the empty string,
    whatever the root label of the receiver. *)
Theorem reversed_fields h this g :
  heap_wf h -> h !! this = Some g ->
  exists r h' g',
    GroupingSpec_reversed this h = (Ok r, h')
    /\ h' !! r = Some g'
    /\ gs_type g' = gs_type g
    /\ gs_depth g' = gs_depth g
    /\ gs_isSingleLevel g' = gs_isSingleLevel g
    /\ gs_hasCompositeLevels g' = gs_hasCompositeLevels g
    /\ gs_isSingleDimension g' = gs_isSingleDimension g
    /\ gs_flatteningMode g' = gs_flatteningMode g
    /\ gs_flattenRootLabel g' = ""
    /\ Forall2 (fun level level' =>
                  Forall2 (fun d d' => ds_type d' = ds_type d /\ ds_name d' = ds_name d
                                       /\ ds_reverse d' = negb (ds_reverse d))
                          (ls_dimensions level) (ls_dimensions level'))
               (gs_levels g) (gs_levels g').
Proof.
  intros Hwf Hthis.
  destruct (reversed_spec h this g Hwf Hthis)
    as (r & h' & g' & Hrun & Hg' & Hrev & _ & Hwf' & _).
  destruct (Hwf this g Hthis) as [Hc _ _].
  destruct (Hwf' r g' Hg') as [Hc' _ _].
  destruct (is_reversed_of_fields g g' Hc Hrev) as (Hl & Ht & Hm & Hlab).
  destruct (constructed_levels g Hc) as (_ & _ & Hlev & Hsingle & _).
  destruct (constructed_levels g' Hc') as (_ & _ & _ & Hsingle' & _).
  destruct (constructed_derived g Hc) as (Hdepth & Hcomp & Hsd & _).
  destruct (constructed_derived g' Hc') as (Hdepth' & Hcomp' & Hsd' & _).
  assert (Hlen : length (gs_levels g') = length (gs_levels g)).
  { rewrite Hl. unfold reversed_levels. apply length_map. }
  assert (Hcomposite : gs_hasCompositeLevels g' = gs_hasCompositeLevels g).
  { rewrite Hcomp', Hcomp, Hl. apply existsb_reversed_levels. }
  exists r, h', g'. split; [exact Hrun|]. split; [exact Hg'|].
  split; [exact Ht|]. split; [congruence|]. split; [congruence|].
  split; [exact Hcomposite|]. split; [congruence|].
  split; [exact Hm|]. split; [exact Hlab|].
  rewrite Hl. exact (reversed_dimensions _ Hlev).
Qed.

Lemma lex_compare_reversed (dims : list (GroupingDimensionSpec Atom)) (a b : Datum Atom) :
  Forall dimSpec_wf dims -> Forall (fun d => reversible (ds_type d)) dims ->
  lex_compare (map reverse_dimSpec dims) a b = lex_compare dims b a.
Proof.
  intros Hwf. induction Hwf as [|d dims Hd _ IH]; intros Hrev; [reflexivity|].
  apply Forall_cons in Hrev as [Hr Hrev].
  assert (Hn : ds_name d = dt_name (ds_type d)) by (rewrite Hd at 1; reflexivity).
  assert (Hcmp : ds_comparer d = dt_atomComparer (ds_type d) (ds_reverse d))
    by (rewrite Hd at 1; reflexivity).
  simpl. rewrite !compareDatums_comparer, (IH Hrev), Hn, Hcmp. simpl.
  rewrite (Hr (ds_reverse d)). reflexivity.
Qed.

Lemma reversed_levels_compare levels :
  Forall levelSpec_wf levels ->
  Forall (fun d => reversible (ds_type d)) (concat (map ls_dimensions levels)) ->
  Forall2 (fun level level' =>
             forall a b : Datum Atom,
               GroupingLevelSpec_compare level' a b =
               GroupingLevelSpec_compare level b a)
          levels (reversed_levels levels).
Proof.
  intros Hlev. induction Hlev as [|l levels [Hinit Hd] _ IH]; intros Hrev;
    [constructor|].
  simpl in Hrev. apply Forall_app in Hrev as [Hrl Hrev].
  simpl. constructor; [|exact (IH Hrev)].
  intros a b. rewrite Hinit at 2. rewrite !compare_lex.
  exact (lex_compare_reversed _ a b Hd Hrl).
Qed.

(** X5: when the comparer that every dimension type gives for the
    opposite order is its comparer with the arguments exchanged, each
    level of the reversed specification compares two datums as the
    level of the receiver compares them the other way round. *)
Theorem reversed_compare_swapped h this g :
  heap_wf h -> h !! this = Some g ->
  Forall (fun d => reversible (ds_type d)) (GroupingSpec_dimensions g) ->
  exists r h' g',
    GroupingSpec_reversed this h = (Ok r, h')
    /\ h' !! r = Some g'
    /\ Forall2 (fun level level' =>
                  forall a b : Datum Atom,
                    GroupingLevelSpec_compare level' a b =
                    GroupingLevelSpec_compare level b a)
               (gs_levels g) (gs_levels g').
Proof.
  intros Hwf Hthis Hrev.
  destruct (reversed_spec h this g Hwf Hthis)
    as (r & h' & g' & Hrun & Hg' & Hof & _).
  destruct (Hwf this g Hthis) as [Hc _ _].
  destruct (is_reversed_of_fields g g' Hc Hof) as (Hl & _).
  destruct (constructed_levels g Hc) as (_ & _ & Hlev & _).
  exists r, h', g'. split; [exact Hrun|]. split; [exact Hg'|].
  rewrite Hl. exact (reversed_levels_compare _ Hlev Hrev).
Qed.

(** X6: reversing twice gives back the identifier of the receiver
    exactly when the receiver has the empty root label: the levels and
    the flattening mode come back, the root label does not. *)
Theorem reversed_twice_id h this g :
  heap_wf h -> h !! this = Some g ->
  exists r h1 rr h2 g'',
    GroupingSpec_reversed this h = (Ok r, h1)
    /\ GroupingSpec_reversed r h1 = (Ok rr, h2)
    /\ h2 !! rr = Some g''
    /\ gs_levels g'' = gs_levels g
    /\ gs_flatteningMode g'' = gs_flatteningMode g
    /\ gs_flattenRootLabel g'' = ""
    /\ (gs_id g'' = gs_id g <-> gs_flattenRootLabel g = "").
Proof.
  intros Hwf Hthis.
  destruct (reversed_spec h this g Hwf Hthis)
    as (r & h1 & g' & Hr & Hg' & Hrev & _ & Hwf1 & _).
  destruct (reversed_spec h1 r g' Hwf1 Hg')
    as (rr & h2 & g'' & Hrr & Hg'' & Hrev' & _ & Hwf2 & _).
  destruct (Hwf this g Hthis) as [Hc _ _].
  destruct (Hwf1 r g' Hg') as [Hc' _ _].
  destruct (Hwf2 rr g'' Hg'') as [Hc'' _ _].
  destruct (is_reversed_of_fields g g' Hc Hrev) as (Hl & _ & Hm & _).
  destruct (is_reversed_of_fields g' g'' Hc' Hrev') as (Hl' & _ & Hm' & Hlab').
  destruct (constructed_levels g Hc) as (_ & _ & Hlev & _).
  assert (Hlevels : gs_levels g'' = gs_levels g).
  { rewrite Hl', Hl. exact (reversed_levels_involutive _ Hlev). }
  exists r, h1, rr, h2, g''.
  split; [exact Hr|]. split; [exact Hrr|]. split; [exact Hg''|].
  split; [exact Hlevels|]. split; [congruence|]. split; [exact Hlab'|].
  destruct (constructed_derived g Hc) as (_ & _ & _ & _ & Hid).
  destruct (constructed_derived g'' Hc'') as (_ & _ & _ & _ & Hid'').
  rewrite Hid, Hid'', Hlevels, Hlab', Hm', Hm. split.
  - intros E. apply append_inv_l, append_inv_l in E.
    apply (f_equal String.length) in E. rewrite !length_append in E.
    destruct (gs_flattenRootLabel g); [reflexivity|simpl in E; lia].
  - intros ->. reflexivity.
Qed.

Lemma singleLevelGrouping_self h this g keyArgs :
  h !! this = Some g -> gs_isSingleLevel g = true ->
  default false (def_get keyArgs ka_reverse) = false ->
  GroupingSpec_singleLevelGrouping this keyArgs h = (Ok this, h).
Proof.
  intros Hthis Hs Hr. unfold GroupingSpec_singleLevelGrouping. cbv zeta.
  unfold M_bind, load. rewrite Hthis, Hs, Hr. reflexivity.
Qed.

(** The second half of [singleLevelGrouping] leaves the result in the
    slot for [reverse]. *)
Lemma singleLevelGrouping_fill_cached h this g (reverse : bool) (cache : gmap bool loc) :
  h !! this = Some g -> constructed g -> gs__singleLevelGrouping g = Some cache ->
  exists s h' g1 cache',
    M_bind (load this) (fun g : GroupingSpec Atom =>
      match default ∅ (gs__singleLevelGrouping g) !! reverse with
      | Some singleLevel => M_ret singleLevel
      | None =>
        let dimSpecs :=
          map (fun dimSpec => if reverse then reverse_dimSpec dimSpec else dimSpec)
              (GroupingSpec_dimensions g) in
        let levelSpec := GroupingLevelSpec_init dimSpecs in
        M_bind
          (GroupingSpec_new (Some [levelSpec]) (Some (gs_type g))
             (Some {| ka_flatteningMode := gs_flatteningMode g;
                      ka_flattenRootLabel := None;
                      ka_reverse := None |}))
          (fun singleLevel =>
             M_bind
               (update this (fun g : GroupingSpec Atom =>
                  set__singleLevelGrouping
                    (<[reverse := singleLevel]>
                       (default ∅ (gs__singleLevelGrouping g))) g))
               (fun _ => M_ret singleLevel))
      end) h = (Ok s, h')
    /\ h' !! this = Some g1
    /\ clear_caches g1 = clear_caches g
    /\ gs__singleLevelGrouping g1 = Some cache'
    /\ cache' !! reverse = Some s
    /\ (length h' <= S (length h))%nat.
Proof.
  intros Hthis Hc Hcache.
  unfold M_bind at 1. unfold load. rewrite Hthis, Hcache.
  change (default ∅ (Some cache)) with cache.
  destruct (cache !! reverse) as [s|] eqn:Hslot.
  - exists s, h, g, cache. split; [reflexivity|].
    repeat (split; [assumption || reflexivity|]). lia.
  - destruct (constructed_levels g Hc) as (Hne & Hdims & _).
    destruct (new_run h [single_level reverse g] (gs_type g) (derived_keyArgs g))
      as (g' & _ & Hnew & _).
    { discriminate. }
    { constructor; [exact (single_level_dimensions reverse g Hne Hdims)|constructor]. }
    cbv zeta. unfold M_bind.
    change (GroupingSpec_new _ _ _ h) with
      (GroupingSpec_new (Some [single_level reverse g]) (Some (gs_type g))
                        (derived_keyArgs g) h).
    rewrite Hnew. unfold update, M_ret.
    pose proof (lookup_lt_Some _ _ _ Hthis) as Hlt.
    rewrite (lookup_app_l_Some _ [g'] _ _ Hthis), Hcache.
    change (default ∅ (Some cache)) with cache.
    eexists _, _, _, _. split; [reflexivity|]. split.
    { apply list_lookup_insert_eq. rewrite length_app. simpl. lia. }
    split; [reflexivity|]. split; [reflexivity|]. split.
    { apply lookup_insert_eq. }
    rewrite length_insert, length_app. simpl. lia.
Qed.

Lemma singleLevelGrouping_cached h this g keyArgs :
  heap_wf h -> h !! this = Some g ->
  gs_isSingleLevel g && negb (default false (def_get keyArgs ka_reverse)) = false ->
  exists s h' g1 cache,
    GroupingSpec_singleLevelGrouping this keyArgs h = (Ok s, h')
    /\ h' !! this = Some g1
    /\ clear_caches g1 = clear_caches g
    /\ gs__singleLevelGrouping g1 = Some cache
    /\ cache !! default false (def_get keyArgs ka_reverse) = Some s
    /\ (length h' <= S (length h))%nat.
Proof.
  intros Hwf Hthis Hguard. destruct (Hwf this g Hthis) as [Hc _ _].
  unfold GroupingSpec_singleLevelGrouping. cbv zeta.
  set (reverse := default false (def_get keyArgs ka_reverse)) in *.
  unfold M_bind at 1. unfold load at 1. rewrite Hthis, Hguard.
  unfold M_bind at 1.
  destruct (gs__singleLevelGrouping g) as [cache|] eqn:Hcache.
  - unfold M_ret at 1.
    exact (singleLevelGrouping_fill_cached h this g reverse cache Hthis Hc Hcache).
  - unfold update at 1. rewrite Hthis.
    pose proof (lookup_lt_Some _ _ _ Hthis) as Hlt.
    set (g0 := set__singleLevelGrouping ∅ g).
    assert (Hthis0 : <[this := g0]> h !! this = Some g0)
      by (apply list_lookup_insert_eq; exact Hlt).
    destruct (singleLevelGrouping_fill_cached _ this g0 reverse ∅ Hthis0
                (constructed_core g g0 eq_refl Hc) eq_refl)
      as (s & h' & g1 & cache' & Hrun & Hg1 & Hcore & Hslot & Hlook & Hlen).
    exists s, h', g1, cache'. split; [exact Hrun|].
    repeat (split; [assumption|]). rewrite length_insert in Hlen. exact Hlen.
Qed.

(** Whatever the arguments, the result of [singleLevelGrouping] is
    single-level. *)
Lemma singleLevelGrouping_single h this g keyArgs :
  heap_wf h -> h !! this = Some g ->
  exists s h' g',
    GroupingSpec_singleLevelGrouping this keyArgs h = (Ok s, h')
    /\ h' !! s = Some g'
    /\ gs_isSingleLevel g' = true
    /\ heap_wf h'
    /\ heap_extends h h'.
Proof.
  intros Hwf Hthis.
  destruct (gs_isSingleLevel g && negb (default false (def_get keyArgs ka_reverse)))
    eqn:Hguard.
  - apply andb_true_iff in Hguard as [Hs Hr]. apply negb_true_iff in Hr.
    exists this, h, g. split; [exact (singleLevelGrouping_self h this g keyArgs Hthis Hs Hr)|].
    split; [exact Hthis|]. split; [exact Hs|]. split; [exact Hwf|apply heap_extends_refl].
  - destruct (singleLevelGrouping_built h this g keyArgs Hwf Hthis Hguard)
      as (s & h' & g' & Hrun & Hg' & Hof & _ & Hwf' & Hext).
    exists s, h', g'. split; [exact Hrun|]. split; [exact Hg'|].
    split; [|split; assumption].
    destruct (Hwf this g Hthis) as [Hc _ _].
    destruct (Hwf' s g' Hg') as [Hc' _ _].
    destruct (is_single_of_fields _ g g' Hc Hof) as (Hl & _).
    destruct (constructed_levels g' Hc') as (_ & _ & _ & Hsingle & _).
    rewrite Hsingle, Hl. reflexivity.
Qed.

(** X7: [singleLevelGrouping] is memoized and idempotent. A call
    allocates at most one object; the same call again returns the very
    same instance and leaves the store as it is; and the result is its
    own single-level grouping. *)
Theorem singleLevelGrouping_memoized h this g keyArgs :
  heap_wf h -> h !! this = Some g ->
  exists s h',
    GroupingSpec_singleLevelGrouping this keyArgs h = (Ok s, h')
    /\ (length h' <= S (length h))%nat
    /\ GroupingSpec_singleLevelGrouping this keyArgs h' = (Ok s, h')
    /\ GroupingSpec_singleLevelGrouping s None h' = (Ok s, h').
Proof.
  intros Hwf Hthis.
  destruct (singleLevelGrouping_single h this g keyArgs Hwf Hthis)
    as (s & h' & g' & Hrun & Hg' & Hsingle & _).
  exists s, h'. split; [exact Hrun|].
  assert (Hself : GroupingSpec_singleLevelGrouping s None h' = (Ok s, h'))
    by exact (singleLevelGrouping_self h' s g' None Hg' Hsingle eq_refl).
  destruct (gs_isSingleLevel g && negb (default false (def_get keyArgs ka_reverse)))
    eqn:Hguard.
  - apply andb_true_iff in Hguard as [Hs Hr]. apply negb_true_iff in Hr.
    rewrite (singleLevelGrouping_self h this g keyArgs Hthis Hs Hr) in Hrun.
    injection Hrun as <- <-.
    split; [lia|]. split; [|exact Hself].
    exact (singleLevelGrouping_self h this g keyArgs Hthis Hs Hr).
  - destruct (singleLevelGrouping_cached h this g keyArgs Hwf Hthis Hguard)
      as (s0 & h0 & g1 & cache & Hrun0 & Hg1 & Hcore & Hslot & Hlook & Hlen).
    rewrite Hrun in Hrun0. injection Hrun0 as <- <-.
    split; [exact Hlen|]. split; [|exact Hself].
    destruct (clear_caches_fields g1 g Hcore) as (_ & _ & _ & Hs1).
    unfold GroupingSpec_singleLevelGrouping. cbv zeta.
    unfold M_bind, load, M_ret. rewrite Hg1, Hs1, Hguard, Hslot, Hg1, Hslot.
    change (default ∅ (Some cache)) with cache. rewrite Hlook. reflexivity.
Qed.

Lemma ensure_eq h this g keyArgs :
  h !! this = Some g ->
  GroupingSpec_ensure this keyArgs h =
  if truthy (def_get keyArgs ka_flatteningMode)
     && bool_decide (def_get keyArgs ka_flatteningMode = Some "singleLevel")
  then GroupingSpec_singleLevelGrouping this keyArgs h
  else if truthy (def_get keyArgs ka_flatteningMode)
          && (bool_decide (gs_flatteningMode g <> def_get keyArgs ka_flatteningMode)
              || bool_decide (gs_flattenRootLabel g
                              <> or_else (def_get keyArgs ka_flattenRootLabel) ""))
       then M_bind
              (GroupingSpec_new (Some (gs_levels g)) (Some (gs_type g))
                 (Some {| ka_flatteningMode := def_get keyArgs ka_flatteningMode;
                          ka_flattenRootLabel :=
                            Some (or_else (def_get keyArgs ka_flattenRootLabel) "");
                          ka_reverse := None |}))
              (fun grouping =>
                 if default false (def_get keyArgs ka_reverse)
                 then GroupingSpec_reversed grouping else M_ret grouping) h
       else if default false (def_get keyArgs ka_reverse)
            then GroupingSpec_reversed this h else (Ok this, h).
Proof.
  intros Hthis. unfold GroupingSpec_ensure. cbv zeta.
  destruct (truthy (def_get keyArgs ka_flatteningMode) && bool_decide _);
    [reflexivity|].
  destruct (truthy (def_get keyArgs ka_flatteningMode)); cbn [andb].
  - unfold M_bind at 1. unfold M_bind at 1. unfold load. rewrite Hthis.
    destruct (bool_decide _ || bool_decide _).
    + reflexivity.
    + unfold M_ret. destruct (default false (def_get keyArgs ka_reverse)); reflexivity.
  - unfold M_bind, M_ret. destruct (default false (def_get keyArgs ka_reverse)); reflexivity.
Qed.

(** What [ensure] builds when the flattening mode or the root label
    asked for differ. *)
Lemma ensure_rebuilt h g keyArgs :
  heap_wf h -> constructed g ->
  truthy (def_get keyArgs ka_flatteningMode) = true ->
  exists g1,
    GroupingSpec_new (Some (gs_levels g)) (Some (gs_type g))
      (Some {| ka_flatteningMode := def_get keyArgs ka_flatteningMode;
               ka_flattenRootLabel :=
                 Some (or_else (def_get keyArgs ka_flattenRootLabel) "");
               ka_reverse := None |}) h
    = (Ok (length h), h ++ [g1])
    /\ gs_levels g1 = gs_levels g
    /\ gs_type g1 = gs_type g
    /\ gs_flatteningMode g1 = def_get keyArgs ka_flatteningMode
    /\ gs_flattenRootLabel g1 = or_else (def_get keyArgs ka_flattenRootLabel) ""
    /\ heap_wf (h ++ [g1]).
Proof.
  intros Hwf Hc Htruthy.
  destruct (constructed_levels g Hc) as (Hne & Hdims & Hlev & _).
  destruct (new_spec h (gs_levels g) (gs_type g)
              (Some {| ka_flatteningMode := def_get keyArgs ka_flatteningMode;
                       ka_flattenRootLabel :=
                         Some (or_else (def_get keyArgs ka_flattenRootLabel) "");
                       ka_reverse := None |}) Hwf Hne Hdims Hlev)
    as (g1 & _ & Hnew & Hl & Ht & Hm & Hlab & _ & Hwf1).
  change (gs_flatteningMode g1 =
          if truthy (def_get keyArgs ka_flatteningMode)
          then def_get keyArgs ka_flatteningMode else None) in Hm.
  change (gs_flattenRootLabel g1 =
          or_else (Some (or_else (def_get keyArgs ka_flattenRootLabel) "")) "") in Hlab.
  rewrite Htruthy in Hm. rewrite or_else_Some in Hlab.
  exists g1. repeat (split; [assumption|]). exact Hwf1.
Qed.

(** X8: without reversal [ensure] is idempotent: asked again with the
    same arguments, the specification it returned returns itself and
    leaves the store as it is. *)
Theorem ensure_idempotent h this g keyArgs :
  heap_wf h -> h !! this = Some g ->
  default false (def_get keyArgs ka_reverse) = false ->
  exists s h',
    GroupingSpec_ensure this keyArgs h = (Ok s, h')
    /\ GroupingSpec_ensure s keyArgs h' = (Ok s, h').
Proof.
  intros Hwf Hthis Hrev. destruct (Hwf this g Hthis) as [Hc _ _].
  pose proof (ensure_eq h this g keyArgs Hthis) as E. rewrite Hrev in E.
  destruct (truthy (def_get keyArgs ka_flatteningMode)
            && bool_decide (def_get keyArgs ka_flatteningMode = Some "singleLevel"))
    eqn:Hs.
  - destruct (singleLevelGrouping_single h this g keyArgs Hwf Hthis)
      as (s & h' & g' & Hrun & Hg' & Hsingle & _).
    exists s, h'. split; [rewrite E; exact Hrun|].
    rewrite (ensure_eq h' s g' keyArgs Hg'), Hs.
    exact (singleLevelGrouping_self h' s g' keyArgs Hg' Hsingle Hrev).
  - destruct (truthy (def_get keyArgs ka_flatteningMode)
              && (bool_decide (gs_flatteningMode g <> def_get keyArgs ka_flatteningMode)
                  || bool_decide (gs_flattenRootLabel g
                                  <> or_else (def_get keyArgs ka_flattenRootLabel) "")))
      eqn:Hd.
    + apply andb_true_iff in Hd as [Htruthy _].
      destruct (ensure_rebuilt h g keyArgs Hwf Hc Htruthy)
        as (g1 & Hnew & _ & _ & Hm & Hlab & _).
      exists (length h), (h ++ [g1]). split.
      { rewrite E. unfold M_bind. rewrite Hnew. reflexivity. }
      rewrite (ensure_eq (h ++ [g1]) (length h) g1 keyArgs
                         (list_lookup_middle h [] g1 _ eq_refl)).
      rewrite Hs, Hrev, Hm, Hlab.
      rewrite (bool_decide_eq_false_2 (def_get keyArgs ka_flatteningMode
                                       <> def_get keyArgs ka_flatteningMode))
        by (intros H; exact (H eq_refl)).
      rewrite (bool_decide_eq_false_2 (or_else (def_get keyArgs ka_flattenRootLabel) ""
                                       <> or_else (def_get keyArgs ka_flattenRootLabel) ""))
        by (intros H; exact (H eq_refl)).
      rewrite andb_false_r. reflexivity.
    + exists this, h. split; [exact E|].
      rewrite (ensure_eq h this g keyArgs Hthis), Hs, Hd, Hrev. reflexivity.
Qed.

(** X9: with [reverse] true, [ensure] never returns the receiver, and
    the root label of what it returns is the empty string, whatever
    root label was asked for; the flattening mode is the one asked
    for, or that of the receiver when none, or the sentinel, was. *)
Theorem ensure_reverse_result h this g keyArgs :
  heap_wf h -> h !! this = Some g ->
  default false (def_get keyArgs ka_reverse) = true ->
  exists s h' g',
    GroupingSpec_ensure this keyArgs h = (Ok s, h')
    /\ h' !! s = Some g'
    /\ s <> this
    /\ gs_type g' = gs_type g
    /\ gs_flattenRootLabel g' = ""
    /\ gs_flatteningMode g' =
       (if truthy (def_get keyArgs ka_flatteningMode)
           && negb (bool_decide (def_get keyArgs ka_flatteningMode = Some "singleLevel"))
        then def_get keyArgs ka_flatteningMode
        else gs_flatteningMode g).
Proof.
  intros Hwf Hthis Hrev. destruct (Hwf this g Hthis) as [Hc _ _].
  pose proof (lookup_lt_Some _ _ _ Hthis) as Hlt.
  rewrite (ensure_eq h this g keyArgs Hthis), Hrev.
  destruct (truthy (def_get keyArgs ka_flatteningMode)) eqn:Htruthy; cbn [andb].
  - destruct (bool_decide (def_get keyArgs ka_flatteningMode = Some "singleLevel"))
      eqn:Hs; cbn [negb].
    + destruct (singleLevelGrouping_built h this g keyArgs Hwf Hthis)
        as (s & h' & g' & Hrun & Hg' & Hof & Hlts & _).
      { rewrite Hrev. apply andb_false_r. }
      rewrite Hrev in Hof.
      destruct (is_single_of_fields true g g' Hc Hof) as (_ & Ht & Hm & Hlab).
      exists s, h', g'. repeat (split; [assumption || lia|]). exact Hm.
    + destruct (bool_decide _ || bool_decide _) eqn:Hd.
      * destruct (ensure_rebuilt h g keyArgs Hwf Hc Htruthy)
          as (g1 & Hnew & _ & Ht1 & Hm1 & _ & Hwf1).
        unfold M_bind. rewrite Hnew.
        destruct (reversed_spec (h ++ [g1]) (length h) g1 Hwf1
                                (list_lookup_middle h [] g1 _ eq_refl))
          as (r & h' & g' & Hrun & Hg' & Hof & Hltr & Hwf' & _).
        destruct (Hwf1 (length h) g1 (list_lookup_middle h [] g1 _ eq_refl))
          as [Hc1 _ _].
        destruct (is_reversed_of_fields g1 g' Hc1 Hof) as (_ & Ht & Hm & Hlab).
        exists r, h', g'. split; [exact Hrun|]. split; [exact Hg'|].
        split; [lia|]. split; [congruence|]. split; [exact Hlab|congruence].
      * destruct (reversed_spec h this g Hwf Hthis)
          as (r & h' & g' & Hrun & Hg' & Hof & Hltr & _).
        destruct (is_reversed_of_fields g g' Hc Hof) as (_ & Ht & Hm & Hlab).
        exists r, h', g'. split; [exact Hrun|]. split; [exact Hg'|].
        split; [lia|]. split; [exact Ht|]. split; [exact Hlab|].
        apply orb_false_iff in Hd as [Hd _].
        apply bool_decide_eq_false_1 in Hd.
        rewrite Hm. destruct (decide (gs_flatteningMode g
                                      = def_get keyArgs ka_flatteningMode)) as [E|E];
          [exact E|contradiction].
  - destruct (reversed_spec h this g Hwf Hthis)
      as (r & h' & g' & Hrun & Hg' & Hof & Hltr & _).
    destruct (is_reversed_of_fields g g' Hc Hof) as (_ & Ht & Hm & Hlab).
    exists r, h', g'. split; [exact Hrun|]. split; [exact Hg'|].
    split; [lia|]. split; [exact Ht|]. split; [exact Hlab|exact Hm].
Qed.

(** X10: specifications are immutable up to their caches. [ensure],
    and so [singleLevelGrouping] and [reversed], through which it
    answers, always returns a specification of the store, never
    removes an object, and leaves the type, the levels, the derived
    flags, the flattening mode, the root label and the identifier of
    every object as they were. *)
Theorem ensure_keeps_store h this g keyArgs :
  heap_wf h -> h !! this = Some g ->
  exists s h',
    GroupingSpec_ensure this keyArgs h = (Ok s, h')
    /\ is_Some (h' !! s)
    /\ heap_wf h'
    /\ forall l g0,
         h !! l = Some g0 ->
         exists g1,
           h' !! l = Some g1
           /\ gs_type g1 = gs_type g0
           /\ gs_levels g1 = gs_levels g0
           /\ gs_depth g1 = gs_depth g0
           /\ gs_isSingleLevel g1 = gs_isSingleLevel g0
           /\ gs_isSingleDimension g1 = gs_isSingleDimension g0
           /\ gs_hasCompositeLevels g1 = gs_hasCompositeLevels g0
           /\ gs_firstDimension g1 = gs_firstDimension g0
           /\ gs_flatteningMode g1 = gs_flatteningMode g0
           /\ gs_flattenRootLabel g1 = gs_flattenRootLabel g0
           /\ gs_id g1 = gs_id g0.
Proof.
  intros Hwf Hthis. destruct (Hwf this g Hthis) as [Hc _ _].
  assert (Hrun : exists s h', GroupingSpec_ensure this keyArgs h = (Ok s, h')
                              /\ is_Some (h' !! s) /\ heap_wf h' /\ heap_extends h h').
  { assert (Hfinish : forall l0 h0 g0,
              heap_wf h0 -> h0 !! l0 = Some g0 -> heap_extends h h0 ->
              exists s h',
                (if default false (def_get keyArgs ka_reverse)
                 then GroupingSpec_reversed l0 h0 else (Ok l0, h0)) = (Ok s, h')
                /\ is_Some (h' !! s) /\ heap_wf h' /\ heap_extends h h').
    { intros l0 h0 g0 Hwf0 Hl0 Hext0.
      destruct (default false (def_get keyArgs ka_reverse)).
      - destruct (reversed_spec h0 l0 g0 Hwf0 Hl0)
          as (r & h' & g' & Hr & Hg' & _ & _ & Hwf' & Hext).
        exists r, h'. split; [exact Hr|]. split; [exists g'; exact Hg'|].
        split; [exact Hwf'|exact (heap_extends_trans _ _ _ Hext0 Hext)].
      - exists l0, h0. split; [reflexivity|]. split; [exists g0; exact Hl0|].
        split; assumption. }
    rewrite (ensure_eq h this g keyArgs Hthis).
    destruct (truthy (def_get keyArgs ka_flatteningMode)) eqn:Htruthy; cbn [andb].
    - destruct (bool_decide (def_get keyArgs ka_flatteningMode = Some "singleLevel")).
      + destruct (singleLevelGrouping_single h this g keyArgs Hwf Hthis)
          as (s & h' & g' & Hs & Hg' & _ & Hwf' & Hext).
        exists s, h'. split; [exact Hs|]. split; [exists g'; exact Hg'|].
        split; assumption.
      + destruct (bool_decide _ || bool_decide _).
        * destruct (ensure_rebuilt h g keyArgs Hwf Hc Htruthy)
            as (g1 & Hnew & _ & _ & _ & _ & Hwf1).
          unfold M_bind. rewrite Hnew. unfold M_ret.
          pose proof (Hfinish (length h) (h ++ [g1]) g1 Hwf1
                              (list_lookup_middle h [] g1 _ eq_refl)
                              (heap_extends_alloc h g1)) as Hf.
          destruct (default false (def_get keyArgs ka_reverse)); exact Hf.
        * exact (Hfinish this h g Hwf Hthis (heap_extends_refl h)).
    - exact (Hfinish this h g Hwf Hthis (heap_extends_refl h)). }
  destruct Hrun as (s & h' & Hrun & Hs & Hwf' & Hext).
  exists s, h'. split; [exact Hrun|]. split; [exact Hs|]. split; [exact Hwf'|].
  intros l g0 Hl. destruct (Hext l g0 Hl) as (g1 & Hg1 & E).
  exists g1. split; [exact Hg1|].
  split; [exact (f_equal gs_type E)|]. split; [exact (f_equal gs_levels E)|].
  split; [exact (f_equal gs_depth E)|]. split; [exact (f_equal gs_isSingleLevel E)|].
  split; [exact (f_equal gs_isSingleDimension E)|].
  split; [exact (f_equal gs_hasCompositeLevels E)|].
  split; [exact (f_equal gs_firstDimension E)|].
  split; [exact (f_equal gs_flatteningMode E)|].
  split; [exact (f_equal gs_flattenRootLabel E)|exact (f_equal gs_id E)].
Qed.

Lemma lex_compare_app (dims1 dims2 : list (GroupingDimensionSpec Atom))
    (a b : Datum Atom) :
  lex_compare (dims1 ++ dims2) a b
  = (r ← lex_compare dims1 a b; if negb (r =? 0) then Ok r else lex_compare dims2 a b).
Proof.
  induction dims1 as [|d dims1 IH]; simpl; [reflexivity|].
  destruct (GroupingDimensionSpec_compareDatums d a b) as [r|e]; simpl; [|reflexivity].
  destruct (negb (r =? 0)) eqn:Hr; simpl; [rewrite Hr; reflexivity|exact IH].
Qed.

Lemma level_compare_lex (l : GroupingLevelSpec Atom) (a b : Datum Atom) :
  levelSpec_wf l -> GroupingLevelSpec_compare l a b = lex_compare (ls_dimensions l) a b.
Proof. intros [Hl _]. rewrite Hl at 1. apply compare_lex. Qed.

Lemma lex_compare_levels_decided levels (a b : Datum Atom) :
  Forall levelSpec_wf levels ->
  forall i l r,
    levels !! i = Some l ->
    GroupingLevelSpec_compare l a b = Ok r -> r <> 0 ->
    (forall j l', (j < i)%nat -> levels !! j = Some l' ->
                  GroupingLevelSpec_compare l' a b = Ok 0) ->
    lex_compare (concat (map ls_dimensions levels)) a b = Ok r.
Proof.
  induction 1 as [|l0 levels Hl0 _ IH]; intros i l r Hi Hr Hnz Hties; [discriminate|].
  simpl. rewrite lex_compare_app. destruct i as [|i]; simpl in Hi.
  - injection Hi as <-. rewrite <- (level_compare_lex l0 a b Hl0), Hr. simpl.
    destruct (Z.eqb_spec r 0); [contradiction|reflexivity].
  - rewrite <- (level_compare_lex l0 a b Hl0), (Hties 0%nat l0); [|lia|reflexivity].
    simpl. apply (IH i l r Hi Hr Hnz).
    intros j l' Hj Hl'. apply (Hties (S j) l'); [lia|exact Hl'].
Qed.

Lemma lex_compare_levels_ties levels (a b : Datum Atom) :
  Forall levelSpec_wf levels ->
  Forall (fun l => GroupingLevelSpec_compare l a b = Ok 0) levels ->
  lex_compare (concat (map ls_dimensions levels)) a b = Ok 0.
Proof.
  induction 1 as [|l0 levels Hl0 _ IH]; intros Hties; [reflexivity|].
  apply Forall_cons in Hties as [H0 Hties].
  simpl. rewrite lex_compare_app, <- (level_compare_lex l0 a b Hl0), H0. simpl.
  exact (IH Hties).
Qed.

Lemma single_level_plain g :
  single_level false g = GroupingLevelSpec_init (GroupingSpec_dimensions g).
Proof.
  unfold single_level. f_equal. apply map_id.
Qed.

(** X18: flattening to a single level keeps the order. The one level
    of [singleLevelGrouping()] compares two datums as the levels of
    the receiver do, taken one after the other: it returns the result
    of the first level that does not rank them equal, and 0 when every
    level ranks them equal. *)
Theorem singleLevelGrouping_compare h this g (a b : Datum Atom) :
  heap_wf h -> h !! this = Some g ->
  exists s h' g' level,
    GroupingSpec_singleLevelGrouping this None h = (Ok s, h')
    /\ h' !! s = Some g'
    /\ gs_levels g' = [level]
    /\ (forall i l r,
          gs_levels g !! i = Some l ->
          GroupingLevelSpec_compare l a b = Ok r -> r <> 0 ->
          (forall j l', (j < i)%nat -> gs_levels g !! j = Some l' ->
                        GroupingLevelSpec_compare l' a b = Ok 0) ->
          GroupingLevelSpec_compare level a b = Ok r)
    /\ (Forall (fun l => GroupingLevelSpec_compare l a b = Ok 0) (gs_levels g) ->
        GroupingLevelSpec_compare level a b = Ok 0).
Proof.
  intros Hwf Hthis. destruct (Hwf this g Hthis) as [Hc _ _].
  destruct (constructed_levels g Hc) as (_ & _ & Hlev & Hsingle & _).
  assert (Hflat : GroupingLevelSpec_compare (single_level false g) a b
                  = lex_compare (concat (map ls_dimensions (gs_levels g))) a b).
  { rewrite single_level_plain. apply compare_lex. }
  destruct (gs_isSingleLevel g) eqn:Hs.
  - destruct (gs_levels g) as [|l0 [|l1 levels]] eqn:Hl; try discriminate.
    exists this, h, g, l0.
    split; [exact (singleLevelGrouping_self h this g None Hthis Hs eq_refl)|].
    split; [exact Hthis|]. split; [exact Hl|]. split.
    + intros i l r Hi Hr _ _. destruct i as [|i]; [|discriminate].
      injection Hi as <-. exact Hr.
    + intros Hties. apply Forall_cons in Hties as [H0 _]. exact H0.
  - destruct (singleLevelGrouping_built h this g None Hwf Hthis)
      as (s & h' & g' & Hrun & Hg' & Hof & _).
    { rewrite Hs. reflexivity. }
    destruct (is_single_of_fields _ g g' Hc Hof) as (Hl' & _).
    exists s, h', g', (single_level false g).
    split; [exact Hrun|]. split; [exact Hg'|]. split; [exact Hl'|].
    rewrite Hflat. split.
    + exact (lex_compare_levels_decided (gs_levels g) a b Hlev).
    + exact (lex_compare_levels_ties (gs_levels g) a b Hlev).
Qed.

Lemma reversed_levels_flat levels :
  concat (map ls_dimensions (reversed_levels levels))
  = map reverse_dimSpec (concat (map ls_dimensions levels)).
Proof.
  induction levels as [|l levels IH]; simpl; [reflexivity|].
  rewrite map_app, <- IH. reflexivity.
Qed.

(** X19: reversing and flattening commute. The single-level grouping
    asked for with [reverse] true and the single-level grouping of the
    reversed specification have the same levels, the same flattening
    mode, the same root label and the same identifier. *)
Theorem singleLevelGrouping_reversed h this g keyArgs :
  heap_wf h -> h !! this = Some g ->
  default false (def_get keyArgs ka_reverse) = true ->
  exists s h1 g1 r h2 s' h3 g2,
    GroupingSpec_singleLevelGrouping this keyArgs h = (Ok s, h1)
    /\ h1 !! s = Some g1
    /\ GroupingSpec_reversed this h = (Ok r, h2)
    /\ GroupingSpec_singleLevelGrouping r None h2 = (Ok s', h3)
    /\ h3 !! s' = Some g2
    /\ gs_levels g2 = gs_levels g1
    /\ gs_flatteningMode g2 = gs_flatteningMode g1
    /\ gs_flattenRootLabel g2 = gs_flattenRootLabel g1
    /\ gs_id g2 = gs_id g1.
Proof.
  intros Hwf Hthis Hrev. destruct (Hwf this g Hthis) as [Hc _ _].
  destruct (singleLevelGrouping_built h this g keyArgs Hwf Hthis)
    as (s & h1 & g1 & Hrun1 & Hg1 & Hof1 & _ & Hwf1 & _).
  { rewrite Hrev. apply andb_false_r. }
  rewrite Hrev in Hof1.
  destruct (is_single_of_fields true g g1 Hc Hof1) as (Hl1 & _ & Hm1 & Hlab1).
  destruct (reversed_spec h this g Hwf Hthis)
    as (r & h2 & g' & Hrun2 & Hg' & Hof' & _ & Hwf2 & _).
  destruct (is_reversed_of_fields g g' Hc Hof') as (Hl' & _ & Hm' & Hlab').
  destruct (Hwf2 r g' Hg') as [Hc' _ _].
  assert (Hsame : single_level false g' = single_level true g).
  { rewrite single_level_plain. unfold single_level, GroupingSpec_dimensions.
    rewrite Hl', reversed_levels_flat. reflexivity. }
  assert (Hrun3 : exists s' h3 g2,
             GroupingSpec_singleLevelGrouping r None h2 = (Ok s', h3)
             /\ h3 !! s' = Some g2 /\ heap_wf h3
             /\ gs_levels g2 = [single_level true g]
             /\ gs_flatteningMode g2 = gs_flatteningMode g
             /\ gs_flattenRootLabel g2 = "").
  { destruct (gs_isSingleLevel g') eqn:Hs.
    - exists r, h2, g'.
      split; [exact (singleLevelGrouping_self h2 r g' None Hg' Hs eq_refl)|].
      split; [exact Hg'|]. split; [exact Hwf2|].
      split; [|split; assumption].
      destruct (constructed_levels g' Hc') as (_ & _ & Hlev' & Hsingle' & _).
      rewrite Hs in Hsingle'. rewrite <- Hsame, single_level_plain.
      unfold GroupingSpec_dimensions.
      destruct (gs_levels g') as [|l0 [|l1 levels]]; try discriminate.
      apply Forall_cons in Hlev' as [[Hl0 _] _].
      simpl. rewrite app_nil_r, <- Hl0. reflexivity.
    - destruct (singleLevelGrouping_built h2 r g' None Hwf2 Hg')
        as (s' & h3 & g2 & Hrun3 & Hg2 & Hof2 & _ & Hwf3 & _).
      { rewrite Hs. reflexivity. }
      destruct (is_single_of_fields _ g' g2 Hc' Hof2) as (Hl2 & _ & Hm2 & Hlab2).
      exists s', h3, g2. split; [exact Hrun3|]. split; [exact Hg2|].
      split; [exact Hwf3|]. split; [rewrite <- Hsame; exact Hl2|].
      split; [congruence|exact Hlab2]. }
  destruct Hrun3 as (s' & h3 & g2 & Hrun3 & Hg2 & Hwf3 & Hl2 & Hm2 & Hlab2).
  exists s, h1, g1, r, h2, s', h3, g2.
  split; [exact Hrun1|]. split; [exact Hg1|]. split; [exact Hrun2|].
  split; [exact Hrun3|]. split; [exact Hg2|].
  split; [congruence|]. split; [congruence|]. split; [congruence|].
  destruct (Hwf1 s g1 Hg1) as [Hc1 _ _]. destruct (Hwf3 s' g2 Hg2) as [Hc2 _ _].
  destruct (constructed_derived g1 Hc1) as (_ & _ & _ & _ & Hid1).
  destruct (constructed_derived g2 Hc2) as (_ & _ & _ & _ & Hid2).
  rewrite Hid1, Hid2. congruence.
Qed.

Lemma level_atoms_reversed (dims : list (GroupingDimensionSpec Atom)) (datum : Datum Atom) :
  Forall dimSpec_wf dims ->
  level_atoms (map reverse_dimSpec dims) datum = level_atoms dims datum.
Proof.
  intros Hd. unfold level_atoms. apply Forall2_mapM_ext.
  apply Forall2_fmap_l, Forall_Forall2_diag.
  eapply Forall_impl; [exact Hd|]. intros d Hwfd. simpl.
  rewrite Hwfd at 2. reflexivity.
Qed.

(** X20: reversing changes the order, not the groups. Each level of
    the reversed specification gives every datum the key that the
    level of the receiver gives it, the same string and the same
    atoms, and throws for the datums for which that one throws. *)
Theorem reversed_key_same (globalKey : Atom -> string) h this g :
  heap_wf h -> h !! this = Some g ->
  exists r h' g',
    GroupingSpec_reversed this h = (Ok r, h')
    /\ h' !! r = Some g'
    /\ Forall2 (fun level level' =>
                  forall datum : Datum Atom,
                    GroupingLevelSpec_key globalKey level' datum =
                    GroupingLevelSpec_key globalKey level datum)
               (gs_levels g) (gs_levels g').
Proof.
  intros Hwf Hthis.
  destruct (reversed_spec h this g Hwf Hthis)
    as (r & h' & g' & Hrun & Hg' & Hof & _).
  destruct (Hwf this g Hthis) as [Hc _ _].
  destruct (is_reversed_of_fields g g' Hc Hof) as (Hl & _).
  destruct (constructed_levels g Hc) as (_ & _ & Hlev & _).
  exists r, h', g'. split; [exact Hrun|]. split; [exact Hg'|].
  rewrite Hl. unfold reversed_levels.
  apply Forall2_fmap_r, Forall_Forall2_diag.
  eapply Forall_impl; [exact Hlev|]. intros l [Hinit Hd] datum. simpl.
  rewrite Hinit at 2.
  pose proof (level_atoms_reversed (ls_dimensions l) datum Hd) as Hatoms.
  destruct (level_atoms (ls_dimensions l) datum) as [xs|] eqn:Hxs.
  - rewrite (key_Some globalKey _ datum xs Hatoms), (key_Some globalKey _ datum xs Hxs).
    reflexivity.
  - rewrite (key_None globalKey _ datum Hatoms), (key_None globalKey _ datum Hxs).
    reflexivity.
Qed.

Lemma append_assoc (s1 s2 s3 : string) : (s1 +:+ s2) +:+ s3 = s1 +:+ (s2 +:+ s3).
Proof.
  induction s1 as [|c s1 IH]; [reflexivity|].
  change (String c ((s1 +:+ s2) +:+ s3) = String c (s1 +:+ (s2 +:+ s3))).
  rewrite IH. reflexivity.
Qed.

Lemma join_app sep (xs ys : list string) :
  xs <> [] -> ys <> [] ->
  join sep (xs ++ ys) = join sep xs +:+ sep +:+ join sep ys.
Proof.
  intros Hxs Hys. induction xs as [|x xs IH]; [contradiction|].
  destruct ys as [|y ys]; [contradiction|].
  destruct xs as [|x' xs]; [reflexivity|].
  change (x +:+ sep +:+ join sep ((x' :: xs) ++ y :: ys)
          = (x +:+ sep +:+ join sep (x' :: xs)) +:+ sep +:+ join sep (y :: ys)).
  rewrite IH by discriminate. rewrite !append_assoc. reflexivity.
Qed.

(** The atoms and the key string of the flattened dimensions, from the
    keys of the levels. *)
Lemma level_keys_flat (globalKey : Atom -> string) levels (datum : Datum Atom)
    (keys : list (LevelKey Atom)) :
  Forall levelSpec_wf levels -> Forall has_dimensions levels ->
  Forall2 (fun l k => GroupingLevelSpec_key globalKey l datum = Ok k) levels keys ->
  level_atoms (concat (map ls_dimensions levels)) datum
  = Some (concat (map key_atoms keys))
  /\ (levels <> [] -> concat (map key_atoms keys) <> [])
  /\ join "," (map globalKey (concat (map key_atoms keys))) = join "," (map key keys).
Proof.
  intros Hlev Hdims Hkeys. revert Hlev Hdims.
  induction Hkeys as [|l k levels keys Hk Hkeys IH]; intros Hlev Hdims.
  - split; [reflexivity|]. split; [intros H; contradiction|reflexivity].
  - apply Forall_cons in Hlev as [[Hinit Hwfd] Hlev].
    apply Forall_cons in Hdims as [Hl Hdims].
    destruct (IH Hlev Hdims) as (Hatoms & Hne & Hjoin).
    rewrite Hinit in Hk. apply key_Ok_level_atoms in Hk as (xs & Hxs & ->).
    assert (Hxsne : xs <> []).
    { unfold level_atoms in Hxs. apply length_mapM in Hxs.
      destruct xs; [simpl in Hxs; lia|discriminate]. }
    simpl. split; [|split].
    + unfold level_atoms in *. apply mapM_Some. apply mapM_Some in Hxs, Hatoms.
      apply Forall2_app; assumption.
    + intros _ E. apply app_eq_nil in E as [E _]. contradiction.
    + destruct levels as [|l' levels].
      * inversion Hkeys; subst. simpl. rewrite app_nil_r. reflexivity.
      * rewrite map_app, join_app.
        2:{ destruct xs; [contradiction|discriminate]. }
        2:{ pose proof (Hne ltac:(discriminate)) as Hrest.
            destruct (concat (map key_atoms keys)); [contradiction|discriminate]. }
        rewrite Hjoin. inversion Hkeys; subst. reflexivity.
Qed.

(** X21: the key of the flattened level. When every level of the
    receiver gives a datum a key, the one level of
    [singleLevelGrouping()] gives it the key made of those keys: the
    key strings joined by commas, and the atoms one list after the
    other. *)
Theorem singleLevelGrouping_key (globalKey : Atom -> string) h this g
    (datum : Datum Atom) (keys : list (LevelKey Atom)) :
  heap_wf h -> h !! this = Some g ->
  Forall2 (fun l k => GroupingLevelSpec_key globalKey l datum = Ok k)
          (gs_levels g) keys ->
  exists s h' g' level,
    GroupingSpec_singleLevelGrouping this None h = (Ok s, h')
    /\ h' !! s = Some g'
    /\ gs_levels g' = [level]
    /\ GroupingLevelSpec_key globalKey level datum
       = Ok {| key := join "," (map key keys);
               key_atoms := concat (map key_atoms keys) |}.
Proof.
  intros Hwf Hthis Hkeys. destruct (Hwf this g Hthis) as [Hc _ _].
  destruct (constructed_levels g Hc) as (_ & Hdims & Hlev & Hsingle & _).
  destruct (level_keys_flat globalKey (gs_levels g) datum keys Hlev Hdims Hkeys)
    as (Hatoms & _ & Hjoin).
  assert (Hflat : GroupingLevelSpec_key globalKey (single_level false g) datum
                  = Ok {| key := join "," (map key keys);
                          key_atoms := concat (map key_atoms keys) |}).
  { rewrite single_level_plain. unfold GroupingSpec_dimensions.
    rewrite (key_Some globalKey _ datum _ Hatoms), Hjoin. reflexivity. }
  destruct (gs_isSingleLevel g) eqn:Hs.
  - destruct (gs_levels g) as [|l0 [|l1 levels]] eqn:Hl; try discriminate.
    exists this, h, g, l0.
    split; [exact (singleLevelGrouping_self h this g None Hthis Hs eq_refl)|].
    split; [exact Hthis|]. split; [exact Hl|].
    apply Forall_cons in Hlev as [[Hinit _] _].
    rewrite Hinit, <- Hflat, single_level_plain.
    unfold GroupingSpec_dimensions. rewrite Hl. simpl. rewrite app_nil_r. reflexivity.
  - destruct (singleLevelGrouping_built h this g None Hwf Hthis)
      as (s & h' & g' & Hrun & Hg' & Hof & _).
    { rewrite Hs. reflexivity. }
    destruct (is_single_of_fields _ g g' Hc Hof) as (Hl' & _).
    exists s, h', g', (single_level false g).
    split; [exact Hrun|]. split; [exact Hg'|]. split; [exact Hl'|exact Hflat].
Qed.

End DerivedProperties.

(** ** Further properties of grouping levels *)

Section LevelOrderProperties.

Context {Atom : Type}.
Variable globalKey : Atom -> string.

Implicit Types (a b c : Datum Atom) (d : GroupingDimensionSpec Atom).
Implicit Types (dims : list (GroupingDimensionSpec Atom)).

Lemma lex_compare_transitive dims a b c rab rbc :
  Forall (fun d => comparer_transitive (ds_comparer d)) dims ->
  lex_compare dims a b = Ok rab -> lex_compare dims b c = Ok rbc ->
  rab <= 0 -> rbc <= 0 ->
  exists rac,
    lex_compare dims a c = Ok rac /\ rac <= 0 /\ (rac = 0 -> rab = 0 /\ rbc = 0).
Proof.
  intros Hdims. revert rab rbc.
  induction Hdims as [|d dims Hd _ IH]; intros rab rbc Hab Hbc Hle1 Hle2; simpl in *.
  - injection Hab as <-. injection Hbc as <-. exists 0. repeat split; lia.
  - rewrite compareDatums_comparer in *.
    destruct (ds_comparer d (atoms a !! ds_name d) (atoms b !! ds_name d))
      as [r1|e1] eqn:H1; [|discriminate].
    destruct (ds_comparer d (atoms b !! ds_name d) (atoms c !! ds_name d))
      as [r2|e2] eqn:H2; [|discriminate].
    simpl in Hab, Hbc.
    assert (Hr1 : r1 <= 0).
    { destruct (Z.eqb_spec r1 0); simpl in Hab; [lia|]. injection Hab as <-. exact Hle1. }
    assert (Hr2 : r2 <= 0).
    { destruct (Z.eqb_spec r2 0); simpl in Hbc; [lia|]. injection Hbc as <-. exact Hle2. }
    destruct (Hd _ _ _ r1 r2 H1 H2 Hr1 Hr2) as (r & Hr & Hle & Hzero).
    rewrite Hr. simpl.
    destruct (Z.eqb_spec r 0) as [E|E]; simpl.
    + destruct (Hzero E) as [-> ->]. simpl in Hab, Hbc.
      exact (IH rab rbc Hab Hbc Hle1 Hle2).
    + exists r. split; [reflexivity|]. split; [exact Hle|]. intros; contradiction.
Qed.

(** X11: a level built from dimensions whose atom comparers are
    transitive compares transitively: when [a] is not after [b] and [b]
    is not after [c], then [a] is not after [c], and [a] ties with [c]
    only when both pairs tie. *)
Theorem compare_transitive dims a b c rab rbc :
  Forall (fun d => comparer_transitive (ds_comparer d)) dims ->
  GroupingLevelSpec_compare (GroupingLevelSpec_init dims) a b = Ok rab ->
  GroupingLevelSpec_compare (GroupingLevelSpec_init dims) b c = Ok rbc ->
  rab <= 0 -> rbc <= 0 ->
  exists rac,
    GroupingLevelSpec_compare (GroupingLevelSpec_init dims) a c = Ok rac
    /\ rac <= 0
    /\ (rac = 0 -> rab = 0 /\ rbc = 0).
Proof. rewrite !compare_lex. apply lex_compare_transitive. Qed.

Lemma comma_free_cons (x : ascii) (s : string) :
  comma_free (String x s) = true -> x <> ","%char /\ comma_free s = true.
Proof.
  unfold comma_free. simpl. intros H. apply andb_true_iff in H as [Hx Hs].
  apply negb_true_iff, Ascii.eqb_neq in Hx. split; assumption.
Qed.

Lemma append_comma_inv (x y r1 r2 : string) :
  comma_free x = true -> comma_free y = true ->
  x +:+ "," +:+ r1 = y +:+ "," +:+ r2 -> x = y /\ r1 = r2.
Proof.
  revert y. induction x as [|cx x IH]; intros [|cy y] Hx Hy E.
  - change (String "," r1 = String "," r2) in E. injection E as ->.
    split; reflexivity.
  - change (String "," r1 = String cy (y +:+ "," +:+ r2)) in E.
    injection E as <- _. apply comma_free_cons in Hy as [Hy _]. contradiction.
  - change (String cx (x +:+ "," +:+ r1) = String "," r2) in E.
    injection E as -> _. apply comma_free_cons in Hx as [Hx _]. contradiction.
  - change (String cx (x +:+ "," +:+ r1) = String cy (y +:+ "," +:+ r2)) in E.
    injection E as -> E.
    apply comma_free_cons in Hx as [_ Hx]. apply comma_free_cons in Hy as [_ Hy].
    destruct (IH y Hx Hy E) as [-> ->]. split; reflexivity.
Qed.

Lemma join_comma_inj (xs ys : list string) :
  length xs = length ys ->
  Forall (fun x => comma_free x = true) xs -> Forall (fun y => comma_free y = true) ys ->
  join "," xs = join "," ys -> xs = ys.
Proof.
  revert ys. induction xs as [|x xs IH]; intros [|y ys] Hlen Hxs Hys E;
    try discriminate; [reflexivity|].
  apply Forall_cons in Hxs as [Hx Hxs]. apply Forall_cons in Hys as [Hy Hys].
  injection Hlen as Hlen.
  destruct xs as [|x' xs], ys as [|y' ys]; try discriminate.
  - unfold join in E. simpl in E. subst. reflexivity.
  - change (x +:+ "," +:+ join "," (x' :: xs) = y +:+ "," +:+ join "," (y' :: ys)) in E.
    destruct (append_comma_inv _ _ _ _ Hx Hy E) as [-> E'].
    rewrite (IH (y' :: ys) Hlen Hxs Hys E'). reflexivity.
Qed.

(** X12: as long as no global key has a comma, [key] tells groups
    apart: two datums get the same key string exactly when, dimension
    by dimension, their atoms have the same global key. *)
Theorem key_injective dims a b ka kb :
  GroupingLevelSpec_key globalKey (GroupingLevelSpec_init dims) a = Ok ka ->
  GroupingLevelSpec_key globalKey (GroupingLevelSpec_init dims) b = Ok kb ->
  Forall (fun x => comma_free (globalKey x) = true) (key_atoms ka) ->
  Forall (fun x => comma_free (globalKey x) = true) (key_atoms kb) ->
  key ka = key kb <-> map globalKey (key_atoms ka) = map globalKey (key_atoms kb).
Proof.
  intros Ha Hb Hfa Hfb.
  apply key_Ok_level_atoms in Ha as (xs & Hxs & ->).
  apply key_Ok_level_atoms in Hb as (ys & Hys & ->).
  simpl in *. split; [|intros ->; reflexivity].
  apply join_comma_inj.
  - rewrite !length_map. unfold level_atoms in Hxs, Hys.
    apply length_mapM in Hxs, Hys. congruence.
  - apply Forall_fmap. exact Hfa.
  - apply Forall_fmap. exact Hfb.
Qed.

Lemma append_inv_r (s1 s2 t1 t2 : string) :
  String.length t1 = String.length t2 -> s1 +:+ t1 = s2 +:+ t2 -> s1 = s2 /\ t1 = t2.
Proof.
  intros Hlen. revert s2. induction s1 as [|c1 s1 IH]; intros [|c2 s2] E.
  - split; [reflexivity|exact E].
  - change (t1 = String c2 (s2 +:+ t2)) in E. apply (f_equal String.length) in E.
    change (String.length t1 = S (String.length (s2 +:+ t2))) in E.
    rewrite length_append in E. lia.
  - change (String c1 (s1 +:+ t1) = t2) in E. apply (f_equal String.length) in E.
    change (S (String.length (s1 +:+ t1)) = String.length t2) in E.
    rewrite length_append in E. lia.
  - change (String c1 (s1 +:+ t1) = String c2 (s2 +:+ t2)) in E.
    injection E as -> E. destruct (IH s2 E) as [-> ->]. split; reflexivity.
Qed.

(** X13: the id of a dimension specification tells its name and its
    order: two specifications made by the constructor have the same id
    exactly when their types have the same name and their orders are
    the same. *)
Theorem dimSpec_id_injective (t1 t2 : DimensionType Atom) (r1 r2 : bool) :
  ds_id (GroupingDimensionSpec_init t1 r1) = ds_id (GroupingDimensionSpec_init t2 r2)
  <-> dt_name t1 = dt_name t2 /\ r1 = r2.
Proof.
  simpl. split.
  - intros E. apply append_inv_r in E as [Hn E].
    + split; [exact Hn|]. destruct r1, r2; (reflexivity || discriminate).
    + destruct r1, r2; reflexivity.
  - intros [-> ->]. reflexivity.
Qed.

End LevelOrderProperties.

(** ** Worked instances *)

Lemma ex_comparer_antisymmetric reverse : comparer_antisymmetric (ex_comparer reverse).
Proof.
  split.
  - intros [x|] [y|]; simpl; try reflexivity.
    destruct reverse; f_equal; lia.
  - intros [x|]; simpl; [|reflexivity].
    destruct reverse; f_equal; lia.
Defined.

Lemma ex_comparer_total reverse : comparer_total (ex_comparer reverse).
Proof. intros x y. simpl. eexists. reflexivity. Defined.

Lemma ex_comparer_faithful reverse : key_faithful ex_globalKey (ex_comparer reverse).
Proof.
  intros [x] [y] H. simpl in H. unfold ex_globalKey. simpl.
  f_equal. destruct reverse; injection H as H; lia.
Defined.

Lemma compare_first_nonzero_witness :
  GroupingLevelSpec_compare (GroupingLevelSpec_init ex_dims) datum_a datum_b = Ok 1
  /\ GroupingLevelSpec_compare (GroupingLevelSpec_init ex_dims) datum_a datum_a = Ok 0.
Proof.
  split.
  - apply (proj1 (compare_first_nonzero ex_dims datum_a datum_b) 1%nat
                 (GroupingDimensionSpec_init (ex_dimType "category") true) 1).
    + reflexivity.
    + vm_compute. reflexivity.
    + lia.
    + intros j d' Hj Hd'. destruct j as [|j]; [|lia].
      injection Hd' as <-. vm_compute. reflexivity.
  - apply (proj2 (compare_first_nonzero ex_dims datum_a datum_a)).
    repeat constructor.
Defined.

Lemma compare_antisymmetric_witness :
  GroupingLevelSpec_compare (GroupingLevelSpec_init ex_dims) datum_a datum_b =
    Z.opp <$> GroupingLevelSpec_compare (GroupingLevelSpec_init ex_dims) datum_b datum_a
  /\ GroupingLevelSpec_compare (GroupingLevelSpec_init ex_dims) datum_a datum_a = Ok 0.
Proof.
  apply (compare_antisymmetric ex_dims datum_a datum_b).
  repeat constructor; apply ex_comparer_antisymmetric.
Defined.

(** A level whose dimension uses the constant comparer ranks [a] after
    [b] and [b] after [a]. *)
Lemma compare_antisymmetric_counterexample :
  GroupingLevelSpec_compare (GroupingLevelSpec_init ex_constant_dims) datum_a datum_b
  <> Z.opp <$>
     GroupingLevelSpec_compare (GroupingLevelSpec_init ex_constant_dims) datum_b datum_a.
Proof. vm_compute. discriminate. Qed.

Lemma ex_abs_comparer_faithful reverse :
  key_faithful ex_abs_globalKey (ex_abs_comparer reverse).
Proof.
  intros [x] [y] H. simpl in H. unfold ex_abs_globalKey. simpl.
  f_equal. destruct reverse; injection H as H; lia.
Defined.

(** Two datums whose series atoms differ in sign rank equal, and get
    the same key string with different atoms. *)
Lemma key_consistent_with_compare_witness :
  GroupingLevelSpec_key ex_globalKey (GroupingLevelSpec_init ex_dims) datum_a =
    Ok {| key := "1,5"; key_atoms := [{| ex_value := 1 |}; {| ex_value := 5 |}] |}
  /\ datum_a <> datum_neg
  /\ GroupingLevelSpec_compare (GroupingLevelSpec_init ex_abs_dims) datum_a datum_neg
     = Ok 0
  /\ exists ka kb,
      GroupingLevelSpec_key ex_abs_globalKey (GroupingLevelSpec_init ex_abs_dims) datum_a
      = Ok ka
      /\ GroupingLevelSpec_key ex_abs_globalKey (GroupingLevelSpec_init ex_abs_dims)
                               datum_neg
         = Ok kb
      /\ key_atoms ka <> key_atoms kb
      /\ key ka = key kb.
Proof.
  split.
  { apply (proj1 (key_consistent_with_compare ex_globalKey ex_dims datum_a datum_a)
                 [{| ex_value := 1 |}; {| ex_value := 5 |}]).
    vm_compute. reflexivity. }
  split.
  { intros E. apply (f_equal (fun d => atoms d !! "series")) in E.
    vm_compute in E. discriminate. }
  split; [vm_compute; reflexivity|].
  exists {| key := "1,5"; key_atoms := [{| ex_value := 1 |}; {| ex_value := 5 |}] |},
         {| key := "1,5"; key_atoms := [{| ex_value := -1 |}; {| ex_value := 5 |}] |}.
  split; [vm_compute; reflexivity|]. split; [vm_compute; reflexivity|].
  split; [discriminate|].
  apply (proj2 (key_consistent_with_compare ex_abs_globalKey ex_abs_dims
                                            datum_a datum_neg)).
  - repeat constructor; apply ex_abs_comparer_faithful.
  - vm_compute. reflexivity.
  - vm_compute. reflexivity.
  - vm_compute. reflexivity.
Defined.

Lemma key_compare_defined_witness :
  (exists k, GroupingLevelSpec_key ex_globalKey (GroupingLevelSpec_init ex_dims) datum_a = Ok k)
  /\ exists z, GroupingLevelSpec_compare (GroupingLevelSpec_init ex_dims) datum_a datum_b = Ok z.
Proof.
  assert (Ha : has_atoms ex_dims datum_a) by (repeat constructor; vm_compute; eauto).
  assert (Hb : has_atoms ex_dims datum_b) by (repeat constructor; vm_compute; eauto).
  destruct (key_compare_defined ex_globalKey ex_dims datum_a datum_b datum_a)
    as (Hk & Hc & _).
  split.
  - apply Hk. exact Ha.
  - apply Hc; [|exact Ha|exact Hb].
    repeat constructor; apply ex_comparer_total.
Defined.

(** [compare] returns at the first dimension that decides: a datum
    without an atom for a later dimension is compared without error. *)
Lemma key_compare_defined_counterexample :
  ~ (forall (dims : list (GroupingDimensionSpec ExAtom)) (a b : Datum ExAtom),
        (exists z, GroupingLevelSpec_compare (GroupingLevelSpec_init dims) a b = Ok z) ->
        has_atoms dims a /\ has_atoms dims b).
Proof.
  intros H.
  destruct (H ex_dims datum_c datum_b) as [Hc _].
  - exists 1. vm_compute. reflexivity.
  - apply Forall_cons in Hc as [_ Hc]. apply Forall_cons in Hc as [[x Hx] _].
    vm_compute in Hx. discriminate.
Qed.

Lemma init_invariants_witness :
  exists g,
    GroupingSpec_init (Some ex_levels) (Some ex_type) None = Ok g
    /\ gs_depth g = 2%nat
    /\ gs_id g = "####series:1,category:0||region:1"
    /\ (gs_isSingleLevel g = true <-> gs_depth g = 1%nat).
Proof.
  eexists. split; [vm_compute; reflexivity|].
  split; [reflexivity|]. split; [reflexivity|].
  eapply (init_invariants (Some ex_levels) (Some ex_type) None).
  vm_compute. reflexivity.
Defined.

Lemma construction_errors_witness :
  GroupingSpec_init (Some [GroupingLevelSpec_init []]) (Some ex_type) None =
    Err (ArgumentInvalid "levelSpecs" "Must have at least one element." [])
  /\ GroupingSpec_parse (Some (SpecString "a")) None ([] : heap ExAtom) =
     (Err (ArgumentRequired "type"), []).
Proof.
  destruct (construction_errors [GroupingLevelSpec_init []] None ex_type None
                                (Some (SpecString "a")) [])
    as (_ & _ & Hinvalid & _ & _ & _ & Htype).
  split; [apply Hinvalid; reflexivity|apply Htype; reflexivity].
Defined.

(** [parse] of the empty string does not reach the constructor. *)
Lemma construction_errors_counterexample :
  ~ exists arg msg args,
      fst (GroupingSpec_parse (Some (SpecString "")) (Some ex_type) [])
      = Err (ArgumentInvalid arg msg args).
Proof. intros (arg & msg & args & H). vm_compute in H. discriminate. Qed.

Lemma ex_heap_wf : heap_wf ex_heap.
Proof.
  apply (parse_wf [] (Some (SpecString "series1 asc|series2 desc, category"))
                  (Some ex_type) 0%nat ex_heap heap_wf_nil).
  vm_compute. reflexivity.
Qed.

Lemma reversed_reversed_equivalent_witness :
  exists g r h1 rr h2 g'',
    ex_heap !! 0%nat = Some g
    /\ GroupingSpec_reversed 0%nat ex_heap = (Ok r, h1)
    /\ GroupingSpec_reversed r h1 = (Ok rr, h2)
    /\ h2 !! rr = Some g''
    /\ rr <> 0%nat
    /\ shape g'' = shape g.
Proof.
  eexists.
  destruct (reversed_reversed_equivalent ex_heap 0%nat _ ex_heap_wf eq_refl)
    as (r & h1 & rr & h2 & g'' & Hr & Hrr & Hg'' & Hne & Hcmp).
  exists r, h1, rr, h2, g''. split; [reflexivity|].
  repeat (split; [assumption|]).
  assert (Hrun : GroupingSpec_reversed 0%nat ex_heap = (Ok r, h1)) by exact Hr.
  vm_compute in Hrun. injection Hrun as <- <-.
  vm_compute in Hrr. injection Hrr as <- <-.
  vm_compute in Hg''. injection Hg'' as <-. reflexivity.
Defined.

Lemma singleLevelGrouping_spec_witness :
  exists s h' g' level,
    GroupingSpec_singleLevelGrouping 0%nat None ex_heap = (Ok s, h')
    /\ h' !! s = Some g'
    /\ gs_levels g' = [level]
    /\ length (ls_dimensions level) = 3%nat.
Proof.
  destruct (singleLevelGrouping_spec ex_heap 0%nat _ None ex_heap_wf eq_refl)
    as [_ Hbuilt].
  destruct (Hbuilt (or_introl eq_refl)) as (s & h' & g' & level & Hrun & Hg' & Hl & Hdims & _).
  exists s, h', g', level. repeat (split; [assumption|]).
  apply Forall2_length in Hdims. rewrite <- Hdims. reflexivity.
Defined.

Lemma ensure_spec_witness :
  exists g1,
    gs_flatteningMode g1 = Some "tree-pre"
    /\ GroupingSpec_ensure 0%nat ex_keyArgs_treePre ex_heap =
       GroupingSpec_reversed 1%nat (ex_heap ++ [g1]).
Proof.
  destruct (ensure_spec ex_heap 0%nat _ ex_keyArgs_treePre ex_heap_wf eq_refl)
    as (_ & Hrebuild & _ & _).
  destruct Hrebuild as (g1 & _ & _ & Hm & _ & Hrun).
  - reflexivity.
  - discriminate.
  - left. discriminate.
  - exists g1. split; [exact Hm|exact Hrun].
Defined.

Lemma ex_name_ok (name : string) :
  forallb (fun c => negb (is_space c) && negb (Ascii.eqb c ",") && negb (Ascii.eqb c "|"))
          (list_ascii_of_string name) = true ->
  Forall (fun c => is_space c = false /\ c <> ","%char /\ c <> "|"%char)
         (list_ascii_of_string name).
Proof.
  intros H. apply Forall_forall. intros c Hc.
  rewrite forallb_forall in H. apply list_elem_of_In, H in Hc.
  apply andb_true_iff in Hc as [Hc Hpipe]. apply andb_true_iff in Hc as [Hsp Hcomma].
  apply negb_true_iff in Hsp, Hcomma, Hpipe.
  apply Ascii.eqb_neq in Hcomma, Hpipe. repeat split; assumption.
Qed.

Lemma ex_written_ok : Forall (Forall well_written) ex_written.
Proof.
  unfold ex_written. repeat (apply Forall_cons; split); try apply List.Forall_nil.
  - split; [discriminate|]. split; [apply ex_name_ok; reflexivity|left; reflexivity].
  - split; [discriminate|]. split; [apply ex_name_ok; reflexivity|right; reflexivity].
  - split; [discriminate|]. split; [apply ex_name_ok; reflexivity|exact I].
Qed.



Lemma ex_dimType_reversible (name : string) : reversible (ex_dimType name).
Proof.
  intros reverse [x|] [y|]; simpl; try reflexivity.
  destruct reverse; reflexivity.
Qed.

Lemma ex_comparer_transitive reverse : comparer_transitive (ex_comparer reverse).
Proof.
  intros [x|] [y|] [z|] rxy ryz Hxy Hyz H1 H2; simpl in *; try discriminate.
  - injection Hxy as <-. injection Hyz as <-. eexists. split; [reflexivity|].
    destruct reverse; lia.
  - injection Hxy as <-. injection Hyz as <-. exists 0. split; [reflexivity|]. lia.
Qed.

Lemma isDiscrete_dimensions_witness :
  exists g, ex_heap !! 0%nat = Some g /\ GroupingSpec_isDiscrete g = Ok true.
Proof.
  eexists. split; [reflexivity|].
  exact (isDiscrete_dimensions ex_heap 0%nat _ ex_heap_wf eq_refl).
Defined.

Lemma dimensionNames_memoized_witness :
  exists h' g1,
    GroupingSpec_dimensionNames 0%nat ex_heap
    = (Ok ["series1"; "series2"; "category"], h')
    /\ h' !! 0%nat = Some g1
    /\ gs__dimNames g1 = Some ["series1"; "series2"; "category"]
    /\ GroupingSpec_dimensionNames 0%nat h'
       = (Ok ["series1"; "series2"; "category"], h').
Proof.
  destruct (proj1 (dimensionNames_memoized (V := unit) ex_heap 0%nat _ (fun _ => Ok tt)
                                           eq_refl eq_refl))
    as (h' & g1 & H1 & Hg1 & Hslot & _ & _ & _ & _ & _ & _ & H2 & _).
  exists h', g1. split; [exact H1|]. split; [exact Hg1|]. split; [exact Hslot|exact H2].
Defined.

Lemma reversed_memoized_witness :
  exists r h',
    GroupingSpec_reversed 0%nat ex_heap = (Ok r, h')
    /\ r <> 0%nat
    /\ GroupingSpec_reversed 0%nat h' = (Ok r, h').
Proof.
  destruct (reversed_memoized ex_heap 0%nat _ ex_heap_wf eq_refl)
    as (r & h' & H1 & H2 & _ & H3).
  exists r, h'. split; [exact H1|]. split; [exact H2|exact H3].
Defined.

Lemma reversed_fields_witness :
  exists r h' g',
    GroupingSpec_reversed 0%nat ex_heap = (Ok r, h')
    /\ h' !! r = Some g'
    /\ gs_depth g' = 2%nat
    /\ gs_flattenRootLabel g' = "".
Proof.
  destruct (reversed_fields ex_heap 0%nat _ ex_heap_wf eq_refl)
    as (r & h' & g' & H1 & H2 & _ & H3 & _ & _ & _ & _ & H4 & _).
  exists r, h', g'. split; [exact H1|]. split; [exact H2|]. split; [exact H3|exact H4].
Defined.

Lemma reversed_compare_swapped_witness :
  exists g r h' g',
    ex_heap !! 0%nat = Some g
    /\ GroupingSpec_reversed 0%nat ex_heap = (Ok r, h')
    /\ h' !! r = Some g'
    /\ Forall2 (fun level level' =>
                  forall a b : Datum ExAtom,
                    GroupingLevelSpec_compare level' a b =
                    GroupingLevelSpec_compare level b a)
               (gs_levels g) (gs_levels g').
Proof.
  eexists.
  destruct (reversed_compare_swapped ex_heap 0%nat _ ex_heap_wf eq_refl)
    as (r & h' & g' & H1 & H2 & H3).
  - repeat (apply Forall_cons; split; [apply ex_dimType_reversible|]).
    apply List.Forall_nil.
  - exists r, h', g'. split; [reflexivity|]. split; [exact H1|].
    split; [exact H2|exact H3].
Defined.

Lemma reversed_twice_id_witness :
  exists g r h1 rr h2 g'',
    ex_heap !! 0%nat = Some g
    /\ GroupingSpec_reversed 0%nat ex_heap = (Ok r, h1)
    /\ GroupingSpec_reversed r h1 = (Ok rr, h2)
    /\ h2 !! rr = Some g''
    /\ gs_id g'' = gs_id g.
Proof.
  eexists.
  destruct (reversed_twice_id ex_heap 0%nat _ ex_heap_wf eq_refl)
    as (r & h1 & rr & h2 & g'' & H1 & H2 & H3 & _ & _ & _ & H4).
  exists r, h1, rr, h2, g''. split; [reflexivity|]. split; [exact H1|].
  split; [exact H2|]. split; [exact H3|]. apply H4. reflexivity.
Defined.

Lemma singleLevelGrouping_memoized_witness :
  exists s h',
    GroupingSpec_singleLevelGrouping 0%nat None ex_heap = (Ok s, h')
    /\ GroupingSpec_singleLevelGrouping 0%nat None h' = (Ok s, h')
    /\ GroupingSpec_singleLevelGrouping s None h' = (Ok s, h').
Proof.
  destruct (singleLevelGrouping_memoized ex_heap 0%nat _ None ex_heap_wf eq_refl)
    as (s & h' & H1 & _ & H2 & H3).
  exists s, h'. split; [exact H1|]. split; [exact H2|exact H3].
Defined.

Lemma ensure_idempotent_witness :
  exists s h',
    GroupingSpec_ensure 0%nat ex_keyArgs_flat ex_heap = (Ok s, h')
    /\ GroupingSpec_ensure s ex_keyArgs_flat h' = (Ok s, h').
Proof.
  exact (ensure_idempotent ex_heap 0%nat _ ex_keyArgs_flat ex_heap_wf eq_refl eq_refl).
Defined.

Lemma ensure_reverse_result_witness :
  exists s h' g',
    GroupingSpec_ensure 0%nat ex_keyArgs_treePre ex_heap = (Ok s, h')
    /\ h' !! s = Some g'
    /\ s <> 0%nat
    /\ gs_flattenRootLabel g' = ""
    /\ gs_flatteningMode g' = Some "tree-pre".
Proof.
  destruct (ensure_reverse_result ex_heap 0%nat _ ex_keyArgs_treePre ex_heap_wf
                                  eq_refl eq_refl)
    as (s & h' & g' & H1 & H2 & H3 & _ & H4 & H5).
  exists s, h', g'. split; [exact H1|]. split; [exact H2|]. split; [exact H3|].
  split; [exact H4|exact H5].
Defined.

Lemma ensure_keeps_store_witness :
  exists s h' g g1,
    GroupingSpec_ensure 0%nat ex_keyArgs_treePre ex_heap = (Ok s, h')
    /\ ex_heap !! 0%nat = Some g
    /\ h' !! 0%nat = Some g1
    /\ gs_levels g1 = gs_levels g
    /\ gs_id g1 = gs_id g.
Proof.
  destruct (ensure_keeps_store ex_heap 0%nat _ ex_keyArgs_treePre ex_heap_wf eq_refl)
    as (s & h' & H1 & _ & _ & Hkeep).
  destruct (Hkeep 0%nat _ eq_refl)
    as (g1 & Hg1 & _ & Hl & _ & _ & _ & _ & _ & _ & _ & Hid).
  exists s, h'. eexists. exists g1. split; [exact H1|]. split; [reflexivity|].
  split; [exact Hg1|]. split; [exact Hl|exact Hid].
Defined.

(** Three different datums in a chain: [datum_b] before [datum_a] by
    category, [datum_a] before [datum_c] by series. *)
Lemma compare_transitive_witness :
  GroupingLevelSpec_compare (GroupingLevelSpec_init ex_dims) datum_b datum_a = Ok (-1)
  /\ GroupingLevelSpec_compare (GroupingLevelSpec_init ex_dims) datum_a datum_c = Ok (-1)
  /\ exists rbc,
      GroupingLevelSpec_compare (GroupingLevelSpec_init ex_dims) datum_b datum_c = Ok rbc
      /\ rbc <= 0
      /\ (rbc = 0 -> -1 = 0 /\ -1 = 0).
Proof.
  split; [vm_compute; reflexivity|]. split; [vm_compute; reflexivity|].
  apply (compare_transitive ex_dims datum_b datum_a datum_c (-1) (-1)).
  - repeat constructor; apply ex_comparer_transitive.
  - vm_compute. reflexivity.
  - vm_compute. reflexivity.
  - lia.
  - lia.
Defined.

Lemma key_injective_witness :
  "1,5" = "1,7" <-> ["1"; "5"] = ["1"; "7"].
Proof.
  apply (key_injective ex_globalKey ex_dims datum_a datum_b
           {| key := "1,5"; key_atoms := [{| ex_value := 1 |}; {| ex_value := 5 |}] |}
           {| key := "1,7"; key_atoms := [{| ex_value := 1 |}; {| ex_value := 7 |}] |}).
  - vm_compute. reflexivity.
  - vm_compute. reflexivity.
  - repeat constructor.
  - repeat constructor.
Defined.

Lemma split_fragments_witness :
  length (map list_ascii_of_string (split (sep_regex ",") "a , b,,c")) = 4%nat.
Proof. exact (proj1 (split_fragments "," "a , b,,c" eq_refl)). Defined.

Lemma parseDimSpec_syntax_witness :
  exists (name : string) (reverse : bool),
    name <> ""
    /\ parseDimSpec ex_type "my dim desc"
       = (dimType ← ct_dimensions ex_type name;
          Ok (GroupingDimensionSpec_init dimType reverse)).
Proof.
  apply (proj1 (parseDimSpec_syntax ex_type "my dim desc")).
  exists [], (list_ascii_of_string "my dim"), (list_ascii_of_string " desc").
  split; [reflexivity|]. split; [constructor|]. split; [discriminate|].
  split; [repeat constructor|].
  right. exists [" "%char], (list_ascii_of_string "desc"), [].
  split; [reflexivity|]. split; [discriminate|]. split; [repeat constructor|].
  split; [constructor|]. right. reflexivity.
Defined.

Lemma parse_unresolved_name_witness :
  GroupingSpec_parse (Some (SpecString "series1 asc|series2 desc, category"))
                     (Some ex_series_type) []
  = (Err (Thrown "Undefined dimension 'category'."), []).
Proof.
  apply (parse_unresolved_name ex_series_type [" "%char] [] [" "%char]
           [[(list_ascii_of_string "series1", Some (list_ascii_of_string "asc"));
             (list_ascii_of_string "series2", Some (list_ascii_of_string "desc"))]]
           [] (list_ascii_of_string "category", None) [] []
           (Thrown "Undefined dimension 'category'.") []).
  - repeat constructor.
  - constructor.
  - discriminate.
  - repeat constructor.
  - exact ex_written_ok.
  - repeat constructor; eexists; reflexivity.
  - constructor.
  - reflexivity.
Defined.

Lemma singleLevelGrouping_compare_witness :
  exists s h' g' level,
    GroupingSpec_singleLevelGrouping 0%nat None ex_heap = (Ok s, h')
    /\ h' !! s = Some g'
    /\ gs_levels g' = [level]
    /\ GroupingLevelSpec_compare level datum_a datum_b = Ok (-1).
Proof.
  destruct (singleLevelGrouping_compare ex_heap 0%nat _ datum_a datum_b
                                        ex_heap_wf eq_refl)
    as (s & h' & g' & level & H1 & H2 & H3 & Hfirst & _).
  exists s, h', g', level. split; [exact H1|]. split; [exact H2|]. split; [exact H3|].
  eapply (Hfirst 1%nat).
  - reflexivity.
  - vm_compute. reflexivity.
  - discriminate.
  - intros j l' Hj Hl'. destruct j as [|j]; [|lia].
    injection Hl' as <-. vm_compute. reflexivity.
Defined.

Lemma singleLevelGrouping_reversed_witness :
  exists s h1 g1 r h2 s' h3 g2,
    GroupingSpec_singleLevelGrouping 0%nat ex_keyArgs_treePre ex_heap = (Ok s, h1)
    /\ h1 !! s = Some g1
    /\ GroupingSpec_reversed 0%nat ex_heap = (Ok r, h2)
    /\ GroupingSpec_singleLevelGrouping r None h2 = (Ok s', h3)
    /\ h3 !! s' = Some g2
    /\ gs_id g2 = gs_id g1.
Proof.
  destruct (singleLevelGrouping_reversed ex_heap 0%nat _ ex_keyArgs_treePre
                                         ex_heap_wf eq_refl eq_refl)
    as (s & h1 & g1 & r & h2 & s' & h3 & g2 & H1 & H2 & H3 & H4 & H5 & _ & _ & _ & H6).
  exists s, h1, g1, r, h2, s', h3, g2.
  split; [exact H1|]. split; [exact H2|]. split; [exact H3|]. split; [exact H4|].
  split; [exact H5|exact H6].
Defined.

Lemma reversed_key_same_witness :
  exists g r h' g',
    ex_heap !! 0%nat = Some g
    /\ GroupingSpec_reversed 0%nat ex_heap = (Ok r, h')
    /\ h' !! r = Some g'
    /\ Forall2 (fun level level' =>
                  forall datum : Datum ExAtom,
                    GroupingLevelSpec_key ex_globalKey level' datum =
                    GroupingLevelSpec_key ex_globalKey level datum)
               (gs_levels g) (gs_levels g').
Proof.
  eexists.
  destruct (reversed_key_same ex_globalKey ex_heap 0%nat _ ex_heap_wf eq_refl)
    as (r & h' & g' & H1 & H2 & H3).
  exists r, h', g'. split; [reflexivity|]. split; [exact H1|].
  split; [exact H2|exact H3].
Defined.

Lemma singleLevelGrouping_key_witness :
  exists s h' g' level,
    GroupingSpec_singleLevelGrouping 0%nat None ex_heap = (Ok s, h')
    /\ h' !! s = Some g'
    /\ gs_levels g' = [level]
    /\ GroupingLevelSpec_key ex_globalKey level datum_series
       = Ok {| key := "1,2,5";
               key_atoms := [{| ex_value := 1 |}; {| ex_value := 2 |};
                             {| ex_value := 5 |}] |}.
Proof.
  apply (singleLevelGrouping_key ex_globalKey ex_heap 0%nat _ datum_series
           [{| key := "1,2"; key_atoms := [{| ex_value := 1 |}; {| ex_value := 2 |}] |};
            {| key := "5"; key_atoms := [{| ex_value := 5 |}] |}]
           ex_heap_wf eq_refl).
  repeat constructor.
Defined.
